(** * Peloton control plane: tracker, matcher, placement processor, launcher,
      job-config validation and the leader-gated host-manager server.

    Shallow embedding of the Go sources.  Go maps are [gmap]s, pointers that
    the code shares between two indexes are addresses into an explicit heap,
    calls to collaborators that live behind an interface (resource pool,
    host manager client, job cache, goal-state driver, launcher) are recorded
    in a call log and their results are supplied by the caller of the model,
    the way the repository's own tests supply them through mocks. *)

From Stdlib Require Import ZArith NArith Lia.
From stdpp Require Import gmap strings list fin_maps functions.

(* ===================================================================== *)
(** * Leader-gated server: [ensureStateRound]                             *)
(* ===================================================================== *)

Module Server.

Local Open Scope Z_scope.

(** What [mesosInbound.StartMesosLoop(hostPort)] answers in a round. *)
Inductive StartResult := StartOk | StartErr.

(** Calls the round makes on its collaborators, in the vocabulary of the
    mocks of [ServerTestSuite]. *)
Inductive Call :=
| IsRunning
| InboundStop
| ReconcilerStop
| EventHandlerStop
| HostPort
| StartMesosLoop
| ReconcilerStart
| EventHandlerStart.

(** The fields of [Server] the round reads and writes.  [connected] is
    the answer of [mesosInbound.IsRunning()]; durations and instants are
    nanoseconds. *)
Record Server := mkServer {
  elected : bool;
  handlersRunning : bool;
  connected : bool;
  currentBackoffNano : Z;
  backoffUntilNano : Z;
  minBackoff : Z;
  maxBackoff : Z
}.

Definition set_handlers (b : bool) (s : Server) : Server :=
  mkServer (elected s) b (connected s) (currentBackoffNano s)
           (backoffUntilNano s) (minBackoff s) (maxBackoff s).

Definition set_connected (b : bool) (s : Server) : Server :=
  mkServer (elected s) (handlersRunning s) b (currentBackoffNano s)
           (backoffUntilNano s) (minBackoff s) (maxBackoff s).

Definition set_backoff (cur until : Z) (s : Server) : Server :=
  mkServer (elected s) (handlersRunning s) (connected s) cur until
           (minBackoff s) (maxBackoff s).

(** Modelled from the spec: the backoff after one more failed connect
    (server.go is missing; section 4.6 "on error double backoff capped at
    maxBackoff", section 8 scenario 2 "expect currentBackoff=minBackoff"
    for the first failure). *)
Definition nextBackoff (s : Server) : Z :=
  if currentBackoffNano s =? 0 then minBackoff s
  else Z.min (2 * currentBackoffNano s) (maxBackoff s).

(** Modelled from the spec: stopping the reconciler and the offer event
    handler (server.go is missing; order of the two calls as the tests
    expect it). *)
Definition stopHandlers (s : Server) : Server * list Call :=
  if handlersRunning s
  then (set_handlers false s, [ReconcilerStop; EventHandlerStop])
  else (s, []).

(** Modelled from the spec: starting both handlers. *)
Definition startHandlers (s : Server) : Server * list Call :=
  (set_handlers true s, [ReconcilerStart; EventHandlerStart]).

(** Modelled from the spec: the connect attempt of an elected server whose
    connection is down (server.go is missing; rows 4 and 5 of the rule table
    of section 4.6).  Inside the window nothing is tried; past it the leader
    is detected and [StartMesosLoop] is called; success resets the backoff
    to zero, failure installs [nextBackoff] and pushes [backoffUntil] to
    [now] plus the new backoff.  The spec does not say what success does to
    [backoffUntil]; it is left as it is. *)
Definition reconnect (now : Z) (r : StartResult) (s : Server)
  : Server * list Call :=
  if now <? backoffUntilNano s then (s, [])
  else
    match r with
    | StartOk =>
        (set_connected true (set_backoff 0 (backoffUntilNano s) s),
         [HostPort; StartMesosLoop])
    | StartErr =>
        let b := nextBackoff s in
        (set_backoff b (now + b) s, [HostPort; StartMesosLoop])
    end.

(** Modelled from the spec: one round of the control loop (server.go is
    missing; rule table of section 4.6, call order of [ServerTestSuite]).
    The last [IsRunning] is the one the tests attribute to gauge
    reporting. *)
Definition ensureStateRound (s : Server) (now : Z) (r : StartResult)
  : Server * list Call :=
  if elected s then
    let '(s1, c1) :=
      if connected s then (s, [])
      else
        let '(sa, ca) := stopHandlers s in
        let '(sb, cb) := reconnect now r sa in
        (sb, ca ++ cb) in
    let '(s2, c2) :=
      if connected s1 && negb (handlersRunning s1)
      then startHandlers s1 else (s1, []) in
    (s2, [IsRunning] ++ c1 ++ [IsRunning] ++ c2 ++ [IsRunning])
  else
    let '(s1, c1) :=
      if connected s then (set_connected false s, [InboundStop])
      else (s, []) in
    let '(s2, c2) := stopHandlers s1 in
    (s2, [IsRunning] ++ c1 ++ c2 ++ [IsRunning]).

(** [n] rounds in a row whose connect attempt fails, each taken at the
    instant the previous window closes. *)
Fixpoint failedRounds (n : nat) (s : Server) : Server :=
  match n with
  | O => s
  | S k =>
      let s' := failedRounds k s in
      fst (ensureStateRound s' (backoffUntilNano s') StartErr)
  end.

(** ** The rounds of [ServerTestSuite], replayed on the model. *)

Definition testServer (e h c : bool) (cur until : Z) : Server :=
  mkServer e h c cur until 100 1000.

Example TestUnelectedNoOp :
  ensureStateRound (testServer false false false 0 0) 5 StartErr
  = (testServer false false false 0 0, [IsRunning; IsRunning]).
Proof. reflexivity. Qed.

Example TestUnelectedStopConnectionAndHandler :
  ensureStateRound (testServer false true true 0 0) 5 StartErr
  = (testServer false false false 0 0,
     [IsRunning; InboundStop; ReconcilerStop; EventHandlerStop; IsRunning]).
Proof. reflexivity. Qed.

Example TestElectedRestartConnection :
  ensureStateRound (testServer true true false 0 0) 5 StartOk
  = (testServer true true true 0 0,
     [IsRunning; ReconcilerStop; EventHandlerStop; HostPort; StartMesosLoop;
      IsRunning; ReconcilerStart; EventHandlerStart; IsRunning]).
Proof. reflexivity. Qed.

Example TestElectedRestartHandlers :
  ensureStateRound (testServer true false true 0 0) 5 StartOk
  = (testServer true true true 0 0,
     [IsRunning; IsRunning; ReconcilerStart; EventHandlerStart; IsRunning]).
Proof. reflexivity. Qed.

Example TestBackoffOnMesosConnectFailure :
  ensureStateRound (testServer true false false 0 0) 5 StartErr
  = (testServer true false false 100 105,
     [IsRunning; HostPort; StartMesosLoop; IsRunning; IsRunning]).
Proof. reflexivity. Qed.

Example TestDoubleBackoff :
  ensureStateRound (testServer true false false 100 5) 5 StartErr
  = (testServer true false false 200 205,
     [IsRunning; HostPort; StartMesosLoop; IsRunning; IsRunning]).
Proof. reflexivity. Qed.

Example TestMaxBackoff :
  ensureStateRound (testServer true false false 999 5) 5 StartErr
  = (testServer true false false 1000 1005,
     [IsRunning; HostPort; StartMesosLoop; IsRunning; IsRunning]).
Proof. reflexivity. Qed.

Example TestEffectiveBackoff :
  ensureStateRound (testServer true false false 100 105) 5 StartErr
  = (testServer true false false 100 105,
     [IsRunning; IsRunning; IsRunning]).
Proof. reflexivity. Qed.

(** ** Properties *)

Lemma stopHandlers_fields (s : Server) :
  let s' := fst (stopHandlers s) in
  elected s' = elected s ∧ connected s' = connected s
  ∧ currentBackoffNano s' = currentBackoffNano s
  ∧ backoffUntilNano s' = backoffUntilNano s
  ∧ minBackoff s' = minBackoff s ∧ maxBackoff s' = maxBackoff s
  ∧ handlersRunning s' = false.
Proof.
  unfold stopHandlers. destruct (handlersRunning s) eqn:E; simpl; auto 10.
Qed.

Lemma nextBackoff_stopHandlers (s : Server) :
  nextBackoff (fst (stopHandlers s)) = nextBackoff s.
Proof.
  unfold stopHandlers. by destruct (handlersRunning s).
Qed.

(** The round of an elected, disconnected server whose window is over,
    reduced to its effect on the backoff fields. *)
Lemma round_connect_fields (s : Server) (now : Z) (r : StartResult) :
  elected s = true → connected s = false → backoffUntilNano s <= now →
  let s' := fst (ensureStateRound s now r) in
  match r with
  | StartErr =>
      currentBackoffNano s' = nextBackoff s
      ∧ backoffUntilNano s' = now + nextBackoff s
      ∧ connected s' = false
  | StartOk =>
      currentBackoffNano s' = 0 ∧ connected s' = true
      ∧ handlersRunning s' = true
  end
  ∧ elected s' = true ∧ minBackoff s' = minBackoff s
  ∧ maxBackoff s' = maxBackoff s.
Proof.
  intros He Hc Hw. unfold ensureStateRound. rewrite He, Hc.
  unfold stopHandlers, reconnect.
  destruct (handlersRunning s) eqn:Hh; simpl;
    (destruct (Z.ltb_spec now (backoffUntilNano s)); [lia|]);
    destruct r; simpl; rewrite ?Hc, ?Hh; simpl; auto 10.
Qed.

(** C1. For an elected server whose CM connection is down and whose
    backoff window has passed, a round in which [startMesosLoop] fails
    leaves [currentBackoff = min(2*currentBackoff, maxBackoff)], or
    [minBackoff] when it was zero, and [backoffUntil = now + ] the new
    backoff; a round in which it succeeds leaves [currentBackoff = 0]. *)
Theorem ensureStateRound_backoff (s : Server) (now : Z) :
  elected s = true → connected s = false → backoffUntilNano s <= now →
  let failed := fst (ensureStateRound s now StartErr) in
  let started := fst (ensureStateRound s now StartOk) in
  currentBackoffNano failed
    = (if currentBackoffNano s =? 0 then minBackoff s
       else Z.min (2 * currentBackoffNano s) (maxBackoff s))
  ∧ backoffUntilNano failed = now + currentBackoffNano failed
  ∧ currentBackoffNano started = 0.
Proof.
  intros He Hc Hw.
  destruct (round_connect_fields s now StartErr He Hc Hw) as [(Hb & Hu & _) _].
  destruct (round_connect_fields s now StartOk He Hc Hw) as [(Hz & _) _].
  simpl. rewrite Hu, Hb. by rewrite Hz.
Qed.

Lemma ensureStateRound_backoff_witness :
  let s := testServer true false false 100 5 in
  currentBackoffNano (fst (ensureStateRound s 5 StartErr)) = 200
  ∧ backoffUntilNano (fst (ensureStateRound s 5 StartErr)) = 205
  ∧ currentBackoffNano (fst (ensureStateRound s 5 StartOk)) = 0.
Proof.
  intros s.
  exact (ensureStateRound_backoff s 5 eq_refl eq_refl ltac:(simpl; lia)).
Defined.

(** Inside the window the round neither connects nor touches the backoff. *)
Lemma ensureStateRound_waits (s : Server) (now : Z) (r : StartResult) :
  elected s = true → connected s = false → now < backoffUntilNano s →
  let '(s', calls) := ensureStateRound s now r in
  currentBackoffNano s' = currentBackoffNano s
  ∧ backoffUntilNano s' = backoffUntilNano s
  ∧ StartMesosLoop ∉ calls.
Proof.
  intros He Hc Hw. unfold ensureStateRound. rewrite He, Hc.
  unfold stopHandlers, reconnect.
  destruct (handlersRunning s) eqn:Hh; simpl;
    (destruct (Z.ltb_spec now (backoffUntilNano s)); [|lia]);
    simpl; rewrite ?Hc; simpl; repeat split; auto;
    intros Hin; apply list_elem_of_In in Hin; simpl in Hin;
    intuition discriminate.
Qed.

(** Consecutive failures: the state stays elected and disconnected, so each
    further failed round applies [nextBackoff] once more. *)
Lemma failedRounds_inv (n : nat) (s : Server) :
  elected s = true → connected s = false →
  let s' := failedRounds n s in
  elected s' = true ∧ connected s' = false
  ∧ minBackoff s' = minBackoff s ∧ maxBackoff s' = maxBackoff s.
Proof.
  intros He Hc. induction n as [|n IH]; simpl; [done|].
  destruct IH as (He' & Hc' & Hm & HM).
  pose proof (round_connect_fields (failedRounds n s)
                (backoffUntilNano (failedRounds n s)) StartErr He' Hc'
                (Z.le_refl _)) as [(_ & _ & Hc'') (He'' & Hm' & HM')].
  simpl in *. rewrite He'', Hc'', Hm', HM'. auto.
Qed.

Lemma failedRounds_step (n : nat) (s : Server) :
  elected s = true → connected s = false →
  currentBackoffNano (failedRounds (S n) s)
  = nextBackoff (failedRounds n s).
Proof.
  intros He Hc.
  destruct (failedRounds_inv n s He Hc) as (He' & Hc' & _).
  simpl.
  by destruct (round_connect_fields (failedRounds n s)
                (backoffUntilNano (failedRounds n s)) StartErr He' Hc'
                (Z.le_refl _)) as [(-> & _) _].
Qed.

(** Closed form of the backoff after [n+1] failures in a row, starting
    from no backoff (scenario 2 of section 8). *)
Lemma failedRounds_closed_form (n : nat) (s : Server) :
  elected s = true → connected s = false → currentBackoffNano s = 0 →
  0 < minBackoff s <= maxBackoff s →
  currentBackoffNano (failedRounds (S n) s)
  = Z.min (2 ^ Z.of_nat n * minBackoff s) (maxBackoff s).
Proof.
  intros He Hc H0 Hm. induction n as [|n IH].
  - rewrite failedRounds_step by done. simpl. unfold nextBackoff.
    rewrite H0. simpl. lia.
  - rewrite failedRounds_step by done. unfold nextBackoff.
    destruct (failedRounds_inv (S n) s He Hc) as (_ & _ & -> & ->).
    rewrite IH.
    assert (2 ^ Z.of_nat (S n) * minBackoff s
            = 2 * (2 ^ Z.of_nat n * minBackoff s)) as ->.
    { rewrite Nat2Z.inj_succ, Z.pow_succ_r; lia. }
    assert (0 < 2 ^ Z.of_nat n * minBackoff s) as Hx.
    { apply Z.mul_pos_pos; [apply Z.pow_pos_nonneg|]; lia. }
    generalize dependent (2 ^ Z.of_nat n * minBackoff s). intros x _ Hx.
    destruct (Z.eqb_spec (Z.min x (maxBackoff s)) 0); lia.
Qed.

End Server.

(* ===================================================================== *)
(** * Offer pool matcher (pkg/hostmgr/offer/offerpool/matcher.go)         *)
(* ===================================================================== *)

Module Matcher.

Local Open Scope N_scope.

(** [math.MaxUint32]. *)
Definition MaxUint32 : N := 4294967295.

(** Conversion of a Go [int] length to [uint32]. *)
Definition uint32 (n : N) : N := n mod 2 ^ 32.

(** The part of [hostsvc.HostFilter] the matcher itself reads.  Both
    messages are pointers in Go, hence the options; the generated getters
    answer the zero value on nil. *)
Record QuantityControl := mkQuantity { MaxHosts : N }.
Record HostFilter := mkHostFilter { Quantity : option QuantityControl }.

Definition GetQuantity (f : option HostFilter) : option QuantityControl :=
  f ≫= Quantity.

Definition GetMaxHosts (q : option QuantityControl) : N :=
  from_option MaxHosts 0 q.

(** Modelled from the spec: the result codes of section 4.3 (the generated
    hostsvc package with [HostFilterResult] and [HostFilterResult_name] is
    missing).  [UNRECOGNIZED] stands for an int32 outside the name table. *)
Inductive HostFilterResult :=
| MATCH
| MISMATCH_CONSTRAINTS
| MISMATCH_RESOURCES
| MISMATCH_STATUS
| MISMATCH_MAX_HOST_LIMIT
| UNRECOGNIZED (n : Z).

Definition HostFilterResult_name (r : HostFilterResult) : option string :=
  match r with
  | MATCH => Some "MATCH"
  | MISMATCH_CONSTRAINTS => Some "MISMATCH_CONSTRAINTS"
  | MISMATCH_RESOURCES => Some "MISMATCH_RESOURCES"
  | MISMATCH_STATUS => Some "MISMATCH_STATUS"
  | MISMATCH_MAX_HOST_LIMIT => Some "MISMATCH_MAX_HOST_LIMIT"
  | UNRECOGNIZED _ => None
  end%string.

(** [strings.ToLower] on ASCII. *)
Definition lower_ascii (c : Ascii.ascii) : Ascii.ascii :=
  let n := Ascii.N_of_ascii c in
  if (65 <=? n) && (n <=? 90) then Ascii.ascii_of_N (n + 32) else c.

Fixpoint ToLower (s : string) : string :=
  match s with
  | EmptyString => EmptyString
  | String c r => String (lower_ascii c) (ToLower r)
  end.

Section WithOffers.

(** [summary.Offer] and [constraints.Evaluator] are opaque to the matcher. *)
Context {Offer Evaluator : Type}.

(** [summary.Match]. *)
Record Match := mkMatch { Result : HostFilterResult; MOffer : Offer }.

(** The one method of the [summary.HostSummary] interface whose answer the
    matcher uses. *)
Record HostSummary := mkSummary {
  TryMatch : option HostFilter → Evaluator → Match
}.

Record Matcher := mkMatcher {
  hostFilter : option HostFilter;
  evaluator : Evaluator;
  hostOffers : gmap string Offer;
  filterResultCounts : gmap string N
}.

Definition effectiveHostLimit (f : option HostFilter) : N :=
  let limit := GetMaxHosts (GetQuantity f) in
  if limit =? 0 then MaxUint32 else limit.

Definition HasEnoughHosts (m : Matcher) : bool :=
  effectiveHostLimit (hostFilter m) <=? uint32 (N.of_nat (size (hostOffers m))).

Definition tryMatchImpl (m : Matcher) (hostname : string) (s : HostSummary)
  : HostFilterResult * Matcher :=
  if HasEnoughHosts m then (MISMATCH_MAX_HOST_LIMIT, m)
  else
    match hostOffers m !! hostname with
    | Some _ => (MATCH, m)
    | None =>
        let mt := TryMatch s (hostFilter m) (evaluator m) in
        match Result mt with
        | MATCH =>
            (MATCH,
             mkMatcher (hostFilter m) (evaluator m)
                       (<[hostname := MOffer mt]> (hostOffers m))
                       (filterResultCounts m))
        | r => (r, m)
        end
    end.

(** [m.filterResultCounts[key]++] on a [map[string]uint32]. *)
Definition bump (key : string) (c : gmap string N) : gmap string N :=
  <[key := uint32 (default 0 (c !! key) + 1)]> c.

Definition tryMatch (m : Matcher) (hostname : string) (s : HostSummary)
  : Matcher :=
  let '(result, m') := tryMatchImpl m hostname s in
  match HostFilterResult_name result with
  | None => m'
  | Some name =>
      mkMatcher (hostFilter m') (evaluator m') (hostOffers m')
                (bump (ToLower name) (filterResultCounts m'))
  end.

Definition getHostOffers (m : Matcher)
  : (gmap string Offer * gmap string N) * Matcher :=
  ((hostOffers m, filterResultCounts m),
   mkMatcher (hostFilter m) (evaluator m) ∅ ∅).

Definition NewMatcher (f : option HostFilter) (e : Evaluator) : Matcher :=
  mkMatcher f e ∅ ∅.

(** Matchers a caller can hold: built by [NewMatcher], then driven by
    [tryMatch] and [getHostOffers]. *)
Inductive reachable (f : option HostFilter) (e : Evaluator)
  : Matcher → Prop :=
| reach_new : reachable f e (NewMatcher f e)
| reach_try m hostname s :
    reachable f e m → reachable f e (tryMatch m hostname s)
| reach_get m :
    reachable f e m → reachable f e (snd (getHostOffers m)).

End WithOffers.

Arguments Match : clear implicits.
Arguments HostSummary : clear implicits.
Arguments Matcher : clear implicits.

(** ** The matcher on concrete hosts *)

Definition always (r : HostFilterResult) : HostSummary nat unit :=
  mkSummary (λ _ _, mkMatch r 7%nat).

Definition limit1 : option HostFilter :=
  Some (mkHostFilter (Some (mkQuantity 1))).

Example ToLower_limit :
  ToLower "MISMATCH_MAX_HOST_LIMIT" = "mismatch_max_host_limit"%string.
Proof. reflexivity. Qed.

Example unlimited_nil_filter : effectiveHostLimit None = 4294967295.
Proof. reflexivity. Qed.

Example second_host_over_limit :
  let m1 := tryMatch (NewMatcher limit1 tt) "h0" (always MATCH) in
  let m2 := tryMatch m1 "h1" (always MATCH) in
  hostOffers m2 = {[ "h0"%string := 7%nat ]}
  ∧ filterResultCounts m2 !! "mismatch_max_host_limit"%string = Some 1
  ∧ filterResultCounts m2 !! "match"%string = Some 1.
Proof. vm_compute. done. Qed.

Section Properties.

Context {Offer Evaluator : Type}.
Implicit Types (m : Matcher Offer Evaluator) (s : HostSummary Offer Evaluator).
Implicit Types (f : option HostFilter) (hostname : string).


Lemma effectiveHostLimit_pos f : 0 < effectiveHostLimit f.
Proof.
  unfold effectiveHostLimit, MaxUint32.
  destruct (N.eqb_spec (GetMaxHosts (GetQuantity f)) 0); lia.
Qed.

(** A [uint32] field stays below [2^32], and so does the limit. *)
Lemma effectiveHostLimit_uint32 f :
  GetMaxHosts (GetQuantity f) < 2 ^ 32 → effectiveHostLimit f < 2 ^ 32.
Proof.
  unfold effectiveHostLimit, MaxUint32.
  destruct (N.eqb_spec (GetMaxHosts (GetQuantity f)) 0); lia.
Qed.

Lemma uint32_small (n : N) : n < 2 ^ 32 → uint32 n = n.
Proof. intros. unfold uint32. by apply N.mod_small. Qed.

Lemma uint32_le (n : N) : uint32 n <= n.
Proof. unfold uint32. apply N.Div0.mod_le. Qed.


Lemma HasEnoughHosts_below m :
  N.of_nat (size (hostOffers m)) < effectiveHostLimit (hostFilter m) →
  HasEnoughHosts m = false.
Proof.
  intros Hlt. unfold HasEnoughHosts. apply N.leb_gt.
  pose proof (uint32_le (N.of_nat (size (hostOffers m)))). lia.
Qed.

Lemma tryMatch_hostOffers m hostname s :
  hostOffers (tryMatch m hostname s)
  = hostOffers (snd (tryMatchImpl m hostname s)).
Proof.
  unfold tryMatch. destruct (tryMatchImpl m hostname s) as [r m'].
  by destruct (HostFilterResult_name r).
Qed.

Lemma tryMatch_hostFilter m hostname s :
  hostFilter (tryMatch m hostname s) = hostFilter m.
Proof.
  unfold tryMatch, tryMatchImpl.
  destruct (HasEnoughHosts m); [done|].
  destruct (hostOffers m !! hostname); [done|].
  by destruct (Result _).
Qed.

(** A host enters the result only through a [MATCH] below the limit, and
    the result then grows by that one host. *)
Lemma tryMatchImpl_cases m hostname s :
  let '(r, m') := tryMatchImpl m hostname s in
  hostOffers m' = hostOffers m
  ∨ (HasEnoughHosts m = false ∧ hostOffers m !! hostname = None ∧ r = MATCH
     ∧ ∃ o, hostOffers m' = <[hostname := o]> (hostOffers m)).
Proof.
  unfold tryMatchImpl.
  destruct (HasEnoughHosts m) eqn:He; [by left|].
  destruct (hostOffers m !! hostname) eqn:Hl; [by left|].
  destruct (Result _) eqn:Hr; try by left.
  right. eauto.
Qed.

(** The result never outgrows the limit. *)
Lemma reachable_within_limit f (e : Evaluator) m :
  GetMaxHosts (GetQuantity f) < 2 ^ 32 →
  reachable f e m →
  hostFilter m = f
  ∧ N.of_nat (size (hostOffers m)) <= effectiveHostLimit f.
Proof.
  intros Hu Hr. induction Hr as [|m hostname s Hr [IHf IHs]|m Hr [IHf IHs]].
  - split; [done|]. simpl. rewrite map_size_empty. lia.
  - rewrite tryMatch_hostFilter, tryMatch_hostOffers. split; [done|].
    pose proof (tryMatchImpl_cases m hostname s) as Hc.
    destruct (tryMatchImpl m hostname s) as [r m']. simpl.
    destruct Hc as [->|(He & Hn & _ & o & ->)]; [done|].
    rewrite map_size_insert_None by done.
    unfold HasEnoughHosts in He. apply N.leb_gt in He.
    rewrite IHf in He. rewrite uint32_small in He; [lia|].
    pose proof (effectiveHostLimit_uint32 f Hu). lia.
  - simpl. split; [done|]. rewrite map_size_empty. lia.
Qed.


(** C9. Below the host limit, [tryMatch] on a hostname that is already
    among the matched host offers answers [MATCH] and leaves the matched
    host offers as they are; the hostnames handed out by [getHostOffers]
    are pairwise distinct. *)
Theorem tryMatch_again_same_host m hostname s (o : Offer) :
  N.of_nat (size (hostOffers m)) < effectiveHostLimit (hostFilter m) →
  hostOffers m !! hostname = Some o →
  tryMatchImpl m hostname s = (MATCH, m)
  ∧ hostOffers (tryMatch m hostname s) = hostOffers m
  ∧ fst (fst (getHostOffers (tryMatch m hostname s))) = hostOffers m
  ∧ NoDup ((map_to_list
              (fst (fst (getHostOffers (tryMatch m hostname s))))).*1).
Proof.
  intros Hlt Hin. apply HasEnoughHosts_below in Hlt.
  assert (tryMatchImpl m hostname s = (MATCH, m)) as Himpl.
  { unfold tryMatchImpl. by rewrite Hlt, Hin. }
  assert (hostOffers (tryMatch m hostname s) = hostOffers m) as Hsame.
  { by rewrite tryMatch_hostOffers, Himpl. }
  repeat split; try done.
  apply NoDup_fst_map_to_list.
Qed.

End Properties.


Lemma tryMatch_again_same_host_witness :
  let m := tryMatch (NewMatcher None tt) "h0" (always MATCH) in
  tryMatchImpl m "h0" (always MISMATCH_STATUS) = (MATCH, m)
  ∧ hostOffers (tryMatch m "h0" (always MISMATCH_STATUS)) = hostOffers m
  ∧ fst (fst (getHostOffers (tryMatch m "h0" (always MISMATCH_STATUS))))
    = hostOffers m
  ∧ NoDup ((map_to_list
              (fst (fst (getHostOffers
                           (tryMatch m "h0" (always MISMATCH_STATUS)))))).*1).
Proof.
  intros m.
  exact (tryMatch_again_same_host m "h0" (always MISMATCH_STATUS) 7%nat
           ltac:(vm_compute; reflexivity) ltac:(vm_compute; reflexivity)).
Defined.

(* --------------------------------------------------------------------- *)
(** ** What a matcher accumulates *)

(** The sum of the counters of a [map[string]uint32]. *)
Definition total (c : gmap string N) : N :=
  map_fold (λ _ v acc, v + acc) 0 c.

Lemma total_delete c k v :
  c !! k = Some v → total c = v + total (delete k c).
Proof.
  intros Hk. unfold total.
  apply (map_fold_delete_L (λ _ v acc, v + acc) 0 k v c); [|done].
  intros. lia.
Qed.

Lemma total_insert_fresh c k v :
  c !! k = None → total (<[k := v]> c) = v + total c.
Proof.
  intros Hk. unfold total.
  apply (map_fold_insert_L (λ _ v acc, v + acc) 0 k v c); [|done].
  intros. lia.
Qed.

Lemma total_bump c k :
  total c + 1 < 2 ^ 32 → total (bump k c) = total c + 1.
Proof.
  intros Hlt. unfold bump. destruct (c !! k) as [v|] eqn:Hk; simpl.
  - rewrite (total_delete c k v Hk) in Hlt |- *.
    rewrite <- insert_delete_eq.
    rewrite total_insert_fresh by apply lookup_delete_eq.
    unfold uint32. rewrite N.mod_small by lia. lia.
  - rewrite total_insert_fresh by done. unfold uint32.
    rewrite N.mod_small by lia. lia.
Qed.

Section Accounting.

Context {Offer Evaluator : Type}.
Implicit Types (m : Matcher Offer Evaluator) (s : HostSummary Offer Evaluator).
Implicit Types (f : option HostFilter) (hostname : string).

(** One [tryMatch] per host, the way a caller walks over its host
    summaries with one matcher. *)
Definition tryEach m (hosts : list (string * HostSummary Offer Evaluator))
  : Matcher Offer Evaluator :=
  foldl (λ m hs, tryMatch m hs.1 hs.2) m hosts.

Lemma tryMatch_evaluator m hostname s :
  evaluator (tryMatch m hostname s) = evaluator m.
Proof.
  unfold tryMatch, tryMatchImpl.
  destruct (HasEnoughHosts m); [done|].
  destruct (hostOffers m !! hostname); [done|].
  by destruct (Result _).
Qed.

(** The result code of a [tryMatch] is the limit code, [MATCH], or what
    the host summary answered. *)
Lemma tryMatchImpl_result m hostname s :
  (tryMatchImpl m hostname s).1 = MISMATCH_MAX_HOST_LIMIT
  ∨ (tryMatchImpl m hostname s).1 = MATCH
  ∨ (tryMatchImpl m hostname s).1
    = Result (TryMatch s (hostFilter m) (evaluator m)).
Proof.
  unfold tryMatchImpl. destruct (HasEnoughHosts m); [by left|].
  destruct (hostOffers m !! hostname); [by right; left|].
  right. right. by destruct (Result _).
Qed.

Lemma tryMatch_counts m hostname s :
  filterResultCounts (tryMatch m hostname s)
  = match HostFilterResult_name (tryMatchImpl m hostname s).1 with
    | Some name => bump (ToLower name) (filterResultCounts m)
    | None => filterResultCounts m
    end.
Proof.
  assert (filterResultCounts (tryMatchImpl m hostname s).2
          = filterResultCounts m) as Hsame.
  { unfold tryMatchImpl. destruct (HasEnoughHosts m); [done|].
    destruct (hostOffers m !! hostname); [done|]. by destruct (Result _). }
  unfold tryMatch. destruct (tryMatchImpl m hostname s) as [r m'].
  cbn [fst snd] in *. destruct (HostFilterResult_name r); by rewrite <- Hsame.
Qed.

Lemma tryEach_total hosts m :
  total (filterResultCounts m) + N.of_nat (length hosts) < 2 ^ 32 →
  (∀ h s, (h, s) ∈ hosts →
          HostFilterResult_name
            (Result (TryMatch s (hostFilter m) (evaluator m))) ≠ None) →
  total (filterResultCounts (tryEach m hosts))
  = total (filterResultCounts m) + N.of_nat (length hosts).
Proof.
  revert m. induction hosts as [|[h s] hosts IH]; intros m Hlt Hnamed.
  { simpl. lia. }
  cbn [tryEach foldl fst snd]. fold (tryEach (tryMatch m h s) hosts).
  assert (total (filterResultCounts (tryMatch m h s))
          = total (filterResultCounts m) + 1) as Hone.
  { rewrite tryMatch_counts.
    destruct (HostFilterResult_name (tryMatchImpl m h s).1) as [name|] eqn:Hn.
    - apply total_bump. simpl in Hlt. lia.
    - destruct (tryMatchImpl_result m h s) as [Hr|[Hr|Hr]];
        rewrite Hr in Hn; try done.
      by destruct (Hnamed h s (list_elem_of_here _ _)). }
  rewrite IH.
  - rewrite Hone. simpl. lia.
  - rewrite Hone. simpl in Hlt. lia.
  - intros h' s' Hin. rewrite tryMatch_hostFilter, tryMatch_evaluator.
    apply (Hnamed h'). by apply list_elem_of_further.
Qed.

(** X14. However a matcher built by [NewMatcher] is driven, by [tryMatch]
    and [getHostOffers] in any order and on any hosts, the number of
    matched host offers it holds never exceeds the effective host limit
    of its filter. *)
Theorem matched_hosts_within_limit f (e : Evaluator) m :
  GetMaxHosts (GetQuantity f) < 2 ^ 32 →
  reachable f e m →
  N.of_nat (size (hostOffers m)) <= effectiveHostLimit f.
Proof.
  intros Hu Hr. by destruct (reachable_within_limit f e m Hu Hr).
Qed.

(** X15. [tryMatch] never drops or replaces a matched offer, and the only
    offer it can add is the one the host summary of the tried host
    answered with [MATCH], below the limit. *)
Theorem tryMatch_keeps_matched m hostname s :
  (∀ h o, hostOffers m !! h = Some o →
          hostOffers (tryMatch m hostname s) !! h = Some o)
  ∧ (∀ h o, hostOffers (tryMatch m hostname s) !! h = Some o →
            hostOffers m !! h = Some o
            ∨ (h = hostname ∧ HasEnoughHosts m = false
               ∧ Result (TryMatch s (hostFilter m) (evaluator m)) = MATCH
               ∧ MOffer (TryMatch s (hostFilter m) (evaluator m)) = o)).
Proof.
  rewrite tryMatch_hostOffers. unfold tryMatchImpl.
  destruct (HasEnoughHosts m) eqn:He; [by split; auto|].
  destruct (hostOffers m !! hostname) as [o0|] eqn:Hl; [by split; auto|].
  destruct (Result (TryMatch s (hostFilter m) (evaluator m))) eqn:Hr;
    try (by split; auto).
  cbn [snd hostOffers]. split.
  - intros h o Hh. rewrite lookup_insert_ne; [done|]. intros <-. congruence.
  - intros h o. rewrite lookup_insert_Some. intros [[<- <-]|[_ Hh]]; auto.
Qed.

(** X16. Every host tried is counted once: after a fresh matcher has
    tried a list of hosts whose summaries answer with named result codes,
    the counters of [filterResultCounts] add up to the number of hosts
    tried. *)
Theorem tryEach_counts_every_host f (e : Evaluator) hosts :
  N.of_nat (length hosts) < 2 ^ 32 →
  (∀ h s, (h, s) ∈ hosts →
          HostFilterResult_name (Result (TryMatch s f e)) ≠ None) →
  total (filterResultCounts (tryEach (NewMatcher f e) hosts))
  = N.of_nat (length hosts).
Proof.
  intros Hlt Hnamed.
  rewrite tryEach_total; cbn [NewMatcher filterResultCounts hostFilter evaluator].
  - done.
  - unfold total. rewrite map_fold_empty. lia.
  - done.
Qed.

End Accounting.

Lemma matched_hosts_within_limit_witness :
  N.of_nat (size (hostOffers
                    (tryMatch (tryMatch (NewMatcher limit1 tt) "h0"
                                        (always MATCH))
                              "h1" (always MATCH))))
  <= effectiveHostLimit limit1.
Proof.
  exact (matched_hosts_within_limit limit1 tt _
           ltac:(vm_compute; reflexivity)
           (reach_try limit1 tt _ "h1" (always MATCH)
              (reach_try limit1 tt _ "h0" (always MATCH)
                 (reach_new limit1 tt)))).
Defined.

(** Three tries on two hosts. *)
Definition threeTries : list (string * HostSummary nat unit) :=
  [("h0"%string, always MATCH);
   ("h1"%string, always MISMATCH_STATUS);
   ("h0"%string, always MATCH)].

Lemma tryEach_counts_every_host_witness :
  total (filterResultCounts (tryEach (NewMatcher limit1 tt) threeTries))
  = N.of_nat (length threeTries).
Proof.
  refine (tryEach_counts_every_host limit1 tt threeTries _ _).
  - vm_compute. reflexivity.
  - intros h s Hin. unfold threeTries in Hin.
    repeat (apply elem_of_cons in Hin as [Hin|Hin];
            [injection Hin as -> ->; discriminate|]).
    by apply elem_of_nil in Hin.
Defined.


End Matcher.

(* ===================================================================== *)
(** * Resource-manager task tracker (resmgr/task/tracker.go)              *)
(* ===================================================================== *)

Module Tracker.

(** Modelled from the spec: the task types of section 3 that index the
    placements (the generated resmgr package with [TaskType] is missing;
    tracker.go itself names [TaskType_UNKNOWN]). *)
Inductive TaskType := UNKNOWN | BATCH | STATELESS | DAEMON | STATEFUL.

Global Instance TaskType_eq_dec : EqDecision TaskType.
Proof. solve_decision. Defined.

Definition TaskType_code (t : TaskType) : nat :=
  match t with
  | UNKNOWN => 0 | BATCH => 1 | STATELESS => 2 | DAEMON => 3 | STATEFUL => 4
  end.

Definition TaskType_of_code (n : nat) : TaskType :=
  match n with
  | 0 => UNKNOWN | 1 => BATCH | 2 => STATELESS | 3 => DAEMON | _ => STATEFUL
  end.

Global Instance TaskType_countable : Countable TaskType.
Proof.
  apply (inj_countable' TaskType_code TaskType_of_code). by intros [].
Defined.

(** Modelled from the spec: the task states of section 4.2 (the generated
    task package with [TaskState] is missing).  tracker.go compares the
    [String()] names of two states, which is equality of the states. *)
Inductive TaskState :=
| INITIALIZED | PENDING | READY | PLACING | PLACED | LAUNCHING | LAUNCHED
| STARTING | RUNNING | SUCCEEDED | FAILED | KILLING | KILLED | LOST
| PREEMPTING | RESERVED.

Global Instance TaskState_eq_dec : EqDecision TaskState.
Proof. solve_decision. Defined.

(** The fields of [resmgr.Task] the tracker reads.  [TaskId] is the mesos
    task id behind [*t.Task().TaskId.Value]; [None] is a nil pointer on
    that path. *)
Record Task := mkTask {
  Id : string;
  Hostname : string;
  Type_ : TaskType;
  TaskId : option string
}.

(** [RMTask] as the tracker sees it: the wrapped task, the current state
    of its state machine, and the resource pool it belongs to. *)
Record RMTask := mkRMTask {
  task : Task;
  currentState : TaskState;
  respool : string
}.

Definition set_Hostname (h : string) (r : RMTask) : RMTask :=
  mkRMTask (mkTask (Id (task r)) h (Type_ (task r)) (TaskId (task r)))
           (currentState r) (respool r).

(** Addresses of [RMTask] objects.  Both indexes of the tracker hold
    [*RMTask]; an object reached through one index is the object reached
    through the other. *)
Abbreviation loc := nat (only parsing).

Record tracker := mkTracker {
  heap : loc → RMTask;
  next : loc;
  tasks : gmap string loc;
  placements : gmap string (gmap TaskType (gmap string loc))
}.

Definition set_placements (pl : gmap string (gmap TaskType (gmap string loc)))
  (tr : tracker) : tracker :=
  mkTracker (heap tr) (next tr) (tasks tr) pl.

Definition set_tasks (ts : gmap string loc) (tr : tracker) : tracker :=
  mkTracker (heap tr) (next tr) ts (placements tr).

Definition set_heap (h : loc → RMTask) (tr : tracker) : tracker :=
  mkTracker h (next tr) (tasks tr) (placements tr).

(** Reading nested Go maps: a missing key yields the nil map, which reads
    as the empty map. *)
Definition byHost (pl : gmap string (gmap TaskType (gmap string loc)))
  (h : string) : gmap TaskType (gmap string loc) :=
  default ∅ (pl !! h).

Definition byType (pl : gmap string (gmap TaskType (gmap string loc)))
  (h : string) (ty : TaskType) : gmap string loc :=
  default ∅ (byHost pl h !! ty).

Definition lookup3 (pl : gmap string (gmap TaskType (gmap string loc)))
  (h : string) (ty : TaskType) (id : string) : option loc :=
  byType pl h ty !! id.

(** No task of any type is indexed under host [h]. *)
Definition host_empty (pl : gmap string (gmap TaskType (gmap string loc)))
  (h : string) : Prop :=
  ∀ ty id, lookup3 pl h ty id = None.

Inductive Error :=
| ErrCreate
| ErrNotInTracker
| ErrMesosIdDiffers
| ErrFailedUpdate.

(** How a call ends: it returns (with or without an error) or panics on a
    nil dereference. *)
Inductive Outcome := Returned (err : option Error) | Panicked.

(** The guard of [markItDone]: the task's resources were counted in its
    pool unless it is still PENDING or INITIALIZED. *)
Definition counted (rm : RMTask) : bool :=
  negb (bool_decide (currentState rm = PENDING)
        || bool_decide (currentState rm = INITIALIZED)).

(** The tracker [InitTaskTracker] builds; no object is allocated yet, so
    the content of the heap is immaterial. *)
Definition emptyTracker : tracker :=
  mkTracker (λ _, mkRMTask (mkTask "" "" UNKNOWN None) INITIALIZED "") 0 ∅ ∅.

Section WithAllocation.

(** [scalar.Allocation] and [scalar.GetTaskAllocation] are not part of the
    tracker. *)
Context {Alloc : Type} (GetTaskAllocation : Task → Alloc).

(** Calls the tracker makes on its collaborators: the task's resource pool,
    the task's state machine, the host manager client. *)
Inductive Call :=
| SubtractFromAllocation (pool : string) (a : Alloc)
| Terminate (t : loc)
| AddInvalidTask (pool : string) (id : string)
| MarkHostDrained (host : string).

(** The hosts of the [MarkHostDrained] calls of a log, in order. *)
Definition drained (calls : list Call) : list string :=
  omap (λ c, match c with MarkHostDrained h => Some h | _ => None end) calls.

Definition clearPlacement (tr : tracker) (rmTask : loc)
  : tracker * list Call :=
  let t := task (heap tr rmTask) in
  if decide (Hostname t = "") then (tr, [])
  else
    let pl1 :=
      alter (alter (delete (Id t)) (Type_ t)) (Hostname t) (placements tr) in
    let pl2 :=
      if decide (size (byType pl1 (Hostname t) (Type_ t)) = 0)
      then alter (delete (Type_ t)) (Hostname t) pl1 else pl1 in
    if decide (size (byHost pl2 (Hostname t)) = 0)
    then (set_placements (delete (Hostname t) pl2) tr,
          [MarkHostDrained (Hostname t)])
    else (set_placements pl2 tr, []).

Definition setPlacement (tr : tracker) (t : string) (hostname : string)
  : tracker * list Call :=
  match tasks tr !! t with
  | None => (tr, [])
  | Some rmTask =>
      let '(tr1, calls) := clearPlacement tr rmTask in
      let tr2 :=
        set_heap (<[rmTask := set_Hostname hostname (heap tr1 rmTask)]>
                    (heap tr1)) tr1 in
      let ty := Type_ (task (heap tr2 rmTask)) in
      let pl0 := placements tr2 in
      let pl1 :=
        match pl0 !! hostname with
        | None => <[hostname := ∅]> pl0 | Some _ => pl0
        end in
      let pl2 :=
        match byHost pl1 hostname !! ty with
        | None => alter (insert ty ∅) hostname pl1 | Some _ => pl1
        end in
      let pl3 :=
        match byType pl2 hostname ty !! t with
        | None => alter (alter (insert t rmTask) ty) hostname pl2
        | Some _ => pl2
        end in
      (set_placements pl3 tr2, calls)
  end.

Definition SetPlacement := setPlacement.

(** [SetPlacementHost] over the task ids of a placement. *)
Fixpoint SetPlacementHost (tr : tracker) (ids : list string)
  (hostname : string) : tracker * list Call :=
  match ids with
  | [] => (tr, [])
  | t :: rest =>
      let '(tr1, c1) := setPlacement tr t hostname in
      let '(tr2, c2) := SetPlacementHost tr1 rest hostname in
      (tr2, c1 ++ c2)
  end.

(** [AddTask]; [created] is what [CreateRMTask] returned. *)
Definition AddTask (tr : tracker) (created : option RMTask)
  : Outcome * tracker * list Call :=
  match created with
  | None => (Returned (Some ErrCreate), tr, [])
  | Some rmTask =>
      let p := next tr in
      let tr1 :=
        mkTracker (<[p := rmTask]> (heap tr)) (S p)
                  (<[Id (task rmTask) := p]> (tasks tr)) (placements tr) in
      let '(tr2, calls) :=
        if decide (Hostname (task rmTask) = "") then (tr1, [])
        else setPlacement tr1 (Id (task rmTask)) (Hostname (task rmTask)) in
      (Returned None, tr2, calls)
  end.

Definition getTask (tr : tracker) (t : string) : option loc := tasks tr !! t.

Definition deleteTask (tr : tracker) (t : string) : tracker * list Call :=
  let '(tr1, calls) :=
    match tasks tr !! t with
    | Some rmTask => clearPlacement tr rmTask
    | None => (tr, [])
    end in
  (set_tasks (delete t (tasks tr1)) tr1, calls).

Definition DeleteTask := deleteTask.

(** [pool r a] tells whether [SubtractFromAllocation(a)] on resource pool
    [r] returns a nil error. *)
Definition markItDone (pool : string → Alloc → bool) (tr : tracker)
  (t : loc) (mesosTaskID : string) : Outcome * tracker * list Call :=
  let rm := heap tr t in
  let tID := Id (task rm) in
  match TaskId (task rm) with
  | None => (Panicked, tr, [])
  | Some stored =>
      if negb (bool_decide (stored = mesosTaskID))
      then (Returned (Some ErrMesosIdDiffers), tr, [])
      else
        let a := GetTaskAllocation (task rm) in
        if counted rm && negb (pool (respool rm) a)
        then (Returned (Some ErrFailedUpdate), tr,
              [SubtractFromAllocation (respool rm) a])
        else
          let '(tr1, calls) := deleteTask tr tID in
          (Returned None, tr1,
           (if counted rm then [SubtractFromAllocation (respool rm) a]
            else [])
           ++ [Terminate t] ++ calls)
  end.

Definition MarkItDone (pool : string → Alloc → bool) (tr : tracker)
  (tID : string) (mesosTaskID : string) : Outcome * tracker * list Call :=
  match getTask tr tID with
  | None => (Returned (Some ErrNotInTracker), tr, [])
  | Some t => markItDone pool tr t mesosTaskID
  end.

Definition MarkItInvalid (pool : string → Alloc → bool) (tr : tracker)
  (tID : string) (mesosTaskID : string) : Outcome * tracker * list Call :=
  match getTask tr tID with
  | None => (Returned (Some ErrNotInTracker), tr, [])
  | Some t =>
      match markItDone pool tr t mesosTaskID with
      | (Returned None, tr1, calls) =>
          let rm := heap tr1 t in
          if bool_decide (currentState rm = PENDING)
             || bool_decide (currentState rm = INITIALIZED)
          then (Returned None, tr1, calls ++ [AddInvalidTask (respool rm) tID])
          else (Returned None, tr1, calls)
      | failed => failed
      end
  end.

Definition GetSize (tr : tracker) : nat := size (tasks tr).

Definition Clear (tr : tracker) : tracker :=
  mkTracker (heap tr) (next tr) ∅ ∅.

(** One call on the tracker's interface.  [AddTask] is given a task id
    the tracker does not hold yet and a placement names a host: the
    handlers of the resource manager look a task up before they add it,
    and take the hostname from a placement. *)
Inductive step : tracker → tracker → Prop :=
| step_AddTask tr rm :
    tasks tr !! Id (task rm) = None → step tr (AddTask tr (Some rm)).1.2
| step_SetPlacement tr t hostname :
    hostname ≠ ""%string → step tr (SetPlacement tr t hostname).1
| step_DeleteTask tr t : step tr (DeleteTask tr t).1
| step_MarkItDone pool tr t m : step tr (MarkItDone pool tr t m).1.2
| step_MarkItInvalid pool tr t m : step tr (MarkItInvalid pool tr t m).1.2
| step_Clear tr : step tr (Clear tr).

Inductive reachable : tracker → Prop :=
| reach_init : reachable emptyTracker
| reach_step tr tr' : reachable tr → step tr tr' → reachable tr'.

End WithAllocation.

Arguments Call : clear implicits.

(** ** Reading the tracker *)

(** Modelled from the spec: the names of the task states, which [String()]
    of the generated enum prints (the generated task package is
    missing). *)
Definition TaskState_name (s : TaskState) : string :=
  match s with
  | INITIALIZED => "INITIALIZED" | PENDING => "PENDING" | READY => "READY"
  | PLACING => "PLACING" | PLACED => "PLACED" | LAUNCHING => "LAUNCHING"
  | LAUNCHED => "LAUNCHED" | STARTING => "STARTING" | RUNNING => "RUNNING"
  | SUCCEEDED => "SUCCEEDED" | FAILED => "FAILED" | KILLING => "KILLING"
  | KILLED => "KILLED" | LOST => "LOST" | PREEMPTING => "PREEMPTING"
  | RESERVED => "RESERVED"
  end.

(** Modelled from the spec: the keys of [resmgr.TaskType_name], the task
    types of section 3. *)
Definition allTypes : list TaskType :=
  [UNKNOWN; BATCH; STATELESS; DAEMON; STATEFUL].

(** [util.Contains]. *)
Definition Contains (list : list string) (item : string) : bool :=
  bool_decide (item ∈ list).

(** [result[key] = append(result[key], rmTask)] on a map of slices. *)
Definition appendTask (key : string) (result : gmap string (list loc))
  (rmTask : loc) : gmap string (list loc) :=
  <[key := default [] (result !! key) ++ [rmTask]]> result.

Section Queries.

(** A [range] over a Go map visits every entry once, in an order of its
    own: [typeOrder] is the order of the range over
    [resmgr.TaskType_name], [rangeOrder] the order of a range over a map of
    tasks.  [GetJobId] reads [GetJobId().GetValue()] off a task, a field
    the updates of the tracker do not look at. *)
Context (typeOrder : list TaskType)
        (rangeOrder : gmap string loc → list (string * loc))
        (GetJobId : Task → string).

Definition GetTask := getTask.

(** The types [TasksByHosts] looks under. *)
Definition typesOf (taskType : TaskType) : list TaskType :=
  if decide (taskType = UNKNOWN) then typeOrder else [taskType].

(** TasksByHosts returns all tasks of the given type running on the given
    hosts. *)
Definition TasksByHosts (tr : tracker) (hosts : list string)
  (taskType : TaskType) : gmap string (list loc) :=
  foldl (λ result hostname,
           foldl (λ result tType,
                    foldl (λ result kv, appendTask hostname result kv.2)
                          result
                          (rangeOrder (byType (placements tr) hostname tType)))
                 result (typesOf taskType))
        ∅ hosts.

(** One turn of the loop of [GetActiveTasks]. *)
Definition activeTurn (tr : tracker) (jobID respoolID : string)
  (states : list string) (taskStates : gmap string (list loc)) (t : loc)
  : gmap string (list loc) :=
  let rm := heap tr t in
  if negb (bool_decide (jobID = ""%string))
     && negb (bool_decide (GetJobId (task rm) = jobID))
  then taskStates
  else if negb (bool_decide (respoolID = ""%string))
          && negb (bool_decide (respool rm = respoolID))
  then taskStates
  else
    let taskState := TaskState_name (currentState rm) in
    if bool_decide (0 < length states) && negb (Contains states taskState)
    then taskStates
    else appendTask taskState taskStates t.

(** GetActiveTasks returns task to states map, if jobID or respoolID is
    provided, only tasks for that job or respool will be returned. *)
Definition GetActiveTasks (tr : tracker) (jobID respoolID : string)
  (states : list string) : gmap string (list loc) :=
  foldl (activeTurn tr jobID respoolID states) ∅ (rangeOrder (tasks tr)).*2.

End Queries.

(** ** Closed forms of the two updates of the placements index *)

(** Store [x] under key [k], or drop the key when [x] is empty: the effect
    of deleting from an inner Go map and then deleting the inner map itself
    once its length is zero. *)
Definition prune `{Countable K} {V : Type} `{EqDecision V} (k : K) (x : V)
  `{Empty V} (m : gmap K V) : gmap K V :=
  if decide (x = ∅) then delete k m else <[k := x]> m.

(** What [clearPlacement] leaves of the index for a task [id] of type [ty]
    recorded on host [h], and whether it reports the host as drained. *)
Definition cleared (pl : gmap string (gmap TaskType (gmap string loc)))
  (h : string) (ty : TaskType) (id : string)
  : gmap string (gmap TaskType (gmap string loc)) * bool :=
  let m3 := delete id (byType pl h ty) in
  let m2 := prune ty m3 (byHost pl h) in
  (prune h m2 pl, bool_decide (m2 = ∅)).

(** What [setPlacement] makes of the index when it files object [p] as task
    [t] of type [ty] on [hostname]. *)
Definition placed (pl : gmap string (gmap TaskType (gmap string loc)))
  (hostname : string) (ty : TaskType) (t : string) (p : loc)
  : gmap string (gmap TaskType (gmap string loc)) :=
  let m2 := byHost pl hostname in
  let m3 := byType pl hostname ty in
  <[hostname :=
      <[ty := match m3 !! t with Some _ => m3 | None => <[t := p]> m3 end]>
        m2]> pl.

(** Every host of the index has a type, and every type of a host has a
    task: the index holds no empty inner map. *)
Definition wf_placements
  (pl : gmap string (gmap TaskType (gmap string loc))) : Prop :=
  ∀ h m2, pl !! h = Some m2 →
    m2 ≠ ∅ ∧ ∀ ty m3, m2 !! ty = Some m3 → m3 ≠ ∅.

(** The two indexes agree: a task id maps to the object that carries this
    id, and an entry of the placements index sits under the host and type
    its object records and is the object the task index holds. *)
Record consistent (tr : tracker) : Prop := mkConsistent {
  c_id : ∀ id p, tasks tr !! id = Some p →
    Id (task (heap tr p)) = id ∧ p < next tr;
  c_pl : ∀ h ty id p, lookup3 (placements tr) h ty id = Some p →
    h ≠ ""%string ∧ tasks tr !! id = Some p
    ∧ Hostname (task (heap tr p)) = h ∧ Type_ (task (heap tr p)) = ty
}.

(** ** A small tracker *)

Definition noAlloc (t : Task) : unit := tt.

Definition poolOk (pool : string) (a : unit) : bool := true.
Definition poolErr (pool : string) (a : unit) : bool := false.

Definition rmA : RMTask :=
  mkRMTask (mkTask "job-0" "h1" BATCH (Some "mesos-0"%string)) RUNNING "pool".
Definition rmB : RMTask :=
  mkRMTask (mkTask "job-1" "h1" BATCH (Some "mesos-1"%string)) PENDING "pool".

Definition trA : tracker := (AddTask (Alloc := unit) emptyTracker (Some rmA)).1.2.
Definition trAB : tracker := (AddTask (Alloc := unit) trA (Some rmB)).1.2.

Section MapFacts.

Context `{Countable K} {A : Type}.

Lemma alter_lookup_Some (f : A → A) (m : gmap K A) k v :
  m !! k = Some v → alter f k m = <[k := f v]> m.
Proof.
  intros Hk. apply map_eq; intros j. destruct (decide (k = j)) as [->|Hne].
  - by rewrite lookup_alter_eq, lookup_insert_eq, Hk.
  - by rewrite lookup_alter_ne, lookup_insert_ne.
Qed.

Lemma alter_lookup_None (f : A → A) (m : gmap K A) k :
  m !! k = None → alter f k m = m.
Proof.
  intros Hk. apply map_eq; intros j. destruct (decide (k = j)) as [->|Hne].
  - by rewrite lookup_alter_eq, Hk.
  - by rewrite lookup_alter_ne.
Qed.

Lemma size_zero_empty (m : gmap K A) : size m = 0 ↔ m = ∅.
Proof. apply map_size_empty_iff. Qed.

End MapFacts.

Lemma byHost_Some pl h m2 : pl !! h = Some m2 → byHost pl h = m2.
Proof. unfold byHost. by intros ->. Qed.

Lemma byHost_None pl h : pl !! h = None → byHost pl h = ∅.
Proof. unfold byHost. by intros ->. Qed.

Lemma byHost_insert pl h m2 : byHost (<[h := m2]> pl) h = m2.
Proof. unfold byHost. by rewrite lookup_insert_eq. Qed.

Lemma byHost_insert_ne pl h h' m2 :
  h ≠ h' → byHost (<[h := m2]> pl) h' = byHost pl h'.
Proof. intros. unfold byHost. by rewrite lookup_insert_ne. Qed.

Lemma byHost_delete pl h : byHost (delete h pl) h = ∅.
Proof. unfold byHost. by rewrite lookup_delete_eq. Qed.

Lemma byHost_delete_ne pl h h' :
  h ≠ h' → byHost (delete h pl) h' = byHost pl h'.
Proof. intros. unfold byHost. by rewrite lookup_delete_ne. Qed.

Lemma lookup3_other_host pl pl' h' ty id :
  byHost pl' h' = byHost pl h' → lookup3 pl' h' ty id = lookup3 pl h' ty id.
Proof. unfold lookup3, byType. by intros ->. Qed.

Lemma host_empty_None pl h : pl !! h = None → host_empty pl h.
Proof.
  intros Hn ty id. unfold lookup3, byType. by rewrite (byHost_None _ _ Hn).
Qed.

Lemma wf_host_not_empty pl h m2 :
  wf_placements pl → pl !! h = Some m2 → ¬ host_empty pl h.
Proof.
  intros Hwf Hh He. destruct (Hwf h m2 Hh) as [Hne Hin].
  apply map_choose in Hne as (ty & m3 & Hty).
  apply Hin in Hty as Hne3. apply map_choose in Hne3 as (id & p & Hid).
  specialize (He ty id). unfold lookup3, byType in He.
  rewrite (byHost_Some _ _ _ Hh), Hty in He. simpl in He. congruence.
Qed.

(** Under [wf_placements] a host is empty exactly when it is not a key. *)
Lemma wf_host_empty_iff pl h :
  wf_placements pl → host_empty pl h ↔ pl !! h = None.
Proof.
  intros Hwf. split; [|apply host_empty_None].
  intros He. destruct (pl !! h) as [m2|] eqn:Hh; [|done].
  by destruct (wf_host_not_empty pl h m2).
Qed.

Section PruneFacts.

Context `{Countable K} `{EqDecision A} `{Countable K'}.
Implicit Types (m : gmap K (gmap K' A)) (x : gmap K' A).

Lemma prune_lookup m k x j :
  default ∅ (prune k x m !! j)
  = if decide (j = k) then x else default ∅ (m !! j).
Proof.
  unfold prune. destruct (decide (j = k)) as [->|Hne].
  - destruct (decide (x = ∅)) as [->|Hx].
    + by rewrite lookup_delete_eq.
    + by rewrite lookup_insert_eq.
  - destruct (decide (x = ∅)); by rewrite ?lookup_delete_ne, ?lookup_insert_ne.
Qed.

Lemma prune_lookup_Some m k x j y :
  prune k x m !! j = Some y ↔
  (j = k ∧ y = x ∧ x ≠ ∅) ∨ (j ≠ k ∧ m !! j = Some y).
Proof.
  unfold prune. destruct (decide (x = ∅)) as [->|Hx].
  - rewrite lookup_delete_Some. split.
    + intros [? ?]. right. auto.
    + intros [(_ & _ & ?)|[? ?]]; [done|auto].
  - rewrite lookup_insert_Some. split.
    + intros [[-> ->]|[? ?]]; [left|right]; auto.
    + intros [(-> & -> & _)|[? ?]]; [left|right]; auto.
Qed.

Lemma prune_lookup_None m k x : prune k x m !! k = None ↔ x = ∅.
Proof.
  unfold prune. destruct (decide (x = ∅)) as [->|Hx].
  - by rewrite lookup_delete_eq.
  - rewrite lookup_insert_eq. split; [done|]. intros ->. done.
Qed.

Lemma prune_empty m k : prune k ∅ m = delete k m.
Proof. unfold prune. by rewrite decide_True. Qed.

Lemma prune_nonempty m k x : x ≠ ∅ → prune k x m = <[k := x]> m.
Proof. intros. unfold prune. by rewrite decide_False. Qed.

(** Deleting from a missing inner map and pruning it changes nothing. *)
Lemma prune_absent m k : m !! k = None → prune k ∅ m = m.
Proof. intros Hk. rewrite prune_empty. by apply delete_id. Qed.

End PruneFacts.

Lemma byHost_prune pl h x h' :
  byHost (prune h x pl) h' = if decide (h' = h) then x else byHost pl h'.
Proof. apply prune_lookup. Qed.

Lemma cleared_lookup3 pl h ty id h' ty' id' :
  lookup3 (cleared pl h ty id).1 h' ty' id'
  = if decide (h' = h ∧ ty' = ty ∧ id' = id) then None
    else lookup3 pl h' ty' id'.
Proof.
  unfold cleared, lookup3, byType at 1. simpl. rewrite byHost_prune.
  destruct (decide (h' = h)) as [->|Hh].
  2:{ by rewrite decide_False by (intros (? & ? & ?); done). }
  rewrite prune_lookup. unfold byType.
  destruct (decide (ty' = ty)) as [->|Hty].
  2:{ by rewrite decide_False by (intros (? & ? & ?); done). }
  destruct (decide (id' = id)) as [->|Hid].
  - rewrite decide_True by done. apply lookup_delete_eq.
  - rewrite decide_False by (intros (? & ? & ?); done).
    by apply lookup_delete_ne.
Qed.

Lemma cleared_wf pl h ty id :
  wf_placements pl → wf_placements (cleared pl h ty id).1.
Proof.
  intros Hwf h' m2. unfold cleared. simpl.
  rewrite prune_lookup_Some. intros [(-> & -> & Hne)|[Hh Hl]].
  - split; [done|]. intros ty' m3. rewrite prune_lookup_Some.
    intros [(-> & -> & Hne3)|[Hty Hl]]; [done|].
    unfold byHost in Hl. destruct (pl !! h) as [m2|] eqn:Hpl; [|done].
    simpl in Hl. by apply (Hwf h m2 Hpl) in Hl.
  - by apply (Hwf h').
Qed.

(** The drained flag is raised exactly when the host is left without any
    task in the index. *)
Lemma cleared_drained_iff pl h ty id :
  wf_placements pl →
  (cleared pl h ty id).2 = true ↔ host_empty (cleared pl h ty id).1 h.
Proof.
  intros Hwf. rewrite wf_host_empty_iff by by apply cleared_wf.
  unfold cleared. simpl. rewrite prune_lookup_None.
  apply bool_decide_eq_true.
Qed.

Lemma placed_lookup3 pl hostname ty t p h' ty' id' :
  lookup3 (placed pl hostname ty t p) h' ty' id'
  = if decide (h' = hostname ∧ ty' = ty ∧ id' = t)
    then Some (default p (lookup3 pl hostname ty t))
    else lookup3 pl h' ty' id'.
Proof.
  unfold placed, lookup3, byType at 1.
  destruct (decide (h' = hostname)) as [->|Hh].
  2:{ rewrite decide_False by (intros (? & ? & ?); done).
      unfold byType. by rewrite byHost_insert_ne. }
  rewrite byHost_insert.
  destruct (decide (ty' = ty)) as [->|Hty].
  2:{ rewrite decide_False by (intros (? & ? & ?); done).
      unfold byType. by rewrite lookup_insert_ne. }
  rewrite lookup_insert_eq. simpl.
  destruct (decide (id' = t)) as [->|Hid].
  - rewrite decide_True by done.
    destruct (byType pl hostname ty !! t) eqn:Ht; simpl.
    + by rewrite Ht.
    + by rewrite lookup_insert_eq.
  - rewrite decide_False by (intros (? & ? & ?); done).
    destruct (byType pl hostname ty !! t); [done|].
    by rewrite lookup_insert_ne.
Qed.

Lemma placed_wf pl hostname ty t p :
  wf_placements pl → wf_placements (placed pl hostname ty t p).
Proof.
  intros Hwf h' m2. unfold placed. rewrite lookup_insert_Some.
  intros [[<- <-]|[Hh Hl]]; [|by apply (Hwf h')].
  split; [apply insert_non_empty|].
  intros ty' m3. rewrite lookup_insert_Some. intros [[<- <-]|[Hty Hl]].
  - destruct (byType pl hostname ty !! t) eqn:Ht.
    + intros He. rewrite He in Ht. by rewrite lookup_empty in Ht.
    + apply insert_non_empty.
  - unfold byHost in Hl. destruct (pl !! hostname) as [m2|] eqn:Hpl; [|done].
    by apply (Hwf hostname m2 Hpl) in Hl.
Qed.


(** The three guarded assignments of [setPlacement] compute [placed]. *)
Lemma insertion_placed (pl0 : gmap string (gmap TaskType (gmap string loc)))
  hostname ty t p :
  let pl1 :=
    match pl0 !! hostname with
    | None => <[hostname := ∅]> pl0 | Some _ => pl0
    end in
  let pl2 :=
    match byHost pl1 hostname !! ty with
    | None => alter (insert ty ∅) hostname pl1 | Some _ => pl1
    end in
  let pl3 :=
    match byType pl2 hostname ty !! t with
    | None => alter (alter (insert t p) ty) hostname pl2
    | Some _ => pl2
    end in
  pl3 = placed pl0 hostname ty t p.
Proof.
  intros pl1 pl2 pl3. unfold placed.
  assert (pl1 = <[hostname := byHost pl0 hostname]> pl0) as H1.
  { unfold pl1, byHost. destruct (pl0 !! hostname) as [m2|] eqn:Hpl; simpl.
    - by rewrite insert_id.
    - done. }
  assert (pl2 = <[hostname := <[ty := byType pl0 hostname ty]>
                                (byHost pl0 hostname)]> pl0) as H2.
  { unfold pl2. rewrite H1, byHost_insert. unfold byType.
    destruct (byHost pl0 hostname !! ty) as [m3|] eqn:Hm2; simpl.
    - by rewrite (insert_id (byHost pl0 hostname) ty m3).
    - rewrite (alter_lookup_Some _ _ hostname _ (lookup_insert_eq _ _ _)).
      by rewrite insert_insert_eq. }
  unfold pl3. rewrite H2. unfold byType at 1. rewrite byHost_insert.
  rewrite lookup_insert_eq. simpl.
  destruct (byType pl0 hostname ty !! t) eqn:Ht; [done|].
  rewrite (alter_lookup_Some _ _ hostname _ (lookup_insert_eq _ _ _)).
  rewrite (alter_lookup_Some _ _ ty _ (lookup_insert_eq _ _ _)).
  by rewrite !insert_insert_eq.
Qed.


Section Properties.

Context {Alloc : Type} (GetTaskAllocation : Task → Alloc).
Implicit Types (tr : tracker) (p : loc) (calls : list (Call Alloc)).

(** [clearPlacement] computes [cleared]. *)
Lemma clearPlacement_cleared tr p :
  let t := task (heap tr p) in
  Hostname t ≠ ""%string →
  clearPlacement (Alloc := Alloc) tr p
  = (set_placements (cleared (placements tr) (Hostname t) (Type_ t) (Id t)).1 tr,
     if (cleared (placements tr) (Hostname t) (Type_ t) (Id t)).2
     then [MarkHostDrained (Hostname t)] else []).
Proof.
  intros t Hne. unfold clearPlacement. fold t. rewrite decide_False by done.
  generalize (Hostname t) (Type_ t) (Id t). clear t Hne. intros h ty id.
  set (pl := placements tr). unfold cleared, byType.
  destruct (pl !! h) as [m2|] eqn:Hpl.
  - rewrite (byHost_Some _ _ _ Hpl).
    rewrite (alter_lookup_Some _ pl h m2 Hpl).
    destruct (m2 !! ty) as [m3|] eqn:Hm2; simpl.
    + rewrite (alter_lookup_Some _ m2 ty m3 Hm2).
      rewrite byHost_insert, lookup_insert_eq. simpl.
      destruct (decide (size (delete id m3) = 0)) as [Hs|Hs].
      * apply size_zero_empty in Hs. rewrite Hs.
        rewrite (alter_lookup_Some _ _ h _ (lookup_insert_eq _ _ _)).
        rewrite insert_insert_eq, delete_insert_eq, byHost_insert.
        rewrite (prune_empty m2).
        destruct (decide (size (delete ty m2) = 0)) as [Hs2|Hs2].
        -- apply size_zero_empty in Hs2. rewrite Hs2.
           by rewrite prune_empty, delete_insert_eq, bool_decide_eq_true_2.
        -- rewrite size_zero_empty in Hs2.
           by rewrite prune_nonempty, bool_decide_eq_false_2.
      * rewrite size_zero_empty in Hs.
        rewrite (prune_nonempty m2) by done.
        rewrite byHost_insert.
        rewrite decide_False
          by (rewrite size_zero_empty; apply insert_non_empty).
        rewrite prune_nonempty by apply insert_non_empty.
        by rewrite bool_decide_eq_false_2 by apply insert_non_empty.
    + rewrite (alter_lookup_None _ m2 ty Hm2).
      rewrite (insert_id pl h m2 Hpl).
      rewrite (byHost_Some _ _ _ Hpl), Hm2. simpl.
      destruct (decide (size (∅ : gmap string nat) = 0)) as [_|Hn];
        [|destruct Hn; apply map_size_empty].
      rewrite (alter_lookup_Some _ pl h m2 Hpl).
      rewrite (delete_id m2 ty Hm2), (insert_id pl h m2 Hpl).
      rewrite (byHost_Some _ _ _ Hpl), delete_empty.
      rewrite (prune_absent m2 ty Hm2).
      destruct (decide (size m2 = 0)) as [Hs|Hs].
      * apply size_zero_empty in Hs. rewrite Hs.
        by rewrite prune_empty, bool_decide_eq_true_2.
      * rewrite size_zero_empty in Hs.
        rewrite prune_nonempty by done.
        rewrite (insert_id pl h m2 Hpl).
        by rewrite bool_decide_eq_false_2.
  - rewrite (byHost_None _ _ Hpl).
    rewrite (alter_lookup_None _ pl h Hpl).
    rewrite (byHost_None _ _ Hpl), lookup_empty. simpl.
    destruct (decide (size (∅ : gmap string nat) = 0)) as [_|Hn];
      [|destruct Hn; apply map_size_empty].
    rewrite (alter_lookup_None _ pl h Hpl), (byHost_None _ _ Hpl).
    destruct (decide (size (∅ : gmap TaskType (gmap string nat)) = 0))
      as [_|Hn]; [|destruct Hn; apply map_size_empty].
    rewrite delete_empty.
    rewrite (prune_absent (∅ : gmap TaskType (gmap string nat)) ty)
      by apply lookup_empty.
    by rewrite prune_empty, bool_decide_eq_true_2.
Qed.

Lemma clearPlacement_unplaced tr p :
  Hostname (task (heap tr p)) = ""%string →
  clearPlacement (Alloc := Alloc) tr p = (tr, []).
Proof. intros He. unfold clearPlacement. by rewrite decide_True. Qed.

(** [clearPlacement] touches nothing but the placements index. *)
Lemma clearPlacement_frame tr p :
  let tr' := (clearPlacement (Alloc := Alloc) tr p).1 in
  heap tr' = heap tr ∧ next tr' = next tr ∧ tasks tr' = tasks tr.
Proof.
  destruct (decide (Hostname (task (heap tr p)) = ""%string)) as [He|Hne].
  - by rewrite clearPlacement_unplaced.
  - by rewrite clearPlacement_cleared.
Qed.

Lemma clearPlacement_lookup3 tr p h ty id :
  lookup3 (placements (clearPlacement (Alloc := Alloc) tr p).1) h ty id
  = let t := task (heap tr p) in
    if decide (Hostname t ≠ ""%string
               ∧ h = Hostname t ∧ ty = Type_ t ∧ id = Id t)
    then None else lookup3 (placements tr) h ty id.
Proof.
  simpl. destruct (decide (Hostname (task (heap tr p)) = ""%string)) as [He|Hne].
  - rewrite clearPlacement_unplaced by done.
    by rewrite decide_False by (intros (? & _); done).
  - rewrite clearPlacement_cleared by done.
    cbn [fst placements set_placements]. rewrite cleared_lookup3.
    destruct (decide (h = Hostname (task (heap tr p)) ∧ ty = Type_ (task (heap tr p))
                      ∧ id = Id (task (heap tr p)))) as [Ha|Ha].
    + by rewrite decide_True.
    + by rewrite decide_False by (intros (_ & ?); done).
Qed.

Lemma clearPlacement_wf tr p :
  wf_placements (placements tr) →
  wf_placements (placements (clearPlacement (Alloc := Alloc) tr p).1).
Proof.
  intros Hwf.
  destruct (decide (Hostname (task (heap tr p)) = ""%string)) as [He|Hne].
  - by rewrite clearPlacement_unplaced.
  - rewrite clearPlacement_cleared by done.
    cbn [fst placements set_placements]. by apply cleared_wf.
Qed.

(** The calls of [clearPlacement]: one [MarkHostDrained] for the task's
    host when that host is left empty, nothing otherwise. *)
Lemma clearPlacement_calls tr p :
  wf_placements (placements tr) →
  let h := Hostname (task (heap tr p)) in
  let '(tr', calls) := clearPlacement (Alloc := Alloc) tr p in
  h ≠ ""%string →
  (host_empty (placements tr') h ∧ calls = [MarkHostDrained h])
  ∨ (¬ host_empty (placements tr') h ∧ calls = []).
Proof.
  intros Hwf h.
  destruct (decide (h = ""%string)) as [He|Hne].
  { destruct (clearPlacement tr p). by intros ?. }
  rewrite clearPlacement_cleared by done. fold h. intros _.
  pose proof (cleared_drained_iff (placements tr) h
                (Type_ (task (heap tr p))) (Id (task (heap tr p))) Hwf) as Hd.
  destruct (cleared (placements tr) h _ _) as [pl' d].
  cbn [fst snd placements set_placements] in *.
  destruct d.
  - left. split; [by apply Hd|done].
  - right. split; [|done]. intros He. by apply Hd in He.
Qed.

(** [setPlacement] on a tracked task: clear the old placement, record the
    new hostname in the shared object, file the object under the new
    host. *)
Lemma setPlacement_placed tr t hostname p :
  tasks tr !! t = Some p →
  setPlacement (Alloc := Alloc) tr t hostname
  = (mkTracker (<[p := set_Hostname hostname (heap tr p)]> (heap tr))
               (next tr) (tasks tr)
               (placed (placements (clearPlacement (Alloc := Alloc) tr p).1)
                       hostname (Type_ (task (heap tr p))) t p),
     (clearPlacement (Alloc := Alloc) tr p).2).
Proof.
  intros Ht. unfold setPlacement. rewrite Ht.
  destruct (clearPlacement_frame tr p) as (Hh & Hn & Hts).
  destruct (clearPlacement tr p) as [tr1 calls]. simpl in Hh, Hn, Hts.
  cbn [fst snd]. unfold set_placements, set_heap.
  cbn [heap next tasks placements].
  rewrite fn_lookup_insert. cbn [set_Hostname task Type_].
  rewrite insertion_placed. by rewrite Hh, Hn, Hts.
Qed.

Lemma setPlacement_untracked tr t hostname :
  tasks tr !! t = None → setPlacement (Alloc := Alloc) tr t hostname = (tr, []).
Proof. intros Ht. unfold setPlacement. by rewrite Ht. Qed.

Lemma setPlacement_wf tr t hostname :
  wf_placements (placements tr) →
  wf_placements (placements (setPlacement (Alloc := Alloc) tr t hostname).1).
Proof.
  intros Hwf. destruct (tasks tr !! t) as [p|] eqn:Ht.
  - rewrite (setPlacement_placed _ _ _ p Ht). cbn [fst placements].
    by apply placed_wf, clearPlacement_wf.
  - by rewrite setPlacement_untracked.
Qed.

Lemma deleteTask_wf tr t :
  wf_placements (placements tr) →
  wf_placements (placements (deleteTask (Alloc := Alloc) tr t).1).
Proof.
  intros Hwf. unfold deleteTask. destruct (tasks tr !! t) as [p|] eqn:Ht.
  - pose proof (clearPlacement_wf tr p Hwf).
    by destruct (clearPlacement tr p).
  - done.
Qed.

(** ** The two indexes stay consistent *)

(** Clearing the placement of the object a task id maps to leaves no entry
    for that id anywhere in the placements index. *)
Lemma clearPlacement_removes_id tr id p :
  consistent tr → tasks tr !! id = Some p →
  ∀ h ty, lookup3 (placements (clearPlacement (Alloc := Alloc) tr p).1) h ty id
          = None.
Proof.
  intros Hc Ht h ty. rewrite clearPlacement_lookup3. cbn zeta.
  case_decide as Hd; [done|].
  destruct (lookup3 (placements tr) h ty id) as [q|] eqn:Hl; [|done].
  destruct (c_pl tr Hc _ _ _ _ Hl) as (Hne & Hq & Hh & Hty).
  assert (q = p) as -> by congruence.
  destruct (c_id tr Hc _ _ Ht) as [Hid _].
  destruct Hd. rewrite Hh. done.
Qed.

Lemma clearPlacement_consistent tr p :
  consistent tr → consistent (clearPlacement (Alloc := Alloc) tr p).1.
Proof.
  intros Hc. destruct (clearPlacement_frame tr p) as (Hh & Hn & Hts).
  split.
  - intros id q. rewrite Hh, Hn, Hts. apply (c_id tr Hc).
  - intros h ty id q. rewrite clearPlacement_lookup3, Hh, Hts. cbn zeta.
    case_decide; [done|]. apply (c_pl tr Hc).
Qed.

Lemma setPlacement_consistent tr t hostname :
  hostname ≠ ""%string → consistent tr →
  consistent (setPlacement (Alloc := Alloc) tr t hostname).1.
Proof.
  intros Hne Hc. destruct (tasks tr !! t) as [p|] eqn:Ht.
  2:{ by rewrite setPlacement_untracked. }
  rewrite (setPlacement_placed _ _ _ p Ht). cbn [fst].
  pose proof (clearPlacement_removes_id tr t p Hc Ht) as Hgone.
  pose proof (clearPlacement_consistent tr p Hc) as Hc1.
  destruct (clearPlacement_frame tr p) as (Hh & Hn & Hts).
  destruct (c_id tr Hc _ _ Ht) as [Hid Hlt].
  split; cbn [heap next tasks placements].
  - intros id q Hq. destruct (c_id tr Hc _ _ Hq) as [Hidq Hltq].
    split; [|done]. destruct (decide (q = p)) as [->|Hqp].
    + by rewrite fn_lookup_insert.
    + by rewrite fn_lookup_insert_ne.
  - intros h ty id q. rewrite placed_lookup3. case_decide as Hd.
    + destruct Hd as (-> & -> & ->). rewrite Hgone. simpl.
      intros [= <-]. rewrite fn_lookup_insert. done.
    + intros Hl. destruct (c_pl _ Hc1 _ _ _ _ Hl) as (Hne' & Hq & Hhq & Htq).
      rewrite Hts in Hq. rewrite Hh in Hhq, Htq.
      assert (q ≠ p) as Hqp.
      { intros ->. assert (id = t) as ->.
        { destruct (c_id tr Hc _ _ Hq) as [Hid' _]. congruence. }
        by rewrite Hgone in Hl. }
      by rewrite fn_lookup_insert_ne.
Qed.

Lemma deleteTask_consistent tr t :
  consistent tr → consistent (deleteTask (Alloc := Alloc) tr t).1.
Proof.
  intros Hc. unfold deleteTask. destruct (tasks tr !! t) as [p|] eqn:Ht.
  - pose proof (clearPlacement_removes_id tr t p Hc Ht) as Hgone.
    pose proof (clearPlacement_consistent tr p Hc) as Hc1.
    destruct (clearPlacement_frame tr p) as (Hh & Hn & Hts).
    destruct (clearPlacement tr p) as [tr1 calls]. cbn [fst] in *.
    split; cbn [heap next tasks placements set_tasks].
    + intros id q. rewrite lookup_delete_Some. intros [_ Hq].
      by apply (c_id _ Hc1).
    + intros h ty id q Hl.
      destruct (c_pl _ Hc1 _ _ _ _ Hl) as (Hne' & Hq & Hhq & Htq).
      repeat split; try done. rewrite lookup_delete_ne; [done|].
      intros <-. by rewrite Hgone in Hl.
  - split; cbn [fst heap next tasks placements set_tasks].
    + intros id q. rewrite lookup_delete_Some. intros [_ Hq].
      by apply (c_id _ Hc).
    + intros h ty id q Hl.
      destruct (c_pl _ Hc _ _ _ _ Hl) as (Hne' & Hq & Hhq & Htq).
      repeat split; try done. rewrite lookup_delete_ne; [done|].
      intros <-. congruence.
Qed.

Lemma AddTask_consistent tr rm :
  tasks tr !! Id (task rm) = None → consistent tr →
  consistent (AddTask (Alloc := Alloc) tr (Some rm)).1.2.
Proof.
  intros Hfresh Hc. unfold AddTask.
  set (tr1 := mkTracker _ _ _ _).
  assert (consistent tr1) as Hc1.
  { split; cbn [heap next tasks placements tr1].
    - intros id q. rewrite lookup_insert_Some.
      intros [[<- <-]|[Hne Hq]].
      + rewrite fn_lookup_insert. split; [done|lia].
      + destruct (c_id tr Hc _ _ Hq) as [Hid Hlt].
        rewrite fn_lookup_insert_ne by lia. split; [done|lia].
    - intros h ty id q Hl.
      destruct (c_pl _ Hc _ _ _ _ Hl) as (Hne' & Hq & Hhq & Htq).
      destruct (c_id tr Hc _ _ Hq) as [Hid Hlt].
      rewrite fn_lookup_insert_ne by lia.
      repeat split; try done. rewrite lookup_insert_ne; [done|].
      intros Heq. congruence. }
  destruct (decide (Hostname (task rm) = ""%string)) as [He|Hne]; [done|].
  pose proof (setPlacement_consistent tr1 (Id (task rm)) _ Hne Hc1) as Hc2.
  by destruct (setPlacement tr1 _ _).
Qed.

(** ** [markItDone] by cases *)

Lemma counted_spec rm :
  counted rm = true
  ↔ currentState rm ≠ PENDING ∧ currentState rm ≠ INITIALIZED.
Proof.
  unfold counted. rewrite negb_true_iff, orb_false_iff.
  by rewrite !bool_decide_eq_false.
Qed.

Lemma markItDone_stale pool tr p stored mesosTaskID :
  TaskId (task (heap tr p)) = Some stored → stored ≠ mesosTaskID →
  markItDone GetTaskAllocation pool tr p mesosTaskID
  = (Returned (Some ErrMesosIdDiffers), tr, []).
Proof.
  intros Hs Hne. unfold markItDone. rewrite Hs.
  by rewrite bool_decide_eq_false_2.
Qed.

Lemma markItDone_failed pool tr p mesosTaskID :
  let rm := heap tr p in
  TaskId (task rm) = Some mesosTaskID →
  counted rm = true →
  pool (respool rm) (GetTaskAllocation (task rm)) = false →
  markItDone GetTaskAllocation pool tr p mesosTaskID
  = (Returned (Some ErrFailedUpdate), tr,
     [SubtractFromAllocation (respool rm) (GetTaskAllocation (task rm))]).
Proof.
  intros rm Hs Hc Hp. unfold markItDone. fold rm. rewrite Hs.
  rewrite bool_decide_eq_true_2 by done. cbn [negb].
  by rewrite Hc, Hp.
Qed.

Lemma markItDone_done pool tr p mesosTaskID :
  let rm := heap tr p in
  TaskId (task rm) = Some mesosTaskID →
  counted rm = false
  ∨ pool (respool rm) (GetTaskAllocation (task rm)) = true →
  markItDone GetTaskAllocation pool tr p mesosTaskID
  = (Returned None, (deleteTask (Alloc := Alloc) tr (Id (task rm))).1,
     (if counted rm
      then [SubtractFromAllocation (respool rm) (GetTaskAllocation (task rm))]
      else [])
     ++ [Terminate p] ++ (deleteTask tr (Id (task rm))).2).
Proof.
  intros rm Hs Hc. unfold markItDone. fold rm. rewrite Hs.
  rewrite bool_decide_eq_true_2 by done. cbn [negb].
  assert (counted rm && negb (pool (respool rm) (GetTaskAllocation (task rm)))
          = false) as ->.
  { destruct Hc as [->| ->]; [done|]. by rewrite andb_false_r. }
  by destruct (deleteTask tr (Id (task rm))).
Qed.

(** Whatever happens, [markItDone] leaves the tracker as it is or as
    [deleteTask] leaves it. *)
Lemma markItDone_tracker pool tr p mesosTaskID :
  (markItDone GetTaskAllocation pool tr p mesosTaskID).1.2 = tr
  ∨ (markItDone GetTaskAllocation pool tr p mesosTaskID).1.2
    = (deleteTask (Alloc := Alloc) tr (Id (task (heap tr p)))).1.
Proof.
  destruct (TaskId (task (heap tr p))) as [stored|] eqn:Hs.
  2:{ left. unfold markItDone. by rewrite Hs. }
  destruct (decide (stored = mesosTaskID)) as [->|Hne].
  2:{ left. by rewrite (markItDone_stale _ _ _ stored). }
  destruct (counted (heap tr p)) eqn:Hc;
    [destruct (pool (respool (heap tr p))
                 (GetTaskAllocation (task (heap tr p)))) eqn:Hp|].
  - right. rewrite markItDone_done; auto.
  - left. by rewrite markItDone_failed.
  - right. rewrite markItDone_done; auto.
Qed.

Lemma MarkItDone_tracker pool tr t mesosTaskID :
  (MarkItDone GetTaskAllocation pool tr t mesosTaskID).1.2 = tr
  ∨ ∃ p, tasks tr !! t = Some p
    ∧ (MarkItDone GetTaskAllocation pool tr t mesosTaskID).1.2
      = (deleteTask (Alloc := Alloc) tr (Id (task (heap tr p)))).1.
Proof.
  unfold MarkItDone, getTask. destruct (tasks tr !! t) as [p|] eqn:Ht.
  - destruct (markItDone_tracker pool tr p mesosTaskID) as [->| ->]; eauto.
  - by left.
Qed.

Lemma MarkItInvalid_tracker pool tr t mesosTaskID :
  (MarkItInvalid GetTaskAllocation pool tr t mesosTaskID).1.2
  = (MarkItDone GetTaskAllocation pool tr t mesosTaskID).1.2.
Proof.
  unfold MarkItInvalid, MarkItDone. destruct (getTask tr t) as [p|]; [|done].
  destruct (markItDone _ pool tr p mesosTaskID) as [[[[e|]|] tr1] calls];
    try done.
  cbn [fst snd]. by destruct (_ || _).
Qed.

(** ** Invariants of every tracker the interface can produce *)

Lemma step_wf tr tr' :
  step GetTaskAllocation tr tr' →
  wf_placements (placements tr) → wf_placements (placements tr').
Proof.
  intros Hs Hwf. destruct Hs as [tr rm _|tr t hostname _|tr t|pool tr t m
                                |pool tr t m|tr].
  - unfold AddTask. set (tr1 := mkTracker _ _ _ _).
    destruct (decide (Hostname (task rm) = ""%string)); [done|].
    pose proof (setPlacement_wf tr1 (Id (task rm)) (Hostname (task rm)) Hwf).
    by destruct (setPlacement tr1 _ _).
  - by apply setPlacement_wf.
  - by apply deleteTask_wf.
  - destruct (MarkItDone_tracker pool tr t m) as [->|(p & _ & ->)]; [done|].
    by apply deleteTask_wf.
  - rewrite MarkItInvalid_tracker.
    destruct (MarkItDone_tracker pool tr t m) as [->|(p & _ & ->)]; [done|].
    by apply deleteTask_wf.
  - intros h m2. cbn. by rewrite lookup_empty.
Qed.

Lemma step_consistent tr tr' :
  step GetTaskAllocation tr tr' → consistent tr → consistent tr'.
Proof.
  intros Hs Hc. destruct Hs as [tr rm Hf|tr t hostname Hne|tr t|pool tr t m
                               |pool tr t m|tr].
  - by apply AddTask_consistent.
  - by apply setPlacement_consistent.
  - by apply deleteTask_consistent.
  - destruct (MarkItDone_tracker pool tr t m) as [->|(p & _ & ->)]; [done|].
    by apply deleteTask_consistent.
  - rewrite MarkItInvalid_tracker.
    destruct (MarkItDone_tracker pool tr t m) as [->|(p & _ & ->)]; [done|].
    by apply deleteTask_consistent.
  - split; cbn.
    + intros id p. by rewrite lookup_empty.
    + intros h ty id p. unfold lookup3, byType, byHost.
      by rewrite lookup_empty.
Qed.

Lemma reachable_invariants tr :
  reachable GetTaskAllocation tr →
  wf_placements (placements tr) ∧ consistent tr.
Proof.
  induction 1 as [|tr tr' _ [IHw IHc] Hs].
  - split.
    + intros h m2. cbn. by rewrite lookup_empty.
    + split; cbn.
      * intros id p. by rewrite lookup_empty.
      * intros h ty id p. unfold lookup3, byType, byHost.
        by rewrite lookup_empty.
  - split; [by apply (step_wf tr)|by apply (step_consistent tr)].
Qed.

(** ** Stale updates, completed tasks, drained hosts *)

(** C2. For a task present in the tracker, [MarkItDone] with a mesos task
    id different from the stored one returns an error and changes
    nothing: the tracker (both indexes included) is the one it was called
    on, and no call is made on the state machine, the resource pool or the
    host manager. *)
Theorem MarkItDone_stale_update pool tr taskID p stored mesosTaskID :
  tasks tr !! taskID = Some p →
  TaskId (task (heap tr p)) = Some stored →
  stored ≠ mesosTaskID →
  let '(out, tr', calls) :=
    MarkItDone GetTaskAllocation pool tr taskID mesosTaskID in
  out = Returned (Some ErrMesosIdDiffers)
  ∧ tr' = tr
  ∧ tasks tr' !! taskID = Some p
  ∧ calls = [].
Proof.
  intros Ht Hs Hne. unfold MarkItDone, getTask. rewrite Ht.
  by rewrite (markItDone_stale pool tr p stored mesosTaskID Hs Hne).
Qed.

Lemma deleteTask_tracked tr taskID p :
  tasks tr !! taskID = Some p →
  deleteTask (Alloc := Alloc) tr taskID
  = (set_tasks (delete taskID (tasks tr))
               (clearPlacement (Alloc := Alloc) tr p).1,
     (clearPlacement tr p).2).
Proof.
  intros Ht. unfold deleteTask. rewrite Ht.
  destruct (clearPlacement_frame tr p) as (_ & _ & Hts).
  destruct (clearPlacement tr p) as [tr1 calls]. simpl in *. by rewrite Hts.
Qed.

Lemma drained_clearPlacement tr p :
  drained (clearPlacement (Alloc := Alloc) tr p).2
  = match (clearPlacement (Alloc := Alloc) tr p).2 with
    | [] => []
    | _ => [Hostname (task (heap tr p))]
    end.
Proof.
  destruct (decide (Hostname (task (heap tr p)) = ""%string)) as [He|Hne].
  - by rewrite clearPlacement_unplaced.
  - rewrite clearPlacement_cleared by done. cbn [snd].
    by destruct (cleared _ _ _ _).2.
Qed.

(** C3, as the code has it.  For a tracked task whose stored mesos task id
    matches, [MarkItDone] calls [SubtractFromAllocation] with the task's
    allocation on its pool exactly when the state is neither PENDING nor
    INITIALIZED.  When that call is skipped or succeeds, the state machine
    is terminated and the task is gone from the task index and from every
    host of the placements index; when it fails, [MarkItDone] returns an
    error and the tracker is unchanged. *)
Theorem MarkItDone_matching pool tr taskID p mesosTaskID :
  consistent tr →
  tasks tr !! taskID = Some p →
  TaskId (task (heap tr p)) = Some mesosTaskID →
  let rm := heap tr p in
  let sub :=
    SubtractFromAllocation (respool rm) (GetTaskAllocation (task rm)) in
  let '(out, tr', calls) :=
    MarkItDone GetTaskAllocation pool tr taskID mesosTaskID in
  (sub ∈ calls ↔ currentState rm ≠ PENDING ∧ currentState rm ≠ INITIALIZED)
  ∧ if counted rm && negb (pool (respool rm) (GetTaskAllocation (task rm)))
    then out = Returned (Some ErrFailedUpdate) ∧ tr' = tr ∧ calls = [sub]
    else out = Returned None
         ∧ calls = (if counted rm then [sub] else []) ++ [Terminate p]
                   ++ (clearPlacement tr p).2
         ∧ tasks tr' !! taskID = None
         ∧ ∀ h ty, lookup3 (placements tr') h ty taskID = None.
Proof.
  intros Hc Ht Hs rm sub. unfold MarkItDone, getTask. rewrite Ht.
  destruct (c_id tr Hc _ _ Ht) as [Hid _]. fold rm in Hid.
  pose proof (counted_spec rm) as Hspec.
  destruct (counted rm) eqn:Hcnt;
    [destruct (pool (respool rm) (GetTaskAllocation (task rm))) eqn:Hp|];
    cbn [andb negb].
  - rewrite markItDone_done by auto. fold rm sub. rewrite Hcnt, Hid.
    rewrite (deleteTask_tracked _ _ p Ht). cbn [fst snd].
    split; [split; [by intros _; apply Hspec|intros _; apply list_elem_of_here]|].
    repeat split; cbn [tasks placements set_tasks].
    + apply lookup_delete_eq.
    + by apply clearPlacement_removes_id.
  - rewrite markItDone_failed by done. fold rm sub.
    split; [split; [by intros _; apply Hspec|intros _; apply list_elem_of_here]|done].
  - rewrite markItDone_done by auto. fold rm sub. rewrite Hcnt, Hid.
    rewrite (deleteTask_tracked _ _ p Ht). cbn [fst snd].
    split.
    { split; [|by intros ?%Hspec]. intros Hin. exfalso.
      apply elem_of_cons in Hin as [Hin|Hin]; [done|].
      destruct (decide (Hostname (task (heap tr p)) = ""%string)) as [He|Hne].
      - rewrite clearPlacement_unplaced in Hin by done.
        by apply elem_of_nil in Hin.
      - rewrite clearPlacement_cleared in Hin by done. cbn [snd] in Hin.
        destruct (cleared _ _ _ _).2.
        + apply list_elem_of_singleton in Hin. done.
        + by apply elem_of_nil in Hin. }
    repeat split; cbn [tasks placements set_tasks].
    + apply lookup_delete_eq.
    + by apply clearPlacement_removes_id.
Qed.

(** C8. In a tracker whose placements index holds no empty inner map (every
    tracker the interface produces), removing the placement of a tracked
    task recorded on host [h] makes exactly one [MarkHostDrained] call,
    for [h], whenever the index is left without any task of any type under
    [h], and none when a task is left: so for [clearPlacement] itself, and
    so for [DeleteTask], a successful [MarkItDone] and [SetPlacement],
    which each run it once. *)
Theorem MarkHostDrained_once pool tr taskID p h mesosTaskID hostname :
  wf_placements (placements tr) →
  tasks tr !! taskID = Some p →
  Id (task (heap tr p)) = taskID →
  Hostname (task (heap tr p)) = h →
  h ≠ ""%string →
  (let '(tr', calls) := clearPlacement (Alloc := Alloc) tr p in
   (host_empty (placements tr') h → drained calls = [h])
   ∧ (¬ host_empty (placements tr') h → drained calls = []))
  ∧ (let '(tr', calls) := DeleteTask (Alloc := Alloc) tr taskID in
     host_empty (placements tr') h → drained calls = [h])
  ∧ (let '(out, tr', calls) :=
       MarkItDone GetTaskAllocation pool tr taskID mesosTaskID in
     out = Returned None →
     host_empty (placements tr') h → drained calls = [h])
  ∧ (let '(tr', calls) := SetPlacement (Alloc := Alloc) tr taskID hostname in
     calls = (clearPlacement (Alloc := Alloc) tr p).2
     ∧ (host_empty (placements tr') h → drained calls = [h])).
Proof.
  intros Hwf Ht Hid Hh Hne.
  pose proof (clearPlacement_calls tr p Hwf) as Hcalls.
  rewrite Hh in Hcalls. cbn zeta in Hcalls.
  assert ((host_empty (placements (clearPlacement (Alloc := Alloc) tr p).1) h →
           drained (clearPlacement (Alloc := Alloc) tr p).2 = [h])
          ∧ (¬ host_empty
                 (placements (clearPlacement (Alloc := Alloc) tr p).1) h →
             drained (clearPlacement (Alloc := Alloc) tr p).2 = []))
    as [Hclear Hkept].
  { destruct (clearPlacement tr p) as [tr1 calls]. cbn [fst snd] in *.
    destruct (Hcalls Hne) as [[He ->]|[Hn ->]]; split; done. }
  clear Hcalls. split; [|split; [|split]].
  - by destruct (clearPlacement tr p).
  - unfold DeleteTask. by rewrite (deleteTask_tracked _ _ p Ht).
  - unfold MarkItDone, getTask. rewrite Ht.
    destruct (TaskId (task (heap tr p))) as [stored|] eqn:Hs.
    2:{ unfold markItDone. rewrite Hs. by intros ?. }
    destruct (decide (stored = mesosTaskID)) as [->|Hst].
    2:{ rewrite (markItDone_stale pool tr p stored) by done. by intros ?. }
    destruct (counted (heap tr p)
              && negb (pool (respool (heap tr p))
                         (GetTaskAllocation (task (heap tr p))))) eqn:Hf.
    + apply andb_true_iff in Hf as [Hc Hp]. apply negb_true_iff in Hp.
      rewrite markItDone_failed by done. by intros ?.
    + rewrite markItDone_done.
      2:{ done. }
      2:{ apply andb_false_iff in Hf as [?|Hp]; [by left|right].
          by apply negb_false_iff in Hp. }
      rewrite Hid, (deleteTask_tracked _ _ p Ht). cbn [fst snd].
      intros _ He. cbn [placements set_tasks] in He.
      unfold drained. rewrite !omap_app.
      fold (drained (clearPlacement (Alloc := Alloc) tr p).2).
      rewrite (Hclear He). by destruct (counted (heap tr p)).
  - unfold SetPlacement. rewrite (setPlacement_placed _ _ _ p Ht).
    split; [done|].
    cbn [placements]. intros He. apply Hclear.
    intros ty id. specialize (He ty id). rewrite placed_lookup3 in He.
    by case_decide.
Qed.

End Properties.

(** ** The small tracker at work *)

Lemma trA_reachable : reachable noAlloc trA.
Proof.
  apply (reach_step noAlloc emptyTracker); [constructor|].
  by apply (step_AddTask noAlloc emptyTracker rmA).
Qed.

Lemma trAB_reachable : reachable noAlloc trAB.
Proof.
  apply (reach_step noAlloc trA); [apply trA_reachable|].
  by apply (step_AddTask noAlloc trA rmB).
Qed.

Example DeleteTask_last_on_host :
  DeleteTask (Alloc := unit) trA "job-0"
  = (mkTracker (heap trA) (next trA) ∅ ∅, [MarkHostDrained "h1"]).
Proof. by vm_compute. Qed.

Example SetPlacement_moves_task :
  let '(tr', calls) := SetPlacement (Alloc := unit) trA "job-0" "h2" in
  calls = [MarkHostDrained "h1"]
  ∧ Hostname (task (heap tr' 0)) = "h2"%string
  ∧ lookup3 (placements tr') "h2" BATCH "job-0" = Some 0
  ∧ placements tr' !! "h1"%string = None.
Proof. by vm_compute. Qed.


(** A task that arrives with a hostname is filed under that host; the
    clearing that precedes the filing finds the host without tasks and
    reports it as drained. *)
Example AddTask_recovered_task :
  (AddTask (Alloc := unit) emptyTracker (Some rmA)).2 = [MarkHostDrained "h1"]
  ∧ lookup3 (placements trA) "h1" BATCH "job-0" = Some 0.
Proof. by vm_compute. Qed.

Example DeleteTask_not_last :
  (DeleteTask (Alloc := unit) trAB "job-0").2 = []
  ∧ lookup3 (placements (DeleteTask (Alloc := unit) trAB "job-0").1)
            "h1" BATCH "job-1" = Some 1.
Proof. by vm_compute. Qed.

Example MarkItDone_last_on_host :
  let '(out, tr', calls) := MarkItDone noAlloc poolOk trA "job-0" "mesos-0" in
  out = Returned None
  ∧ calls = [SubtractFromAllocation "pool" (); Terminate 0;
             MarkHostDrained "h1"]
  ∧ tasks tr' = ∅ ∧ placements tr' = ∅.
Proof. by vm_compute. Qed.

Example MarkItDone_pending_task :
  (MarkItDone noAlloc poolOk trAB "job-1" "mesos-1").2 = [Terminate 1].
Proof. by vm_compute. Qed.

Lemma MarkItDone_stale_update_witness :
  let '(out, tr', calls) := MarkItDone noAlloc poolOk trA "job-0" "mesos-9" in
  out = Returned (Some ErrMesosIdDiffers)
  ∧ tr' = trA
  ∧ tasks tr' !! "job-0"%string = Some 0
  ∧ calls = [].
Proof.
  exact (MarkItDone_stale_update noAlloc poolOk trA "job-0" 0
           "mesos-0" "mesos-9"
           ltac:(vm_compute; reflexivity) ltac:(vm_compute; reflexivity)
           ltac:(discriminate)).
Defined.

(** C3 as stated fails: for a running task whose mesos task id matches,
    a resource pool that refuses the subtraction makes [MarkItDone] return
    an error with the task still in both indexes. *)
Lemma MarkItDone_pool_error_keeps_task :
  tasks trA !! "job-0"%string = Some 0
  ∧ TaskId (task (heap trA 0)) = Some "mesos-0"%string
  ∧ currentState (heap trA 0) = RUNNING
  ∧ let '(out, tr', calls) :=
      MarkItDone noAlloc poolErr trA "job-0" "mesos-0" in
    out = Returned (Some ErrFailedUpdate)
    ∧ tasks tr' !! "job-0"%string = Some 0
    ∧ lookup3 (placements tr') "h1" BATCH "job-0" = Some 0.
Proof. by vm_compute. Qed.

Lemma MarkItDone_matching_witness :
  let sub := SubtractFromAllocation "pool" () in
  let '(out, tr', calls) := MarkItDone noAlloc poolOk trAB "job-0" "mesos-0" in
  (sub ∈ calls ↔ RUNNING ≠ PENDING ∧ RUNNING ≠ INITIALIZED)
  ∧ out = Returned None
  ∧ calls = [sub] ++ [Terminate 0] ++ (clearPlacement trAB 0).2
  ∧ tasks tr' !! "job-0"%string = None
  ∧ ∀ h ty, lookup3 (placements tr') h ty "job-0" = None.
Proof.
  exact (MarkItDone_matching noAlloc poolOk trAB "job-0" 0 "mesos-0"
           (proj2 (reachable_invariants noAlloc trAB trAB_reachable))
           ltac:(vm_compute; reflexivity) ltac:(vm_compute; reflexivity)).
Defined.

Lemma MarkHostDrained_once_witness :
  (let '(tr', calls) := clearPlacement (Alloc := unit) trA 0 in
   (host_empty (placements tr') "h1" → drained calls = ["h1"%string])
   ∧ (¬ host_empty (placements tr') "h1" → drained calls = []))
  ∧ (let '(tr', calls) := DeleteTask (Alloc := unit) trA "job-0" in
     host_empty (placements tr') "h1" → drained calls = ["h1"%string])
  ∧ (let '(out, tr', calls) :=
       MarkItDone noAlloc poolOk trA "job-0" "mesos-0" in
     out = Returned None →
     host_empty (placements tr') "h1" → drained calls = ["h1"%string])
  ∧ (let '(tr', calls) := SetPlacement (Alloc := unit) trA "job-0" "h2" in
     calls = (clearPlacement (Alloc := unit) trA 0).2
     ∧ (host_empty (placements tr') "h1" → drained calls = ["h1"%string])).
Proof.
  exact (MarkHostDrained_once noAlloc poolOk trA "job-0" 0 "h1" "mesos-0" "h2"
           (proj1 (reachable_invariants noAlloc trA trA_reachable))
           ltac:(vm_compute; reflexivity) ltac:(vm_compute; reflexivity)
           ltac:(vm_compute; reflexivity) ltac:(discriminate)).
Defined.


(* --------------------------------------------------------------------- *)
(** ** The placements index against the task index *)

Section Index.

Context {Alloc : Type} (GetTaskAllocation : Task → Alloc).
Implicit Types (tr : tracker) (p : loc).

(** Every tracked task that records a host is filed under that host and
    its type. *)
Definition complete tr : Prop :=
  ∀ id p, tasks tr !! id = Some p →
    Hostname (task (heap tr p)) ≠ ""%string →
    lookup3 (placements tr) (Hostname (task (heap tr p)))
            (Type_ (task (heap tr p))) id = Some p.

(** The index after [setPlacement] on a tracked task: the task sits under
    the new host and its type and nowhere else, every other entry is the
    one it was. *)
Lemma setPlacement_lookup3 tr t hostname p h ty id :
  consistent tr → tasks tr !! t = Some p →
  lookup3 (placements (setPlacement (Alloc := Alloc) tr t hostname).1) h ty id
  = if decide (id = t)
    then (if decide (h = hostname ∧ ty = Type_ (task (heap tr p)))
          then Some p else None)
    else lookup3 (placements tr) h ty id.
Proof.
  intros Hc Ht. rewrite (setPlacement_placed _ _ _ p Ht).
  cbn [fst placements]. rewrite placed_lookup3.
  pose proof (clearPlacement_removes_id (Alloc := Alloc) tr t p Hc Ht) as Hgone.
  destruct (c_id tr Hc _ _ Ht) as [Hid _].
  destruct (decide (id = t)) as [->|Hne].
  - case_decide as Hd.
    + destruct Hd as (-> & -> & _). rewrite Hgone. simpl.
      by rewrite decide_True.
    + rewrite Hgone. rewrite decide_False; [done|].
      intros [-> ->]. by destruct Hd.
  - rewrite decide_False by (intros (_ & _ & ?); done).
    rewrite clearPlacement_lookup3. cbn zeta.
    rewrite decide_False; [done|]. intros (_ & _ & _ & ->). by destruct Hne.
Qed.

(** The index after [deleteTask]: no entry is left for the task, every
    other entry is the one it was. *)
Lemma deleteTask_lookup3 tr t h ty id :
  consistent tr →
  lookup3 (placements (deleteTask (Alloc := Alloc) tr t).1) h ty id
  = if decide (id = t) then None else lookup3 (placements tr) h ty id.
Proof.
  intros Hc. unfold deleteTask. destruct (tasks tr !! t) as [p|] eqn:Ht.
  - pose proof (clearPlacement_removes_id (Alloc := Alloc) tr t p Hc Ht h ty) as Hgone.
    pose proof (clearPlacement_lookup3 (Alloc := Alloc) tr p h ty id) as Hl.
    destruct (c_id tr Hc _ _ Ht) as [Hid _].
    destruct (clearPlacement tr p) as [tr1 calls].
    cbn [fst placements set_tasks] in *.
    destruct (decide (id = t)) as [->|Hne]; [done|].
    rewrite Hl. rewrite decide_False; [done|].
    intros (_ & _ & _ & ->). by destruct Hne.
  - cbn [fst placements set_tasks].
    destruct (decide (id = t)) as [->|Hne]; [|done].
    destruct (lookup3 (placements tr) h ty t) as [q|] eqn:Hl; [|done].
    destruct (c_pl tr Hc _ _ _ _ Hl) as (_ & Hq & _). congruence.
Qed.

Lemma setPlacement_complete tr t hostname :
  consistent tr →
  (∀ id q, id ≠ t → tasks tr !! id = Some q →
     Hostname (task (heap tr q)) ≠ ""%string →
     lookup3 (placements tr) (Hostname (task (heap tr q)))
             (Type_ (task (heap tr q))) id = Some q) →
  complete (setPlacement (Alloc := Alloc) tr t hostname).1.
Proof.
  intros Hc Hrest. destruct (tasks tr !! t) as [p|] eqn:Ht.
  2:{ rewrite setPlacement_untracked by done. cbn [fst]. intros id q Hq.
      apply Hrest; [|done]. intros ->. congruence. }
  intros id q Hq Hne.
  rewrite (setPlacement_lookup3 _ _ _ p) by done.
  rewrite (setPlacement_placed _ _ _ p Ht) in Hq, Hne |- *.
  cbn [fst heap tasks] in *.
  destruct (decide (id = t)) as [->|Hid].
  - assert (q = p) as -> by congruence.
    rewrite fn_lookup_insert in Hne |- *. cbn [set_Hostname task Hostname Type_].
    by rewrite decide_True.
  - assert (q ≠ p) as Hqp.
    { intros ->. destruct (c_id tr Hc _ _ Hq) as [H1 _].
      destruct (c_id tr Hc _ _ Ht) as [H2 _]. congruence. }
    rewrite fn_lookup_insert_ne in Hne |- * by done. by apply Hrest.
Qed.

Lemma deleteTask_complete tr t :
  consistent tr → complete tr →
  complete (deleteTask (Alloc := Alloc) tr t).1.
Proof.
  intros Hc Hk id q Hq Hne. rewrite deleteTask_lookup3 by done.
  assert (heap (deleteTask (Alloc := Alloc) tr t).1 = heap tr
          ∧ tasks (deleteTask (Alloc := Alloc) tr t).1 = delete t (tasks tr))
    as [Hh Hts].
  { unfold deleteTask. destruct (tasks tr !! t) as [p|]; [|done].
    destruct (clearPlacement_frame (Alloc := Alloc) tr p) as (Hh1 & _ & Ht1).
    destruct (clearPlacement tr p) as [tr1 calls].
    cbn [fst heap tasks set_tasks] in *. by rewrite Ht1. }
  rewrite Hh in Hne |- *. rewrite Hts in Hq.
  apply lookup_delete_Some in Hq as [Hid Hq].
  rewrite decide_False by done. by apply Hk.
Qed.

Lemma AddTask_complete tr rm :
  tasks tr !! Id (task rm) = None → consistent tr → complete tr →
  complete (AddTask (Alloc := Alloc) tr (Some rm)).1.2.
Proof.
  intros Hfresh Hc Hk. unfold AddTask.
  set (tr1 := mkTracker _ _ _ _).
  assert (∀ id q, id ≠ Id (task rm) → tasks tr1 !! id = Some q →
            Hostname (task (heap tr1 q)) ≠ ""%string →
            lookup3 (placements tr1) (Hostname (task (heap tr1 q)))
                    (Type_ (task (heap tr1 q))) id = Some q) as Hrest.
  { intros id q Hid. cbn [tr1 heap tasks placements].
    rewrite lookup_insert_ne by done. intros Hq.
    destruct (c_id tr Hc _ _ Hq) as [_ Hlt].
    rewrite fn_lookup_insert_ne by lia. by apply Hk. }
  destruct (decide (Hostname (task rm) = ""%string)) as [He|Hne].
  - cbn [fst snd]. intros id q Hq Hn.
    destruct (decide (id = Id (task rm))) as [->|Hid]; [|by apply Hrest].
    cbn [tr1 heap tasks] in Hq, Hn. rewrite lookup_insert_eq in Hq.
    injection Hq as <-. by rewrite fn_lookup_insert in Hn.
  - assert (consistent tr1) as Hc1.
    { pose proof (AddTask_consistent (Alloc := Alloc)
                    tr (mkRMTask (mkTask (Id (task rm)) "" (Type_ (task rm))
                                         (TaskId (task rm)))
                                 (currentState rm) (respool rm)) Hfresh Hc)
        as Hx.
      unfold AddTask in Hx. cbn [task Id Hostname] in Hx.
      rewrite decide_True in Hx by done. cbn [fst snd] in Hx.
      destruct Hx as [Hx1 Hx2]. split.
      - intros id q Hq. cbn [tr1 heap next tasks] in *.
        destruct (Hx1 id q Hq) as [Hi Hl]. split; [|done].
        destruct (decide (q = next tr)) as [->|Hq'].
        + rewrite fn_lookup_insert in Hi |- *. done.
        + by rewrite fn_lookup_insert_ne in Hi |- * by done.
      - intros h ty id q Hl. cbn [tr1 heap next tasks placements] in *.
        destruct (Hx2 h ty id q Hl) as (H1 & H2 & H3 & H4).
        destruct (c_pl tr Hc _ _ _ _ Hl) as (_ & Hq & _).
        destruct (c_id tr Hc _ _ Hq) as [_ Hlt].
        rewrite fn_lookup_insert_ne in H3, H4 |- * by lia. done. }
    pose proof (setPlacement_complete tr1 (Id (task rm)) (Hostname (task rm))
                  Hc1 Hrest) as Hk2.
    by destruct (setPlacement tr1 _ _).
Qed.

Lemma step_complete tr tr' :
  step GetTaskAllocation tr tr' → consistent tr → complete tr → complete tr'.
Proof.
  intros Hs Hc Hk. destruct Hs as [tr rm Hf|tr t hostname Hne|tr t|pool tr t m
                                  |pool tr t m|tr].
  - by apply AddTask_complete.
  - apply setPlacement_complete; [done|]. intros id q _. apply Hk.
  - by apply deleteTask_complete.
  - destruct (MarkItDone_tracker GetTaskAllocation pool tr t m)
      as [->|(p & _ & ->)]; [done|].
    by apply deleteTask_complete.
  - rewrite MarkItInvalid_tracker.
    destruct (MarkItDone_tracker GetTaskAllocation pool tr t m)
      as [->|(p & _ & ->)]; [done|].
    by apply deleteTask_complete.
  - intros id p. cbn. by rewrite lookup_empty.
Qed.

Lemma reachable_complete tr :
  reachable GetTaskAllocation tr → complete tr.
Proof.
  induction 1 as [|tr tr' Hr IH Hs].
  - intros id p. cbn. by rewrite lookup_empty.
  - apply (step_complete tr); [done| |done].
    by apply (reachable_invariants GetTaskAllocation).
Qed.

(** The two invariants together: the placements index holds exactly the
    tracked tasks that record a host. *)
Lemma reachable_index tr h ty id p :
  reachable GetTaskAllocation tr →
  lookup3 (placements tr) h ty id = Some p
  ↔ h ≠ ""%string ∧ tasks tr !! id = Some p
    ∧ Hostname (task (heap tr p)) = h ∧ Type_ (task (heap tr p)) = ty.
Proof.
  intros Hr.
  destruct (reachable_invariants GetTaskAllocation tr Hr) as [_ Hc].
  split; [apply (c_pl tr Hc)|].
  intros (Hne & Ht & <- & <-).
  by apply (reachable_complete tr Hr).
Qed.

End Index.

Section IndexTheorems.

Context {Alloc : Type} (GetTaskAllocation : Task → Alloc).
Implicit Types (tr : tracker) (p : loc).

(** X1. In every tracker the interface can produce, the placements index
    holds exactly the tracked tasks that record a host: an entry under
    host [h], type [ty] and task id [id] is the object the task index
    holds for [id], and that object records host [h] and type [ty]; and
    every tracked object that records a host has its entry. *)
Theorem placements_index_exact tr :
  reachable GetTaskAllocation tr →
  ∀ h ty id p,
    lookup3 (placements tr) h ty id = Some p
    ↔ h ≠ ""%string ∧ tasks tr !! id = Some p
      ∧ Hostname (task (heap tr p)) = h ∧ Type_ (task (heap tr p)) = ty.
Proof.
  intros Hr h ty id p. by apply (reachable_index GetTaskAllocation).
Qed.

(** X2. In every tracker the interface can produce, a host name is a key
    of the placements index exactly when some tracked task records that
    host: the index keeps no entry for a host without tasks. *)
Theorem placements_hosts_exact tr h :
  reachable GetTaskAllocation tr →
  h ≠ ""%string →
  is_Some (placements tr !! h)
  ↔ ∃ id p, tasks tr !! id = Some p ∧ Hostname (task (heap tr p)) = h.
Proof.
  intros Hr Hne.
  destruct (reachable_invariants GetTaskAllocation tr Hr) as [Hwf Hc].
  split.
  - intros [m2 Hm2]. destruct (Hwf h m2 Hm2) as [Hn2 Hin].
    apply map_choose in Hn2 as (ty & m3 & Hty).
    apply Hin in Hty as Hn3. apply map_choose in Hn3 as (id & p & Hid).
    assert (lookup3 (placements tr) h ty id = Some p) as Hl.
    { unfold lookup3, byType. by rewrite (byHost_Some _ _ _ Hm2), Hty. }
    destruct (c_pl tr Hc _ _ _ _ Hl) as (_ & Ht & Hh & _). eauto.
  - intros (id & p & Ht & <-).
    pose proof (reachable_complete GetTaskAllocation tr Hr id p Ht Hne) as Hl.
    destruct (placements tr !! Hostname (task (heap tr p))) as [m2|] eqn:Hm2;
      [eauto|].
    unfold lookup3, byType in Hl. rewrite (byHost_None _ _ Hm2) in Hl.
    by rewrite lookup_empty in Hl.
Qed.

(** X3. [DeleteTask] forgets the task and nothing else: afterwards the
    task id is in neither index, every other task id maps to the object
    it mapped to and keeps its entries, no object is changed, and
    [GetSize] has dropped by one exactly when the task was tracked. *)
Theorem DeleteTask_forgets tr t :
  reachable GetTaskAllocation tr →
  let tr' := (DeleteTask (Alloc := Alloc) tr t).1 in
  getTask tr' t = None
  ∧ (∀ h ty, lookup3 (placements tr') h ty t = None)
  ∧ (∀ t', t' ≠ t →
       getTask tr' t' = getTask tr t'
       ∧ ∀ h ty, lookup3 (placements tr') h ty t'
                 = lookup3 (placements tr) h ty t')
  ∧ heap tr' = heap tr
  ∧ GetSize tr'
    = match getTask tr t with
      | Some _ => pred (GetSize tr) | None => GetSize tr
      end.
Proof.
  intros Hr tr'.
  destruct (reachable_invariants GetTaskAllocation tr Hr) as [_ Hc].
  assert (heap tr' = heap tr ∧ tasks tr' = delete t (tasks tr)) as [Hh Hts].
  { unfold tr', DeleteTask, deleteTask. destruct (tasks tr !! t) as [p|]; [|done].
    destruct (clearPlacement_frame (Alloc := Alloc) tr p) as (Hh1 & _ & Ht1).
    destruct (clearPlacement tr p) as [tr1 calls].
    cbn [fst heap tasks set_tasks] in *. by rewrite Ht1. }
  unfold getTask, GetSize. rewrite Hts. repeat split.
  - apply lookup_delete_eq.
  - intros h ty. unfold tr', DeleteTask. rewrite deleteTask_lookup3 by done.
    by rewrite decide_True.
  - by apply lookup_delete_ne.
  - intros h ty. unfold tr', DeleteTask. rewrite deleteTask_lookup3 by done.
    by rewrite decide_False.
  - done.
  - rewrite map_size_delete. by destruct (tasks tr !! t).
Qed.

(** X4. Deleting a task twice is deleting it once: the second
    [DeleteTask] returns the tracker it was given and calls nothing. *)
Theorem DeleteTask_twice tr t :
  DeleteTask (Alloc := Alloc) (DeleteTask (Alloc := Alloc) tr t).1 t
  = ((DeleteTask (Alloc := Alloc) tr t).1, []).
Proof.
  assert (tasks (DeleteTask (Alloc := Alloc) tr t).1 !! t = None) as Hgone.
  { unfold DeleteTask, deleteTask.
    destruct (match tasks tr !! t with
              | Some rmTask => clearPlacement tr rmTask
              | None => (tr, [])
              end) as [tr1 calls].
    cbn [fst tasks set_tasks]. apply lookup_delete_eq. }
  destruct (DeleteTask tr t).1 as [hp nx ts pl] eqn:Htr.
  unfold DeleteTask at 1, deleteTask. rewrite Hgone.
  unfold set_tasks. cbn [heap next tasks placements] in *.
  by rewrite delete_id.
Qed.

(** X5. [AddTask] of a task whose id is not tracked yet returns no error
    and allocates one object for it: the id maps to that object, the
    object is the created task, [GetSize] grows by one, and every other
    id maps to the object it mapped to, which is unchanged. *)
Theorem AddTask_tracks tr rm :
  reachable GetTaskAllocation tr →
  tasks tr !! Id (task rm) = None →
  let '(out, tr', calls) := AddTask (Alloc := Alloc) tr (Some rm) in
  out = Returned None
  ∧ getTask tr' (Id (task rm)) = Some (next tr)
  ∧ heap tr' (next tr) = rm
  ∧ GetSize tr' = S (GetSize tr)
  ∧ ∀ t' q, getTask tr t' = Some q →
            getTask tr' t' = Some q ∧ heap tr' q = heap tr q.
Proof.
  intros Hr Hfresh.
  destruct (reachable_invariants GetTaskAllocation tr Hr) as [_ Hc].
  unfold AddTask. set (tr1 := mkTracker _ _ _ _).
  assert (tasks tr1 !! Id (task rm) = Some (next tr)) as Ht1.
  { apply lookup_insert_eq. }
  assert (set_Hostname (Hostname (task rm)) rm = rm) as Hsame.
  { by destruct rm as [[] ? ?]. }
  assert (let tr2 := (if decide (Hostname (task rm) = ""%string)
                      then (tr1, [])
                      else setPlacement (Alloc := Alloc) tr1 (Id (task rm))
                                        (Hostname (task rm))).1 in
          tasks tr2 = tasks tr1 ∧ ∀ q, heap tr2 q = heap tr1 q) as Hframe.
  { destruct (decide (Hostname (task rm) = ""%string)); [done|].
    rewrite (setPlacement_placed _ _ _ _ Ht1). cbn [fst heap tasks].
    split; [done|]. intros q. cbn [tr1 heap].
    rewrite fn_lookup_insert, Hsame.
    destruct (decide (q = next tr)) as [->|Hq].
    - by rewrite !fn_lookup_insert.
    - by rewrite fn_lookup_insert_ne by done. }
  destruct (if decide (Hostname (task rm) = ""%string) then (tr1, [])
            else setPlacement (Alloc := Alloc) tr1 (Id (task rm))
                              (Hostname (task rm))) as [tr2 calls].
  cbn [fst] in Hframe. destruct Hframe as [Hts Hh].
  unfold getTask, GetSize. rewrite Hts, !Hh. cbn [tr1 heap tasks].
  split; [done|]. split; [apply lookup_insert_eq|].
  split; [apply fn_lookup_insert|].
  split; [by apply map_size_insert_None|].
  intros t' q Hq. rewrite Hh. cbn [heap]. split.
  - rewrite lookup_insert_ne; [done|]. intros <-. congruence.
  - destruct (c_id tr Hc _ _ Hq) as [_ Hlt].
    apply fn_lookup_insert_ne. lia.
Qed.

(** X6. [SetPlacement] of a tracked task on a host moves the task and
    nothing else: the shared object records the new hostname, the task
    index is untouched, the task is filed under the new host and its type
    and under no other host or type, and the entries of every other task
    are the ones they were. *)
Theorem SetPlacement_moves tr t hostname p :
  reachable GetTaskAllocation tr →
  tasks tr !! t = Some p →
  let tr' := (SetPlacement (Alloc := Alloc) tr t hostname).1 in
  tasks tr' = tasks tr
  ∧ heap tr' p = set_Hostname hostname (heap tr p)
  ∧ (∀ q, q ≠ p → heap tr' q = heap tr q)
  ∧ ∀ h ty id,
      lookup3 (placements tr') h ty id
      = if decide (id = t)
        then (if decide (h = hostname ∧ ty = Type_ (task (heap tr p)))
              then Some p else None)
        else lookup3 (placements tr) h ty id.
Proof.
  intros Hr Ht tr'.
  destruct (reachable_invariants GetTaskAllocation tr Hr) as [_ Hc].
  split; [|split; [|split]].
  - unfold tr', SetPlacement. by rewrite (setPlacement_placed _ _ _ p Ht).
  - unfold tr', SetPlacement. rewrite (setPlacement_placed _ _ _ p Ht).
    cbn [fst heap]. apply fn_lookup_insert.
  - intros q Hq. unfold tr', SetPlacement.
    rewrite (setPlacement_placed _ _ _ p Ht). cbn [fst heap].
    by apply fn_lookup_insert_ne.
  - intros h ty id. unfold tr', SetPlacement.
    by apply setPlacement_lookup3.
Qed.

(** X7. [SetPlacement] with the empty hostname files the task under the
    empty host name, where [clearPlacement] never looks: a following
    [DeleteTask] takes the task out of the task index, makes no
    [MarkHostDrained] call, and leaves the entry of the task in the
    placements index. *)
Theorem SetPlacement_empty_hostname_stays tr t p :
  reachable GetTaskAllocation tr →
  tasks tr !! t = Some p →
  let tr1 := (SetPlacement (Alloc := Alloc) tr t "").1 in
  let '(tr2, calls) := DeleteTask (Alloc := Alloc) tr1 t in
  getTask tr2 t = None
  ∧ calls = []
  ∧ lookup3 (placements tr2) "" (Type_ (task (heap tr p))) t = Some p.
Proof.
  intros Hr Ht tr1.
  destruct (reachable_invariants GetTaskAllocation tr Hr) as [_ Hc].
  assert (tasks tr1 !! t = Some p) as Ht1.
  { unfold tr1, SetPlacement. by rewrite (setPlacement_placed _ _ _ p Ht). }
  assert (Hostname (task (heap tr1 p)) = ""%string) as Hh1.
  { unfold tr1, SetPlacement. rewrite (setPlacement_placed _ _ _ p Ht).
    cbn [fst heap]. by rewrite fn_lookup_insert. }
  assert (lookup3 (placements tr1) "" (Type_ (task (heap tr p))) t = Some p)
    as Hl1.
  { unfold tr1, SetPlacement. rewrite (setPlacement_lookup3 _ _ _ p) by done.
    by rewrite !decide_True. }
  unfold DeleteTask, deleteTask. rewrite Ht1.
  rewrite (clearPlacement_unplaced _ _ Hh1).
  cbn [getTask tasks placements set_tasks]. unfold getTask.
  cbn [tasks set_tasks]. by rewrite lookup_delete_eq.
Qed.

(** X8. [AddTask] with the id of a task that is tracked already and
    placed on another host replaces the object in the task index and
    leaves the old object filed in the placements index: the index then
    answers for that id with an object the task index no longer holds. *)
Theorem AddTask_tracked_id_keeps_old_entry tr rm p :
  reachable GetTaskAllocation tr →
  tasks tr !! Id (task rm) = Some p →
  Hostname (task (heap tr p)) ≠ ""%string →
  Hostname (task rm) ≠ Hostname (task (heap tr p)) →
  let tr' := (AddTask (Alloc := Alloc) tr (Some rm)).1.2 in
  getTask tr' (Id (task rm)) = Some (next tr)
  ∧ next tr ≠ p
  ∧ lookup3 (placements tr') (Hostname (task (heap tr p)))
            (Type_ (task (heap tr p))) (Id (task rm)) = Some p.
Proof.
  intros Hr Ht Hne Hdiff tr'.
  destruct (reachable_invariants GetTaskAllocation tr Hr) as [_ Hc].
  pose proof (reachable_complete GetTaskAllocation tr Hr _ _ Ht Hne) as Hl.
  destruct (c_id tr Hc _ _ Ht) as [_ Hlt].
  unfold tr', AddTask. set (tr1 := mkTracker _ _ _ _).
  assert (tasks tr1 !! Id (task rm) = Some (next tr)) as Ht1.
  { apply lookup_insert_eq. }
  split; [|split; [lia|]].
  - destruct (decide (Hostname (task rm) = ""%string)); [done|].
    unfold getTask. by rewrite (setPlacement_placed _ _ _ _ Ht1).
  - destruct (decide (Hostname (task rm) = ""%string)) as [He|Hn]; [done|].
    cbn [fst snd]. rewrite (setPlacement_placed _ _ _ _ Ht1).
    cbn [fst snd placements]. rewrite placed_lookup3.
    rewrite decide_False by (intros (? & _); congruence).
    rewrite clearPlacement_lookup3. cbn zeta. cbn [tr1 heap placements].
    rewrite fn_lookup_insert.
    rewrite decide_False by (intros (_ & ? & _); congruence). done.
Qed.

(** The calls of [deleteTask] are [MarkHostDrained] calls. *)
Lemma deleteTask_calls tr t :
  Forall (λ c, ∃ h, c = MarkHostDrained h)
         (deleteTask (Alloc := Alloc) tr t).2.
Proof.
  unfold deleteTask. destruct (tasks tr !! t) as [p|]; [|by constructor].
  unfold clearPlacement.
  repeat case_decide; cbn [snd]; repeat constructor; eauto.
Qed.

(** X9. [MarkItInvalid] tells the resource pool that a task is invalid
    only after [markItDone] succeeded on it, only for the task it was
    called on, and never for a task whose resources it subtracted from
    the pool; when it returns no error, the pool is told exactly when the
    task was still PENDING or INITIALIZED. *)
Theorem MarkItInvalid_calls pool tr tID mesosTaskID :
  let '(out, tr', calls) :=
    MarkItInvalid GetTaskAllocation pool tr tID mesosTaskID in
  (∀ r id, AddInvalidTask r id ∈ calls →
     out = Returned None ∧ id = tID
     ∧ ∀ r' a, SubtractFromAllocation r' a ∉ calls)
  ∧ (out = Returned None →
     ∃ p, getTask tr tID = Some p
          ∧ (AddInvalidTask (respool (heap tr p)) tID ∈ calls
             ↔ currentState (heap tr p) = PENDING
               ∨ currentState (heap tr p) = INITIALIZED)).
Proof.
  unfold MarkItInvalid. destruct (getTask tr tID) as [p|] eqn:Hp.
  2:{ split; [|done]. intros r id Hin. by apply elem_of_nil in Hin. }
  unfold markItDone.
  destruct (TaskId (task (heap tr p))) as [stored|].
  2:{ split; [|done]. intros r id Hin. by apply elem_of_nil in Hin. }
  destruct (negb (bool_decide (stored = mesosTaskID))).
  { split; [|done]. intros r id Hin. by apply elem_of_nil in Hin. }
  pose proof (deleteTask_calls tr (Id (task (heap tr p)))) as Hdel.
  assert (heap (deleteTask (Alloc := Alloc) tr (Id (task (heap tr p)))).1
          = heap tr) as Hheap.
  { unfold deleteTask. destruct (tasks tr !! _) as [q|]; [|done].
    destruct (clearPlacement_frame (Alloc := Alloc) tr q) as (Hh1 & _ & _).
    by destruct (clearPlacement tr q). }
  unfold counted.
  destruct (bool_decide (currentState (heap tr p) = PENDING)
            || bool_decide (currentState (heap tr p) = INITIALIZED))
    eqn:Hst; cbn [negb andb].
  - destruct (deleteTask tr (Id (task (heap tr p)))) as [tr1 calls].
    cbn [fst snd] in *. rewrite Hheap, Hst. split.
    + intros r id Hin. split; [done|].
      rewrite list.Forall_forall in Hdel. cbn [app] in Hin |- *.
      apply elem_of_cons in Hin as [Hx|Hx]; [done|].
      apply elem_of_app in Hx as [Hx|Hx].
      { apply Hdel in Hx as [h Hx]. done. }
      apply list_elem_of_singleton in Hx. injection Hx as -> ->.
      split; [done|]. intros r' a Hy.
      apply elem_of_cons in Hy as [Hy|Hy]; [done|].
      apply elem_of_app in Hy as [Hy|Hy].
      { apply Hdel in Hy as [h Hy]. done. }
      by apply list_elem_of_singleton in Hy.
    + intros _. exists p. split; [done|].
      apply orb_true_iff in Hst. rewrite !bool_decide_eq_true in Hst.
      split; [done|]. intros _. cbn [app].
      apply list_elem_of_further, elem_of_app. right. apply list_elem_of_here.
  - destruct (pool (respool (heap tr p))
                   (GetTaskAllocation (task (heap tr p)))); cbn [negb].
    2:{ split; [|done]. intros r id.
        rewrite list_elem_of_singleton. done. }
    destruct (deleteTask tr (Id (task (heap tr p)))) as [tr1 calls].
    cbn [fst snd] in *. rewrite Hheap, Hst.
    assert (∀ r id,
              AddInvalidTask r id
              ∉ [SubtractFromAllocation (respool (heap tr p))
                   (GetTaskAllocation (task (heap tr p)))]
                ++ [Terminate p] ++ calls) as Hno.
    { intros r id Hx. rewrite list.Forall_forall in Hdel. cbn [app] in Hx.
      apply elem_of_cons in Hx as [Hx|Hx]; [done|].
      apply elem_of_cons in Hx as [Hx|Hx]; [done|].
      apply Hdel in Hx as [h Hx]. done. }
    split.
    + intros r id Hin. by apply Hno in Hin.
    + intros _. exists p. split; [done|].
      apply orb_false_iff in Hst. rewrite !bool_decide_eq_false in Hst.
      split; [intros Hin; by apply Hno in Hin|tauto].
Qed.

(** What [SetPlacementHost] keeps and what it establishes. *)
Lemma SetPlacementHost_reachable tr ids hostname :
  hostname ≠ ""%string →
  reachable GetTaskAllocation tr →
  reachable GetTaskAllocation
    (SetPlacementHost (Alloc := Alloc) tr ids hostname).1.
Proof.
  intros Hne. revert tr. induction ids as [|t ids IH]; intros tr Hr; [done|].
  cbn [SetPlacementHost].
  pose proof (reach_step GetTaskAllocation tr _ Hr
                (step_SetPlacement GetTaskAllocation tr t hostname Hne))
    as Hr1.
  unfold SetPlacement in Hr1.
  destruct (setPlacement tr t hostname) as [tr1 c1]. cbn [fst] in Hr1.
  specialize (IH tr1 Hr1).
  by destruct (SetPlacementHost tr1 ids hostname) as [tr2 c2].
Qed.

Lemma SetPlacementHost_frame tr ids hostname :
  hostname ≠ ""%string →
  reachable GetTaskAllocation tr →
  let tr' := (SetPlacementHost (Alloc := Alloc) tr ids hostname).1 in
  tasks tr' = tasks tr
  ∧ ∀ t p, tasks tr !! t = Some p →
      Type_ (task (heap tr' p)) = Type_ (task (heap tr p))
      ∧ (Hostname (task (heap tr p)) = hostname →
         Hostname (task (heap tr' p)) = hostname).
Proof.
  intros Hne. revert tr. induction ids as [|t ids IH]; intros tr Hr; [done|].
  cbn [SetPlacementHost].
  pose proof (reach_step GetTaskAllocation tr _ Hr
                (step_SetPlacement GetTaskAllocation tr t hostname Hne))
    as Hr1.
  assert (tasks (setPlacement (Alloc := Alloc) tr t hostname).1 = tasks tr
          ∧ ∀ q, Type_ (task (heap (setPlacement (Alloc := Alloc) tr t
                                      hostname).1 q))
                 = Type_ (task (heap tr q))
                 ∧ (Hostname (task (heap tr q)) = hostname →
                    Hostname (task (heap (setPlacement (Alloc := Alloc) tr t
                                            hostname).1 q)) = hostname))
    as [Hts Hobj].
  { destruct (tasks tr !! t) as [p|] eqn:Ht.
    - rewrite (setPlacement_placed _ _ _ p Ht). cbn [fst tasks heap].
      split; [done|]. intros q. destruct (decide (q = p)) as [->|Hq].
      + by rewrite fn_lookup_insert.
      + by rewrite fn_lookup_insert_ne by done.
    - by rewrite setPlacement_untracked. }
  unfold SetPlacement in Hr1.
  destruct (setPlacement tr t hostname) as [tr1 c1]. cbn [fst] in *.
  specialize (IH tr1 Hr1).
  destruct (SetPlacementHost tr1 ids hostname) as [tr2 c2]. cbn [fst] in *.
  destruct IH as [IHts IHobj]. split; [congruence|].
  intros t' p Hp. rewrite <- Hts in Hp.
  destruct (IHobj t' p Hp) as [IH1 IH2]. destruct (Hobj p) as [H1 H2].
  split; [congruence|auto].
Qed.

(** X10. [SetPlacementHost] places every tracked task of the placement
    on the host: afterwards the object of each such task records the
    hostname and is filed under it, and the task index is the one it
    was.  Task ids the tracker does not hold are passed over. *)
Theorem SetPlacementHost_places_all tr ids hostname :
  reachable GetTaskAllocation tr →
  hostname ≠ ""%string →
  let tr' := (SetPlacementHost (Alloc := Alloc) tr ids hostname).1 in
  tasks tr' = tasks tr
  ∧ ∀ t p, t ∈ ids → tasks tr !! t = Some p →
      Hostname (task (heap tr' p)) = hostname
      ∧ lookup3 (placements tr') hostname (Type_ (task (heap tr p))) t
        = Some p.
Proof.
  intros Hr Hne tr'.
  pose proof (SetPlacementHost_reachable tr ids hostname Hne Hr) as Hr'.
  destruct (SetPlacementHost_frame tr ids hostname Hne Hr) as [Hts Hty].
  fold tr' in Hr', Hts, Hty. split; [done|].
  intros t p Hin Hp.
  assert (Hostname (task (heap tr' p)) = hostname) as Hh.
  { clear Hr' Hts Hty. unfold tr'. clear tr'. revert tr Hr Hp.
    induction ids as [|t0 ids IH]; intros tr Hr Hp.
    { by apply elem_of_nil in Hin. }
    cbn [SetPlacementHost].
    pose proof (reach_step GetTaskAllocation tr _ Hr
                  (step_SetPlacement GetTaskAllocation tr t0 hostname Hne))
      as Hr1.
    assert (tasks (setPlacement (Alloc := Alloc) tr t0 hostname).1 !! t
            = Some p) as Hp1.
    { destruct (tasks tr !! t0) as [p0|] eqn:Ht0.
      - by rewrite (setPlacement_placed _ _ _ p0 Ht0).
      - by rewrite setPlacement_untracked. }
    apply elem_of_cons in Hin as [->|Hin].
    - assert (Hostname (task (heap (setPlacement (Alloc := Alloc) tr t0
                                      hostname).1 p)) = hostname) as Hnow.
      { rewrite (setPlacement_placed _ _ _ p Hp). cbn [fst heap].
        by rewrite fn_lookup_insert. }
      destruct (SetPlacementHost_frame _ ids hostname Hne Hr1) as [_ Hk].
      unfold SetPlacement in *.
      destruct (setPlacement tr t0 hostname) as [tr1 c1]. cbn [fst] in *.
      destruct (SetPlacementHost tr1 ids hostname) as [tr2 c2].
      cbn [fst] in *. by apply (Hk t0 p Hp1).
    - unfold SetPlacement in *.
      destruct (setPlacement tr t0 hostname) as [tr1 c1]. cbn [fst] in *.
      specialize (IH Hin tr1 Hr1 Hp1).
      by destruct (SetPlacementHost tr1 ids hostname) as [tr2 c2]. }
  split; [done|].
  destruct (Hty t p Hp) as [<- _].
  pose proof (reachable_complete GetTaskAllocation tr' Hr' t p) as Hk.
  rewrite Hh in Hk. apply Hk; [congruence|done].
Qed.


End IndexTheorems.

(* --------------------------------------------------------------------- *)
(** ** The queries: [TasksByHosts] and [GetActiveTasks] *)

(** [result[key]] as Go reads it: the nil slice for a missing key. *)
Definition slice (result : gmap string (list loc)) (key : string)
  : list loc :=
  default [] (result !! key).

(** No key of the result maps to an empty slice. *)
Definition noEmptySlice (result : gmap string (list loc)) : Prop :=
  ∀ k l, result !! k = Some l → l ≠ [].

Lemma slice_nil_iff result k :
  noEmptySlice result → slice result k = [] ↔ result !! k = None.
Proof.
  intros Hn. unfold slice. destruct (result !! k) as [l|] eqn:Hk; simpl.
  - split; [|done]. intros ->. by destruct (Hn k [] Hk).
  - done.
Qed.

Lemma appendTask_slice key result p k :
  slice (appendTask key result p) k
  = if decide (k = key) then slice result key ++ [p] else slice result k.
Proof.
  unfold slice, appendTask. case_decide as Hk.
  - subst k. by rewrite lookup_insert_eq.
  - by rewrite lookup_insert_ne.
Qed.

Lemma appendTask_noEmptySlice key result p :
  noEmptySlice result → noEmptySlice (appendTask key result p).
Proof.
  intros Hn k l. unfold appendTask. rewrite lookup_insert_Some.
  intros [[_ <-]|[_ Hk]]; [|by apply (Hn k)].
  by destruct (default [] (result !! key)).
Qed.

Lemma appendAll_spec key ps result :
  noEmptySlice result →
  noEmptySlice (foldl (appendTask key) result ps)
  ∧ ∀ k, slice (foldl (appendTask key) result ps) k
         = if decide (k = key) then slice result key ++ ps
           else slice result k.
Proof.
  revert result. induction ps as [|p ps IH]; intros result Hn.
  - split; [done|]. intros k. simpl. case_decide; [|done].
    subst k. by rewrite app_nil_r.
  - cbn [foldl].
    destruct (IH _ (appendTask_noEmptySlice key result p Hn)) as [IH1 IH2].
    split; [done|]. intros k. rewrite IH2, !appendTask_slice.
    case_decide; [|done]. rewrite decide_True by done.
    by rewrite <- app_assoc.
Qed.

Section QueryTheorems.

Context {Alloc : Type} (GetTaskAllocation : Task → Alloc).
Context (typeOrder : list TaskType)
        (rangeOrder : gmap string loc → list (string * loc))
        (GetJobId : Task → string).
Implicit Types (tr : tracker) (p : loc).

(** The tasks one turn of the loop over the hosts appends for host [h]. *)
Definition tasksOn tr (h : string) (taskType : TaskType) : list loc :=
  typesOf typeOrder taskType
    ≫= λ tType, (rangeOrder (byType (placements tr) h tType)).*2.

Lemma hostTurn_spec tr h taskType result :
  foldl (λ result tType,
           foldl (λ result kv, appendTask h result kv.2) result
                 (rangeOrder (byType (placements tr) h tType)))
        result (typesOf typeOrder taskType)
  = foldl (appendTask h) result (tasksOn tr h taskType).
Proof.
  unfold tasksOn. generalize (typesOf typeOrder taskType). intros types.
  revert result. induction types as [|tType types IH]; intros result; [done|].
  cbn [foldl]. rewrite bind_cons, foldl_app, IH. f_equal.
  by rewrite foldl_fmap.
Qed.

Lemma TasksByHosts_from tr hosts taskType result :
  noEmptySlice result →
  let result' :=
    foldl (λ result hostname,
             foldl (λ result tType,
                      foldl (λ result kv, appendTask hostname result kv.2)
                            result
                            (rangeOrder
                               (byType (placements tr) hostname tType)))
                   result (typesOf typeOrder taskType))
          result hosts in
  noEmptySlice result'
  ∧ ∀ k, slice result' k
         = slice result k
           ++ (filter (λ h, h = k) hosts ≫= λ _, tasksOn tr k taskType).
Proof.
  revert result. induction hosts as [|h hosts IH]; intros result Hn.
  - split; [done|]. intros k. simpl. by rewrite app_nil_r.
  - cbn [foldl]. rewrite hostTurn_spec.
    destruct (appendAll_spec h (tasksOn tr h taskType) result Hn)
      as [Hn1 Hs1].
    destruct (IH _ Hn1) as [IH1 IH2]. split; [done|].
    intros k. rewrite IH2, Hs1. rewrite filter_cons.
    destruct (decide (h = k)) as [->|Hk].
    + rewrite decide_True by done. by rewrite bind_cons, app_assoc.
    + by rewrite decide_False by done.
Qed.

Lemma TasksByHosts_slice tr hosts taskType :
  noEmptySlice (TasksByHosts typeOrder rangeOrder tr hosts taskType)
  ∧ ∀ k, slice (TasksByHosts typeOrder rangeOrder tr hosts taskType) k
         = filter (λ h, h = k) hosts ≫= λ _, tasksOn tr k taskType.
Proof.
  assert (noEmptySlice ∅) as Hn.
  { intros k l. by rewrite lookup_empty. }
  destruct (TasksByHosts_from tr hosts taskType ∅ Hn) as [H1 H2].
  split; [done|]. intros k. unfold TasksByHosts. rewrite H2.
  unfold slice at 1. by rewrite lookup_empty.
Qed.

Lemma elem_of_repeated {A B} (k : A) (hosts : list A) (l : list B) x
  `{EqDecision A} :
  x ∈ (filter (λ h, h = k) hosts ≫= λ _, l) ↔ k ∈ hosts ∧ x ∈ l.
Proof.
  rewrite list_elem_of_bind. split.
  - intros (h & Hx & Hh). apply list_elem_of_filter in Hh as [-> Hh]. done.
  - intros [Hk Hx]. exists k. split; [done|].
    by apply list_elem_of_filter.
Qed.

Lemma length_repeated {A B} (hosts : list A) (l : list B) :
  length (hosts ≫= λ _, l) = length hosts * length l.
Proof.
  induction hosts as [|h hosts IH]; [done|].
  rewrite bind_cons, length_app, IH. simpl. lia.
Qed.

Lemma elem_of_typesOf tType taskType :
  typeOrder ≡ₚ allTypes →
  tType ∈ typesOf typeOrder taskType ↔ taskType = UNKNOWN ∨ tType = taskType.
Proof.
  intros Hperm. unfold typesOf. case_decide as Hu.
  - rewrite Hperm. split; [auto|]. intros _. unfold allTypes.
    rewrite !elem_of_cons. destruct tType; auto 10.
  - rewrite list_elem_of_singleton. split; [auto|]. by intros [|].
Qed.

Lemma elem_of_tasksOn tr h taskType p :
  (∀ m, rangeOrder m ≡ₚ map_to_list m) →
  typeOrder ≡ₚ allTypes →
  p ∈ tasksOn tr h taskType
  ↔ ∃ tType id, (taskType = UNKNOWN ∨ tType = taskType)
                ∧ lookup3 (placements tr) h tType id = Some p.
Proof.
  intros Hrange Hperm. unfold tasksOn. rewrite list_elem_of_bind. split.
  - intros (tType & Hp & Hty). apply elem_of_typesOf in Hty; [|done].
    apply list_elem_of_fmap in Hp as ([id q] & -> & Hin).
    rewrite (Hrange _) in Hin. apply elem_of_map_to_list in Hin. eauto.
  - intros (tType & id & Hty & Hl). exists tType.
    split; [|by apply elem_of_typesOf].
    apply list_elem_of_fmap. exists (id, p). split; [done|].
    rewrite (Hrange _). by apply elem_of_map_to_list.
Qed.

(** X11. For every tracker the interface can produce, [TasksByHosts]
    returns under a host exactly the tracked tasks that record this host
    and have the requested type, any type when the requested one is
    UNKNOWN; hosts that were not asked for get nothing. *)
Theorem TasksByHosts_exact tr hosts taskType h p :
  reachable GetTaskAllocation tr →
  (∀ m, rangeOrder m ≡ₚ map_to_list m) →
  typeOrder ≡ₚ allTypes →
  p ∈ default [] (TasksByHosts typeOrder rangeOrder tr hosts taskType !! h)
  ↔ h ∈ hosts ∧ h ≠ ""%string
    ∧ ∃ id, tasks tr !! id = Some p
            ∧ Hostname (task (heap tr p)) = h
            ∧ (taskType = UNKNOWN ∨ Type_ (task (heap tr p)) = taskType).
Proof.
  intros Hr Hrange Hperm.
  destruct (TasksByHosts_slice tr hosts taskType) as [_ Hs].
  fold (slice (TasksByHosts typeOrder rangeOrder tr hosts taskType) h).
  rewrite Hs, elem_of_repeated, elem_of_tasksOn by done.
  split.
  - intros (Hh & tType & id & Hty & Hl).
    apply (reachable_index GetTaskAllocation tr _ _ _ _ Hr) in Hl
      as (Hne & Ht & Hhost & Htype).
    split; [done|]. split; [done|]. exists id.
    split; [done|]. split; [done|]. destruct Hty as [?|?]; [by left|].
    right. congruence.
  - intros (Hh & Hne & id & Ht & Hhost & Hty). split; [done|].
    exists (Type_ (task (heap tr p))), id. split.
    + destruct Hty as [?|?]; [by left|by right].
    + by apply (reachable_index GetTaskAllocation tr _ _ _ _ Hr).
Qed.

(** X12. The shape of the result of [TasksByHosts]: a host is a key of
    the result only when it was asked for and has a task of a requested
    type, so no key maps to an empty list; and a host asked for several
    times gets its tasks as many times. *)
Theorem TasksByHosts_shape tr hosts taskType h :
  (∀ m, rangeOrder m ≡ₚ map_to_list m) →
  typeOrder ≡ₚ allTypes →
  let result := TasksByHosts typeOrder rangeOrder tr hosts taskType in
  (result !! h = None
   ↔ h ∉ hosts
     ∨ ∀ tType id, taskType = UNKNOWN ∨ tType = taskType →
                   lookup3 (placements tr) h tType id = None)
  ∧ (taskType ≠ UNKNOWN →
     length (default [] (result !! h))
     = length (filter (λ x, x = h) hosts)
       * size (byType (placements tr) h taskType)).
Proof.
  intros Hrange Hperm result.
  destruct (TasksByHosts_slice tr hosts taskType) as [Hn Hs].
  fold result in Hn, Hs. split.
  - rewrite <- (slice_nil_iff result h Hn). rewrite Hs. split.
    + intros Hnil. destruct (decide (h ∈ hosts)) as [Hh|Hh]; [|by left].
      right. intros tType id Hty.
      destruct (lookup3 (placements tr) h tType id) as [p|] eqn:Hl; [|done].
      assert (p ∈ (filter (λ x, x = h) hosts
                     ≫= λ _, tasksOn tr h taskType)) as Hin.
      { apply elem_of_repeated. split; [done|].
        apply elem_of_tasksOn; eauto. }
      rewrite Hnil in Hin. by apply elem_of_nil in Hin.
    + intros Hcase.
      destruct (filter (λ x, x = h) hosts ≫= λ _, tasksOn tr h taskType)
        as [|p l] eqn:Hl; [done|].
      assert (p ∈ (filter (λ x, x = h) hosts
                     ≫= λ _, tasksOn tr h taskType)) as Hin.
      { rewrite Hl. apply list_elem_of_here. }
      apply elem_of_repeated in Hin as [Hh Hp].
      apply elem_of_tasksOn in Hp as (tType & id & Hty & Hp); [|done..].
      destruct Hcase as [Hno|Hno]; [done|].
      rewrite (Hno tType id Hty) in Hp. done.
  - intros Hty. fold (slice result h). rewrite Hs, length_repeated.
    f_equal. unfold tasksOn, typesOf. rewrite decide_False by done.
    rewrite bind_singleton, length_fmap, (Hrange _).
    apply length_map_to_list.
Qed.

(** The guard of a turn of [GetActiveTasks]: the task passes the three
    filters. *)
Definition selected tr (jobID respoolID : string) (states : list string)
  (t : loc) : Prop :=
  (jobID = ""%string ∨ GetJobId (task (heap tr t)) = jobID)
  ∧ (respoolID = ""%string ∨ respool (heap tr t) = respoolID)
  ∧ (states = [] ∨ TaskState_name (currentState (heap tr t)) ∈ states).

Lemma activeTurn_cases tr jobID respoolID states taskStates t :
  (selected tr jobID respoolID states t
   ∧ activeTurn GetJobId tr jobID respoolID states taskStates t
     = appendTask (TaskState_name (currentState (heap tr t))) taskStates t)
  ∨ (¬ selected tr jobID respoolID states t
     ∧ activeTurn GetJobId tr jobID respoolID states taskStates t
       = taskStates).
Proof.
  unfold activeTurn, selected, Contains.
  destruct states as [|s0 states]; cbn [length].
  - rewrite (bool_decide_eq_false_2 (0 < 0)) by lia.
    repeat case_bool_decide; cbn [negb andb];
      first [left; split; [intuition congruence|done]
            |right; split; [intuition congruence|done]].
  - rewrite (bool_decide_eq_true_2 (0 < S (length states))) by lia.
    repeat case_bool_decide; cbn [negb andb];
      first [left; split; [intuition congruence|done]
            |right; split; [intuition congruence|done]].
Qed.

Lemma GetActiveTasks_from tr jobID respoolID states ps result :
  noEmptySlice result →
  let result' :=
    foldl (activeTurn GetJobId tr jobID respoolID states) result ps in
  noEmptySlice result'
  ∧ ∀ s, slice result' s
         = slice result s
           ++ filter (λ t, selected tr jobID respoolID states t
                           ∧ TaskState_name (currentState (heap tr t)) = s)
                     ps.
Proof.
  revert result. induction ps as [|t ps IH]; intros result Hn.
  - split; [done|]. intros s. simpl. by rewrite app_nil_r.
  - cbn [foldl].
    destruct (activeTurn_cases tr jobID respoolID states result t)
      as [[Hsel ->]|[Hsel ->]].
    + destruct (IH _ (appendTask_noEmptySlice
                        (TaskState_name (currentState (heap tr t)))
                        result t Hn)) as [IH1 IH2].
      split; [done|]. intros s. rewrite IH2, appendTask_slice.
      rewrite filter_cons.
      destruct (decide (s = TaskState_name (currentState (heap tr t))))
        as [->|Hs].
      * rewrite decide_True by done. by rewrite <- app_assoc.
      * rewrite decide_False; [done|]. intros [_ ?]. done.
    + destruct (IH _ Hn) as [IH1 IH2]. split; [done|]. intros s.
      rewrite IH2, filter_cons. rewrite decide_False; [done|].
      intros [? _]. done.
Qed.

(** X13. [GetActiveTasks] returns, under the name of a state, exactly the
    tracked tasks in that state that pass the filters: the job id and the
    resource pool id when they are given, the list of state names when it
    is not empty.  In a tracker the interface can produce no task is
    listed twice, and a state without such a task is not a key of the
    result. *)
Theorem GetActiveTasks_exact tr jobID respoolID states s :
  reachable GetTaskAllocation tr →
  (∀ m, rangeOrder m ≡ₚ map_to_list m) →
  let result :=
    GetActiveTasks rangeOrder GetJobId tr jobID respoolID states in
  (∀ p, p ∈ default [] (result !! s)
        ↔ ∃ id, tasks tr !! id = Some p
                ∧ selected tr jobID respoolID states p
                ∧ TaskState_name (currentState (heap tr p)) = s)
  ∧ NoDup (default [] (result !! s))
  ∧ (result !! s = None
     ↔ ∀ id p, tasks tr !! id = Some p →
               selected tr jobID respoolID states p →
               TaskState_name (currentState (heap tr p)) ≠ s).
Proof.
  intros Hr Hrange result.
  destruct (reachable_invariants GetTaskAllocation tr Hr) as [_ Hc].
  assert (noEmptySlice ∅) as Hn0.
  { intros k l. by rewrite lookup_empty. }
  destruct (GetActiveTasks_from tr jobID respoolID states
              (rangeOrder (tasks tr)).*2 ∅ Hn0) as [Hn Hs].
  fold (GetActiveTasks rangeOrder GetJobId tr jobID respoolID states)
    in Hn, Hs.
  fold result in Hn, Hs. specialize (Hs s).
  unfold slice at 2 in Hs. rewrite lookup_empty in Hs. simpl in Hs.
  assert (∀ p, p ∈ (rangeOrder (tasks tr)).*2
               ↔ ∃ id, tasks tr !! id = Some p) as Hmem.
  { intros p. rewrite list_elem_of_fmap. split.
    - intros ([id q] & -> & Hin). rewrite (Hrange _) in Hin.
      apply elem_of_map_to_list in Hin. eauto.
    - intros [id Hid]. exists (id, p). split; [done|].
      rewrite (Hrange _). by apply elem_of_map_to_list. }
  assert (∀ p, p ∈ slice result s
               ↔ ∃ id, tasks tr !! id = Some p
                       ∧ selected tr jobID respoolID states p
                       ∧ TaskState_name (currentState (heap tr p)) = s)
    as Hin.
  { intros p. rewrite Hs, list_elem_of_filter, Hmem. split.
    - intros [[Hsel Hst] [id Hid]]. eauto.
    - intros (id & Hid & Hsel & Hst). eauto. }
  split; [done|]. split.
  - fold (slice result s). rewrite Hs. apply list.NoDup_filter.
    rewrite (Hrange _). apply NoDup_fmap_2_strong; [|apply NoDup_map_to_list].
    intros [id1 p1] [id2 p2] H1 H2 Heq. simpl in Heq. subst p2.
    apply elem_of_map_to_list in H1, H2.
    destruct (c_id tr Hc _ _ H1) as [<- _].
    destruct (c_id tr Hc _ _ H2) as [<- _]. done.
  - rewrite <- (slice_nil_iff result s Hn). split.
    + intros Hnil id p Hid Hsel Hst.
      assert (p ∈ slice result s) as Hp by (apply Hin; eauto).
      rewrite Hnil in Hp. by apply elem_of_nil in Hp.
    + intros Hnone. destruct (slice result s) as [|p l] eqn:Hl; [done|].
      assert (p ∈ p :: l) as Hp by apply list_elem_of_here.
      apply Hin in Hp as (id & Hid & Hsel & Hst).
      by destruct (Hnone id p Hid Hsel).
Qed.

End QueryTheorems.

(** ** The theorems on the small tracker *)

Lemma placements_index_exact_witness :
  lookup3 (placements trAB) "h1" BATCH "job-1" = Some 1
  ↔ "h1"%string ≠ ""%string ∧ tasks trAB !! "job-1"%string = Some 1
    ∧ Hostname (task (heap trAB 1)) = "h1"%string
    ∧ Type_ (task (heap trAB 1)) = BATCH.
Proof.
  exact (placements_index_exact noAlloc trAB trAB_reachable
           "h1" BATCH "job-1" 1).
Defined.

Lemma placements_hosts_exact_witness :
  is_Some (placements trAB !! "h1"%string)
  ↔ ∃ id p, tasks trAB !! id = Some p
            ∧ Hostname (task (heap trAB p)) = "h1"%string.
Proof.
  exact (placements_hosts_exact noAlloc trAB "h1" trAB_reachable
           ltac:(discriminate)).
Defined.

Lemma DeleteTask_forgets_witness :
  let tr' := (DeleteTask (Alloc := unit) trAB "job-0").1 in
  getTask tr' "job-0" = None
  ∧ (∀ h ty, lookup3 (placements tr') h ty "job-0" = None)
  ∧ (∀ t', t' ≠ "job-0"%string →
       getTask tr' t' = getTask trAB t'
       ∧ ∀ h ty, lookup3 (placements tr') h ty t'
                 = lookup3 (placements trAB) h ty t')
  ∧ heap tr' = heap trAB
  ∧ GetSize tr'
    = match getTask trAB "job-0" with
      | Some _ => pred (GetSize trAB) | None => GetSize trAB
      end.
Proof. exact (DeleteTask_forgets noAlloc trAB "job-0" trAB_reachable). Defined.

Lemma AddTask_tracks_witness :
  let '(out, tr', calls) := AddTask (Alloc := unit) trA (Some rmB) in
  out = Returned None
  ∧ getTask tr' (Id (task rmB)) = Some (next trA)
  ∧ heap tr' (next trA) = rmB
  ∧ GetSize tr' = S (GetSize trA)
  ∧ ∀ t' q, getTask trA t' = Some q →
            getTask tr' t' = Some q ∧ heap tr' q = heap trA q.
Proof.
  exact (AddTask_tracks noAlloc trA rmB trA_reachable
           ltac:(vm_compute; reflexivity)).
Defined.

Lemma SetPlacement_moves_witness :
  let tr' := (SetPlacement (Alloc := unit) trAB "job-0" "h2").1 in
  tasks tr' = tasks trAB
  ∧ heap tr' 0 = set_Hostname "h2" (heap trAB 0)
  ∧ (∀ q, q ≠ 0 → heap tr' q = heap trAB q)
  ∧ ∀ h ty id,
      lookup3 (placements tr') h ty id
      = if decide (id = "job-0"%string)
        then (if decide (h = "h2"%string ∧ ty = Type_ (task (heap trAB 0)))
              then Some 0 else None)
        else lookup3 (placements trAB) h ty id.
Proof.
  exact (SetPlacement_moves noAlloc trAB "job-0" "h2" 0 trAB_reachable
           ltac:(vm_compute; reflexivity)).
Defined.

Lemma SetPlacement_empty_hostname_stays_witness :
  let tr1 := (SetPlacement (Alloc := unit) trA "job-0" "").1 in
  let '(tr2, calls) := DeleteTask (Alloc := unit) tr1 "job-0" in
  getTask tr2 "job-0" = None
  ∧ calls = []
  ∧ lookup3 (placements tr2) "" (Type_ (task (heap trA 0))) "job-0" = Some 0.
Proof.
  exact (SetPlacement_empty_hostname_stays noAlloc trA "job-0" 0 trA_reachable
           ltac:(vm_compute; reflexivity)).
Defined.

(** The task of [rmA] created anew, for another host. *)
Definition rmA' : RMTask :=
  mkRMTask (mkTask "job-0" "h2" BATCH (Some "mesos-0-2"%string)) PENDING "pool".

Lemma AddTask_tracked_id_keeps_old_entry_witness :
  let tr' := (AddTask (Alloc := unit) trA (Some rmA')).1.2 in
  getTask tr' (Id (task rmA')) = Some (next trA)
  ∧ next trA ≠ 0
  ∧ lookup3 (placements tr') (Hostname (task (heap trA 0)))
            (Type_ (task (heap trA 0))) (Id (task rmA')) = Some 0.
Proof.
  exact (AddTask_tracked_id_keeps_old_entry noAlloc trA rmA' 0 trA_reachable
           ltac:(vm_compute; reflexivity) ltac:(vm_compute; discriminate)
           ltac:(vm_compute; discriminate)).
Defined.

Lemma SetPlacementHost_places_all_witness :
  let tr' :=
    (SetPlacementHost (Alloc := unit) trAB ["job-0"; "job-1"]%string "h2").1 in
  tasks tr' = tasks trAB
  ∧ ∀ t p, t ∈ ["job-0"; "job-1"]%string → tasks trAB !! t = Some p →
      Hostname (task (heap tr' p)) = "h2"%string
      ∧ lookup3 (placements tr') "h2" (Type_ (task (heap trAB p))) t
        = Some p.
Proof.
  exact (SetPlacementHost_places_all noAlloc trAB ["job-0"; "job-1"]%string
           "h2" trAB_reachable ltac:(discriminate)).
Defined.

Lemma TasksByHosts_exact_witness :
  1 ∈ default [] (TasksByHosts allTypes map_to_list trAB ["h1"%string] BATCH
                    !! "h1"%string)
  ↔ "h1"%string ∈ ["h1"%string] ∧ "h1"%string ≠ ""%string
    ∧ ∃ id, tasks trAB !! id = Some 1
            ∧ Hostname (task (heap trAB 1)) = "h1"%string
            ∧ (BATCH = UNKNOWN ∨ Type_ (task (heap trAB 1)) = BATCH).
Proof.
  exact (TasksByHosts_exact noAlloc allTypes map_to_list trAB ["h1"%string]
           BATCH "h1" 1 trAB_reachable (λ m, reflexivity _)
           (reflexivity _)).
Defined.

Lemma TasksByHosts_shape_witness :
  let result :=
    TasksByHosts allTypes map_to_list trAB ["h1"; "h1"]%string BATCH in
  (result !! "h1"%string = None
   ↔ "h1"%string ∉ ["h1"; "h1"]%string
     ∨ ∀ tType id, BATCH = UNKNOWN ∨ tType = BATCH →
                   lookup3 (placements trAB) "h1" tType id = None)
  ∧ (BATCH ≠ UNKNOWN →
     length (default [] (result !! "h1"%string))
     = length (filter (λ x, x = "h1"%string) ["h1"; "h1"]%string)
       * size (byType (placements trAB) "h1" BATCH)).
Proof.
  exact (TasksByHosts_shape allTypes map_to_list trAB ["h1"; "h1"]%string
           BATCH "h1" (λ m, reflexivity _) (reflexivity _)).
Defined.

Lemma GetActiveTasks_exact_witness :
  let result :=
    GetActiveTasks map_to_list (λ _, "job"%string) trAB "job" ""
                   ["PENDING"%string] in
  (∀ p, p ∈ default [] (result !! "PENDING"%string)
        ↔ ∃ id, tasks trAB !! id = Some p
                ∧ selected (λ _, "job"%string) trAB "job" ""
                           ["PENDING"%string] p
                ∧ TaskState_name (currentState (heap trAB p))
                  = "PENDING"%string)
  ∧ NoDup (default [] (result !! "PENDING"%string))
  ∧ (result !! "PENDING"%string = None
     ↔ ∀ id p, tasks trAB !! id = Some p →
               selected (λ _, "job"%string) trAB "job" ""
                        ["PENDING"%string] p →
               TaskState_name (currentState (heap trAB p))
               ≠ "PENDING"%string).
Proof.
  exact (GetActiveTasks_exact noAlloc map_to_list (λ _, "job"%string) trAB
           "job" "" ["PENDING"%string] "PENDING" trAB_reachable
           (λ m, reflexivity _)).
Defined.

(** The two queries on the tracker of two tasks. *)
Example TasksByHosts_both :
  let result :=
    TasksByHosts allTypes map_to_list trAB ["h1"; "h2"]%string UNKNOWN in
  result !! "h1"%string = Some [1; 0] ∧ result !! "h2"%string = None.
Proof. by vm_compute. Qed.

Example GetActiveTasks_pending :
  let result :=
    GetActiveTasks map_to_list (λ _, "job"%string) trAB "" "pool"
                   ["PENDING"%string] in
  result !! "PENDING"%string = Some [1] ∧ result !! "RUNNING"%string = None.
Proof. by vm_compute. Qed.

End Tracker.

(* ===================================================================== *)
(** * Job configuration validation (jobmgr/job/config/validate.go)        *)
(* ===================================================================== *)

Module JobConfig.

Local Open Scope N_scope.

(** Max retries on task failures. *)
Definition _maxTaskRetries : N := 100.

(** The messages of the generated job and task packages, restricted to
    the fields validate.go reads.  Message-typed fields are pointers in
    Go, hence options; the configuration is a tree, as it comes out of the
    protobuf decoder: no two fields share an object. *)
Record RestartPolicy := mkRestartPolicy { MaxFailures : N }.

Record PortConfig := mkPort {
  PName : string;
  PValue : N;
  PEnvName : string
}.

Record TaskConfig := mkTaskConfig {
  TRestartPolicy : option RestartPolicy;
  Ports : list PortConfig;
  Command : option string
}.

Record SlaConfig := mkSla {
  MaximumRunningInstances : N;
  MinimumRunningInstances : N
}.

Record JobConfig := mkJobConfig {
  Name : string;
  Labels : list (string * string);
  OwningTeam : string;
  RespoolID : option string;
  JType : nat;
  LdapGroups : list string;
  DefaultConfig : option TaskConfig;
  InstanceCount : N;
  InstanceConfig : gmap N TaskConfig;
  SLA : option SlaConfig
}.

Global Instance RestartPolicy_eq_dec : EqDecision RestartPolicy.
Proof. solve_decision. Defined.
Global Instance PortConfig_eq_dec : EqDecision PortConfig.
Proof. solve_decision. Defined.
Global Instance TaskConfig_eq_dec : EqDecision TaskConfig.
Proof. solve_decision. Defined.

Definition set_DefaultConfig (d : option TaskConfig) (c : JobConfig)
  : JobConfig :=
  mkJobConfig (Name c) (Labels c) (OwningTeam c) (RespoolID c) (JType c)
              (LdapGroups c) d (InstanceCount c) (InstanceConfig c) (SLA c).

Definition set_InstanceConfig (m : gmap N TaskConfig) (c : JobConfig)
  : JobConfig :=
  mkJobConfig (Name c) (Labels c) (OwningTeam c) (RespoolID c) (JType c)
              (LdapGroups c) (DefaultConfig c) (InstanceCount c) m (SLA c).

Definition set_MaxFailures (n : N) (t : TaskConfig) : TaskConfig :=
  mkTaskConfig (Some (mkRestartPolicy n)) (Ports t) (Command t).

(** The generated getters: zero value on a nil receiver. *)
Definition GetRestartPolicy (t : option TaskConfig) : option RestartPolicy :=
  t ≫= TRestartPolicy.
Definition GetMaxFailures (r : option RestartPolicy) : N :=
  from_option MaxFailures 0 r.
Definition GetPorts (t : option TaskConfig) : list PortConfig :=
  from_option Ports [] t.
Definition GetCommand (t : option TaskConfig) : option string :=
  t ≫= Command.
Definition GetMaximumRunningInstances (s : option SlaConfig) : N :=
  from_option MaximumRunningInstances 0 s.
Definition GetMinimumRunningInstances (s : option SlaConfig) : N :=
  from_option MinimumRunningInstances 0 s.

Inductive Error :=
| errPortNameMissing
| errPortEnvNameMissing
| errMaxInstancesTooBig
| errMInInstancesTooBig
| errTooManyTasks (requested supported : N)
| errMissingTaskConfig (i : N)
| errMissingCommand (i : N)
| errUpdateNotSupported (field : string)
| errInstanceCountLess
| errExistingInstanceUpdated.

Fixpoint validatePortConfig (portConfigs : list PortConfig) : option Error :=
  match portConfigs with
  | [] => None
  | port :: rest =>
      if bool_decide (String.length (PName port) = 0%nat)
      then Some errPortNameMissing
      else if bool_decide (PValue port = 0)
                && bool_decide (String.length (PEnvName port) = 0%nat)
           then Some errPortEnvNameMissing
           else validatePortConfig rest
  end.

(** The restart policy an instance runs under: its own when it has one,
    the default one otherwise. *)
Definition effectivePolicy (c : JobConfig) (i : N) : option RestartPolicy :=
  match GetRestartPolicy (InstanceConfig c !! i) with
  | Some r => Some r
  | None => GetRestartPolicy (DefaultConfig c)
  end.

(** [if restartPolicy.GetMaxFailures() > _maxTaskRetries
        { restartPolicy.MaxFailures = _maxTaskRetries }]
    when [restartPolicy] is the policy of the default config. *)
Definition clampDefault (c : JobConfig) : JobConfig :=
  match DefaultConfig c with
  | Some d =>
      match TRestartPolicy d with
      | Some r =>
          if _maxTaskRetries <? MaxFailures r
          then set_DefaultConfig (Some (set_MaxFailures _maxTaskRetries d)) c
          else c
      | None => c
      end
  | None => c
  end.

(** The same statement on the object [restartPolicy] points to in turn
    [i]: the policy of the instance config when it has one, the policy of
    the default config otherwise. *)
Definition clampPolicy (c : JobConfig) (i : N) : JobConfig :=
  match InstanceConfig c !! i with
  | Some t =>
      match TRestartPolicy t with
      | Some r =>
          if _maxTaskRetries <? MaxFailures r
          then set_InstanceConfig
                 (<[i := set_MaxFailures _maxTaskRetries t]> (InstanceConfig c))
                 c
          else c
      | None => clampDefault c
      end
  | None => clampDefault c
  end.

(** One turn of the loop of [validateTaskConfigWithRange]: the config as
    the turn leaves it and the error it returns, if any. *)
Definition validateInstance (c : JobConfig) (i : N)
  : JobConfig * option Error :=
  let taskConfig := InstanceConfig c !! i in
  let defaultConfig := DefaultConfig c in
  match taskConfig, defaultConfig with
  | None, None => (c, Some (errMissingTaskConfig i))
  | _, _ =>
      let c1 := clampPolicy c i in
      match validatePortConfig (GetPorts taskConfig) with
      | Some e => (c1, Some e)
      | None =>
          let cmd :=
            match GetCommand taskConfig with
            | Some x => Some x
            | None => GetCommand defaultConfig
            end in
          match cmd with
          | None => (c1, Some (errMissingCommand i))
          | Some _ => (c1, None)
          end
      end
  end.

(** The loop, over the instance numbers it visits in order; it stops at
    the first error. *)
Fixpoint validateInstances (c : JobConfig) (instances : list N)
  : JobConfig * option Error :=
  match instances with
  | [] => (c, None)
  | i :: rest =>
      match validateInstance c i with
      | (c1, Some e) => (c1, Some e)
      | (c1, None) => validateInstances c1 rest
      end
  end.

(** [for i := from; i < to; i++]. *)
Definition instanceRange (from to : N) : list N :=
  map N.of_nat (seq (N.to_nat from) (N.to_nat to - N.to_nat from)).

Definition validateTaskConfigWithRange (jobConfig : JobConfig)
  (maxTasksPerJob from to : N) : JobConfig * option Error :=
  match validatePortConfig (GetPorts (DefaultConfig jobConfig)) with
  | Some e => (jobConfig, Some e)
  | None =>
      if maxTasksPerJob <? InstanceCount jobConfig
      then (jobConfig,
            Some (errTooManyTasks (InstanceCount jobConfig) maxTasksPerJob))
      else
        match validateInstances jobConfig (instanceRange from to) with
        | (c1, Some e) => (c1, Some e)
        | (c1, None) =>
            let instanceCount := InstanceCount jobConfig in
            let maxRunningInstances :=
              GetMaximumRunningInstances (SLA jobConfig) in
            let minRunningInstances :=
              GetMinimumRunningInstances (SLA jobConfig) in
            if maxRunningInstances =? 0
            then if instanceCount <? minRunningInstances
                 then (c1, Some errMaxInstancesTooBig) else (c1, None)
            else if instanceCount <? maxRunningInstances
                 then (c1, Some errMaxInstancesTooBig)
                 else if maxRunningInstances <? minRunningInstances
                      then (c1, Some errMaxInstancesTooBig) else (c1, None)
      end
  end.

Definition ValidateTaskConfig (jobConfig : JobConfig) (maxTasksPerJob : N)
  : JobConfig * option Error :=
  validateTaskConfigWithRange jobConfig maxTasksPerJob 0
                              (InstanceCount jobConfig).

(** The loop of [ValidateUpdatedConfig] over the existing instances: it
    reports the first instance whose config differs and stops. *)
Fixpoint existingInstancesChanged (oldConfig newConfig : JobConfig)
  (instances : list N) : bool :=
  match instances with
  | [] => false
  | i :: rest =>
      match InstanceConfig newConfig !! i with
      | None => existingInstancesChanged oldConfig newConfig rest
      | Some _ =>
          if decide (InstanceConfig oldConfig !! i
                     = InstanceConfig newConfig !! i)
          then existingInstancesChanged oldConfig newConfig rest
          else true
      end
  end.

Definition appendIf (b : bool) (e : Error) (errs : list Error)
  : list Error :=
  if b then errs ++ [e] else errs.

(** [ValidateUpdatedConfig]: the new config as validation leaves it and
    the errors of the returned multierror.  [multierror.Append(err)] of
    the last step starts a fresh multierror, as the source has it. *)
Definition ValidateUpdatedConfig (oldConfig newConfig : JobConfig)
  (maxTasksPerJob : N) : JobConfig * list Error :=
  let errs := [] in
  let errs := appendIf (negb (bool_decide (Name oldConfig = Name newConfig)))
                       (errUpdateNotSupported "Name") errs in
  let errs := appendIf (negb (bool_decide (Labels oldConfig = Labels newConfig)))
                       (errUpdateNotSupported "Labels") errs in
  let errs := appendIf (negb (bool_decide (OwningTeam oldConfig
                                           = OwningTeam newConfig)))
                       (errUpdateNotSupported "OwningTeam") errs in
  let errs := appendIf (negb (bool_decide (default ""%string (RespoolID oldConfig)
                                           = default ""%string (RespoolID newConfig))))
                       (errUpdateNotSupported "RespoolID") errs in
  let errs := appendIf (negb (bool_decide (JType oldConfig = JType newConfig)))
                       (errUpdateNotSupported "Type") errs in
  let errs := appendIf (negb (bool_decide (LdapGroups oldConfig
                                           = LdapGroups newConfig)))
                       (errUpdateNotSupported "LdapGroups") errs in
  let errs := appendIf (negb (bool_decide (DefaultConfig oldConfig
                                           = DefaultConfig newConfig)))
                       (errUpdateNotSupported "DefaultConfig") errs in
  let errs := appendIf (InstanceCount newConfig <? InstanceCount oldConfig)
                       errInstanceCountLess errs in
  let errs := appendIf (existingInstancesChanged oldConfig newConfig
                          (instanceRange 0 (InstanceCount oldConfig)))
                       errExistingInstanceUpdated errs in
  match validateTaskConfigWithRange newConfig maxTasksPerJob
          (InstanceCount oldConfig) (InstanceCount newConfig) with
  | (c1, Some e) => (c1, [e])
  | (c1, None) => (c1, errs)
  end.

(** The error of one turn, read off the config without the clamping. *)
Definition instanceError (c : JobConfig) (i : N) : option Error :=
  (validateInstance c i).2.

(** The config with every restart policy taken out. *)
Definition dropPolicy (t : TaskConfig) : TaskConfig :=
  mkTaskConfig None (Ports t) (Command t).

Definition withoutRetries (c : JobConfig) : JobConfig :=
  set_InstanceConfig (dropPolicy <$> InstanceConfig c)
    (set_DefaultConfig (dropPolicy <$> DefaultConfig c) c).

(** ** Two job configurations *)

Definition plainTask (retries : N) (cmd : option string) : TaskConfig :=
  mkTaskConfig (Some (mkRestartPolicy retries)) [] cmd.

Definition job (d : option TaskConfig) (n : N) (m : gmap N TaskConfig)
  : JobConfig :=
  mkJobConfig "job" [] "team" None 0%nat [] d n m None.

(** Instance 0 has no command; instance 1 asks for 200 retries. *)
Definition brokenFirst : JobConfig :=
  job None 2 (<[0 := plainTask 3 None]>
                (<[1 := plainTask 200 (Some "run"%string)]> ∅)).

(** Both instances are valid; instance 1 asks for 200 retries and instance
    0 runs under the default policy, which asks for 150. *)
Definition eager : JobConfig :=
  job (Some (plainTask 150 (Some "run"%string))) 2
      (<[1 := plainTask 200 (Some "run"%string)]> ∅).

(** ** The validators on the two configurations *)

Example eager_is_clamped :
  let '(c, err) := ValidateTaskConfig eager 10 in
  err = None
  ∧ effectivePolicy c 0 = Some (mkRestartPolicy 100)
  ∧ effectivePolicy c 1 = Some (mkRestartPolicy 100)
  ∧ DefaultConfig c = Some (plainTask 100 (Some "run"%string)).
Proof. by vm_compute. Qed.

Example update_skips_existing_instances :
  let '(c, errs) := ValidateUpdatedConfig eager eager 10 in
  errs = [] ∧ c = eager.
Proof. by vm_compute. Qed.

(** ** Clamping changes nothing but [MaxFailures] *)

Lemma dropPolicy_set_MaxFailures n t :
  dropPolicy (set_MaxFailures n t) = dropPolicy t.
Proof. reflexivity. Qed.

Lemma withoutRetries_clampDefault c :
  withoutRetries (clampDefault c) = withoutRetries c.
Proof.
  unfold clampDefault.
  destruct (DefaultConfig c) as [d|] eqn:Hd; [|done].
  destruct (TRestartPolicy d) as [r|]; [|done].
  destruct (_maxTaskRetries <? MaxFailures r); [|done].
  unfold withoutRetries, set_InstanceConfig, set_DefaultConfig. simpl.
  by rewrite Hd.
Qed.

Lemma withoutRetries_clampPolicy c k :
  withoutRetries (clampPolicy c k) = withoutRetries c.
Proof.
  unfold clampPolicy.
  destruct (InstanceConfig c !! k) as [t|] eqn:Hk;
    [|apply withoutRetries_clampDefault].
  destruct (TRestartPolicy t) as [r|] eqn:Hr;
    [|apply withoutRetries_clampDefault].
  destruct (_maxTaskRetries <? MaxFailures r); [|done].
  unfold withoutRetries, set_InstanceConfig, set_DefaultConfig. simpl.
  f_equal. rewrite fmap_insert, dropPolicy_set_MaxFailures.
  apply insert_id. by rewrite lookup_fmap, Hk.
Qed.

Lemma clampPolicy_withoutRetries c k :
  clampPolicy (withoutRetries c) k = withoutRetries c.
Proof.
  unfold clampPolicy, clampDefault, withoutRetries. simpl.
  rewrite lookup_fmap.
  destruct (InstanceConfig c !! k) as [t|]; simpl;
    by destruct (DefaultConfig c).
Qed.

(** A turn of the loop is the clamping followed by checks that do not
    look at the restart policy. *)
Lemma validateInstance_split c i :
  validateInstance c i = (clampPolicy c i, instanceError c i).
Proof.
  unfold instanceError, validateInstance.
  destruct (InstanceConfig c !! i) as [t|] eqn:Hi;
    destruct (DefaultConfig c) as [d|] eqn:Hd;
    try (destruct (validatePortConfig _); [done|];
         destruct (match GetCommand _ with Some _ => _ | None => _ end);
         done).
  unfold clampPolicy, clampDefault. by rewrite Hi, Hd.
Qed.

Lemma instanceError_withoutRetries c i :
  instanceError (withoutRetries c) i = instanceError c i.
Proof.
  unfold instanceError, validateInstance, withoutRetries. simpl.
  rewrite lookup_fmap.
  destruct (InstanceConfig c !! i) as [t|];
    destruct (DefaultConfig c) as [d|]; simpl; try done;
    unfold GetPorts, GetCommand; simpl;
    repeat case_match; by simplify_eq.
Qed.

Lemma instanceError_clampPolicy c k i :
  instanceError (clampPolicy c k) i = instanceError c i.
Proof.
  rewrite <- (instanceError_withoutRetries (clampPolicy c k)).
  by rewrite withoutRetries_clampPolicy, instanceError_withoutRetries.
Qed.

(** The loop reports the error it would report without any restart
    policy, and leaves everything but [MaxFailures] as it was. *)
Lemma validateInstances_withoutRetries c l :
  (validateInstances c l).2 = (validateInstances (withoutRetries c) l).2
  ∧ withoutRetries (validateInstances c l).1 = withoutRetries c.
Proof.
  revert c. induction l as [|i l IH]; intros c; [done|].
  cbn [validateInstances]. rewrite !validateInstance_split.
  rewrite clampPolicy_withoutRetries, instanceError_withoutRetries.
  destruct (instanceError c i) as [e|].
  - split; [done|]. apply withoutRetries_clampPolicy.
  - destruct (IH (clampPolicy c i)) as [IH1 IH2].
    by rewrite IH1, IH2, withoutRetries_clampPolicy.
Qed.

(** ** What clamping does to the effective policy of an instance *)

Lemma effectivePolicy_own c i t r :
  InstanceConfig c !! i = Some t → TRestartPolicy t = Some r →
  effectivePolicy c i = Some r.
Proof. intros Hi Hr. unfold effectivePolicy. rewrite Hi. simpl. by rewrite Hr. Qed.

Lemma effectivePolicy_default c i :
  GetRestartPolicy (InstanceConfig c !! i) = None →
  effectivePolicy c i = GetRestartPolicy (DefaultConfig c).
Proof. intros Hi. unfold effectivePolicy. by rewrite Hi. Qed.

Lemma clampDefault_InstanceConfig c :
  InstanceConfig (clampDefault c) = InstanceConfig c.
Proof.
  unfold clampDefault. destruct (DefaultConfig c) as [d|]; [|done].
  destruct (TRestartPolicy d) as [r|]; [|done].
  by destruct (_maxTaskRetries <? MaxFailures r).
Qed.

Lemma clampDefault_policy c :
  GetMaxFailures (GetRestartPolicy (DefaultConfig (clampDefault c)))
  = N.min (GetMaxFailures (GetRestartPolicy (DefaultConfig c)))
          _maxTaskRetries.
Proof.
  unfold clampDefault, _maxTaskRetries.
  destruct (DefaultConfig c) as [d|] eqn:Hd; [|rewrite Hd; simpl; lia].
  destruct (TRestartPolicy d) as [r|] eqn:Hr;
    [|rewrite Hd; simpl; rewrite Hr; simpl; lia].
  destruct (N.ltb_spec 100 (MaxFailures r)); simpl.
  - rewrite Hr. simpl. lia.
  - rewrite Hd. simpl. rewrite Hr. simpl. lia.
Qed.

(** After its own turn, an instance runs under at most
    [_maxTaskRetries]. *)
Lemma clampPolicy_self c i :
  GetMaxFailures (effectivePolicy (clampPolicy c i) i)
  = N.min (GetMaxFailures (effectivePolicy c i)) _maxTaskRetries.
Proof.
  unfold clampPolicy.
  destruct (InstanceConfig c !! i) as [t|] eqn:Hi.
  - destruct (TRestartPolicy t) as [r|] eqn:Hr.
    + rewrite (effectivePolicy_own c i t r Hi Hr). unfold _maxTaskRetries.
      destruct (N.ltb_spec 100 (MaxFailures r)).
      * erewrite effectivePolicy_own;
          [|simpl; apply lookup_insert_eq|reflexivity]. simpl. lia.
      * rewrite (effectivePolicy_own c i t r Hi Hr). simpl. lia.
    + rewrite !effectivePolicy_default.
      * apply clampDefault_policy.
      * by rewrite Hi; simpl.
      * by rewrite clampDefault_InstanceConfig, Hi; simpl.
  - rewrite !effectivePolicy_default.
    + apply clampDefault_policy.
    + by rewrite Hi.
    + by rewrite clampDefault_InstanceConfig, Hi.
Qed.

Lemma clampDefault_other c i :
  GetMaxFailures (effectivePolicy (clampDefault c) i)
  = GetMaxFailures (effectivePolicy c i)
  ∨ GetMaxFailures (effectivePolicy (clampDefault c) i)
    = N.min (GetMaxFailures (effectivePolicy c i)) _maxTaskRetries.
Proof.
  destruct (GetRestartPolicy (InstanceConfig c !! i)) as [r|] eqn:Hi.
  - left. unfold effectivePolicy.
    by rewrite clampDefault_InstanceConfig, Hi.
  - right. rewrite !effectivePolicy_default.
    + apply clampDefault_policy.
    + done.
    + by rewrite clampDefault_InstanceConfig.
Qed.

(** The turn of another instance leaves the policy of instance [i] alone
    or clamps it (when both run under the default policy). *)
Lemma clampPolicy_other c k i :
  GetMaxFailures (effectivePolicy (clampPolicy c k) i)
  = GetMaxFailures (effectivePolicy c i)
  ∨ GetMaxFailures (effectivePolicy (clampPolicy c k) i)
    = N.min (GetMaxFailures (effectivePolicy c i)) _maxTaskRetries.
Proof.
  destruct (decide (k = i)) as [->|Hne]; [right; apply clampPolicy_self|].
  unfold clampPolicy.
  destruct (InstanceConfig c !! k) as [t|] eqn:Hk;
    [|apply clampDefault_other].
  destruct (TRestartPolicy t) as [r|] eqn:Hr; [|apply clampDefault_other].
  destruct (_maxTaskRetries <? MaxFailures r); [|by left].
  left. unfold effectivePolicy. simpl. by rewrite lookup_insert_ne.
Qed.

(** ** The loop *)

Lemma elem_of_instanceRange j from to :
  j ∈ instanceRange from to ↔ from <= j < to.
Proof.
  unfold instanceRange. rewrite list_elem_of_fmap. split.
  - intros (n & -> & Hn). apply elem_of_seq in Hn. lia.
  - intros Hj. exists (N.to_nat j). split; [by rewrite N2Nat.id|].
    apply elem_of_seq. lia.
Qed.

Lemma instanceRange_split from i to :
  from <= i < to →
  instanceRange from to
  = instanceRange from i ++ i :: instanceRange (N.succ i) to.
Proof.
  intros Hi. unfold instanceRange.
  replace (N.to_nat to - N.to_nat from)%nat
    with ((N.to_nat i - N.to_nat from) + S (N.to_nat to - N.to_nat (N.succ i)))%nat
    by lia.
  rewrite seq_app, map_app. f_equal.
  replace (N.to_nat from + (N.to_nat i - N.to_nat from))%nat
    with (N.to_nat i) by lia.
  cbn [seq map]. rewrite N2Nat.id. f_equal.
  replace (S (N.to_nat i)) with (N.to_nat (N.succ i)) by lia. done.
Qed.

Lemma validateInstances_keeps_clamped m i l c :
  GetMaxFailures (effectivePolicy c i) = N.min m _maxTaskRetries →
  GetMaxFailures (effectivePolicy (validateInstances c l).1 i)
  = N.min m _maxTaskRetries.
Proof.
  revert c. induction l as [|k l IH]; intros c Hc; [done|].
  cbn [validateInstances]. rewrite validateInstance_split.
  assert (GetMaxFailures (effectivePolicy (clampPolicy c k) i)
          = N.min m _maxTaskRetries) as Hk.
  { destruct (clampPolicy_other c k i) as [-> | ->]; [done|].
    rewrite Hc. unfold _maxTaskRetries. lia. }
  destruct (instanceError c k); [done|]. by apply IH.
Qed.

(** An instance the loop reaches ends up clamped. *)
Lemma validateInstances_reaches m i l1 l2 c :
  GetMaxFailures (effectivePolicy c i) = m
  ∨ GetMaxFailures (effectivePolicy c i) = N.min m _maxTaskRetries →
  (∀ j, j ∈ l1 → instanceError c j = None) →
  GetMaxFailures (effectivePolicy (validateInstances c (l1 ++ i :: l2)).1 i)
  = N.min m _maxTaskRetries.
Proof.
  revert c. induction l1 as [|k l1 IH]; intros c Hc Hok.
  - cbn [app validateInstances]. rewrite validateInstance_split.
    assert (GetMaxFailures (effectivePolicy (clampPolicy c i) i)
            = N.min m _maxTaskRetries) as Hi.
    { rewrite clampPolicy_self. unfold _maxTaskRetries in *.
      destruct Hc as [-> | ->]; lia. }
    destruct (instanceError c i); [done|].
    by apply validateInstances_keeps_clamped.
  - cbn [app validateInstances]. rewrite validateInstance_split.
    rewrite (Hok k) by apply list_elem_of_here.
    apply IH.
    + destruct (clampPolicy_other c k i) as [-> | ->]; [done|].
      right. unfold _maxTaskRetries in *. destruct Hc as [-> | ->]; lia.
    + intros j Hj. rewrite instanceError_clampPolicy.
      apply Hok. by apply list_elem_of_further.
Qed.

Lemma withoutRetries_fields c :
  GetPorts (DefaultConfig (withoutRetries c)) = GetPorts (DefaultConfig c)
  ∧ InstanceCount (withoutRetries c) = InstanceCount c
  ∧ SLA (withoutRetries c) = SLA c.
Proof. unfold withoutRetries. simpl. by destruct (DefaultConfig c). Qed.

(** Validation returns the error it would return had the configuration no
    restart policy at all, and changes nothing but [MaxFailures]. *)
Lemma validateTaskConfigWithRange_withoutRetries c maxTasksPerJob from to :
  (validateTaskConfigWithRange c maxTasksPerJob from to).2
  = (validateTaskConfigWithRange (withoutRetries c) maxTasksPerJob from to).2
  ∧ withoutRetries (validateTaskConfigWithRange c maxTasksPerJob from to).1
    = withoutRetries c.
Proof.
  unfold validateTaskConfigWithRange.
  destruct (withoutRetries_fields c) as (-> & -> & ->).
  destruct (validatePortConfig (GetPorts (DefaultConfig c))); [done|].
  destruct (maxTasksPerJob <? InstanceCount c); [done|].
  destruct (validateInstances_withoutRetries c (instanceRange from to))
    as [He Hc].
  destruct (validateInstances c (instanceRange from to)) as [c1 e1].
  destruct (validateInstances (withoutRetries c) (instanceRange from to))
    as [c2 e2].
  simpl in He, Hc. subst e2.
  destruct e1; [done|]. by repeat case_match.
Qed.

(** C10 as stated fails: validation stops at the first instance it
    rejects, so a later instance keeps more than 100 retries. *)
Lemma ValidateTaskConfig_stops_at_first_error :
  GetMaxFailures (effectivePolicy brokenFirst 1) = 200
  ∧ (ValidateTaskConfig brokenFirst 10).2 = Some (errMissingCommand 0)
  ∧ GetMaxFailures
      (effectivePolicy (ValidateTaskConfig brokenFirst 10).1 1) = 200.
Proof. by vm_compute. Qed.

(** C10, as the code has it.  [validateTaskConfigWithRange] visits the
    instances [from <= i < to] in order and stops at the first one it
    rejects.  For every instance it reaches (the checks before the loop
    pass and no earlier instance of the range is rejected), the effective
    restart policy ends with [MaxFailures = min(MaxFailures, 100)], set in
    place in the configuration; the error returned is the one the
    configuration would get without any restart policy, and nothing but
    [MaxFailures] fields is changed.  [ValidateTaskConfig] runs it on
    [0 <= i < InstanceCount], [ValidateUpdatedConfig] on the new config
    over [old.InstanceCount <= i < new.InstanceCount]. *)
Theorem validateTaskConfigWithRange_clamps c maxTasksPerJob from to i :
  validatePortConfig (GetPorts (DefaultConfig c)) = None →
  InstanceCount c <= maxTasksPerJob →
  from <= i < to →
  (∀ j, from <= j < i → instanceError c j = None) →
  (let '(c', err) := validateTaskConfigWithRange c maxTasksPerJob from to in
   GetMaxFailures (effectivePolicy c' i)
   = N.min (GetMaxFailures (effectivePolicy c i)) 100
   ∧ err = (validateTaskConfigWithRange (withoutRetries c)
              maxTasksPerJob from to).2
   ∧ withoutRetries c' = withoutRetries c)
  ∧ ValidateTaskConfig c maxTasksPerJob
    = validateTaskConfigWithRange c maxTasksPerJob 0 (InstanceCount c)
  ∧ ∀ old, (ValidateUpdatedConfig old c maxTasksPerJob).1
           = (validateTaskConfigWithRange c maxTasksPerJob
                (InstanceCount old) (InstanceCount c)).1.
Proof.
  intros Hports Hcount Hi Hreach. split; [|split; [done|]].
  - destruct (validateTaskConfigWithRange_withoutRetries c maxTasksPerJob
                from to) as [He Hc].
    assert (GetMaxFailures
              (effectivePolicy
                 (validateTaskConfigWithRange c maxTasksPerJob from to).1 i)
            = N.min (GetMaxFailures (effectivePolicy c i)) 100) as Hm.
    { unfold validateTaskConfigWithRange. rewrite Hports.
      destruct (N.ltb_spec maxTasksPerJob (InstanceCount c)); [lia|].
      rewrite (instanceRange_split from i to Hi).
      pose proof (validateInstances_reaches
                    (GetMaxFailures (effectivePolicy c i)) i
                    (instanceRange from i) (instanceRange (N.succ i) to) c
                    (or_introl eq_refl)) as Hr.
      destruct (validateInstances c _) as [c1 e1]. simpl in Hr.
      assert (GetMaxFailures (effectivePolicy c1 i)
              = N.min (GetMaxFailures (effectivePolicy c i)) 100) as Hc1.
      { apply Hr. intros j Hj. apply Hreach.
        by apply elem_of_instanceRange. }
      destruct e1; [done|]. by repeat case_match. }
    by destruct (validateTaskConfigWithRange c maxTasksPerJob from to).
  - intros old. unfold ValidateUpdatedConfig.
    by destruct (validateTaskConfigWithRange c maxTasksPerJob _ _) as [c1 [e|]].
Qed.

Lemma validateTaskConfigWithRange_clamps_witness :
  let '(c', err) := validateTaskConfigWithRange eager 10 0 2 in
  GetMaxFailures (effectivePolicy c' 1) = N.min 200 100
  ∧ err = (validateTaskConfigWithRange (withoutRetries eager) 10 0 2).2
  ∧ withoutRetries c' = withoutRetries eager.
Proof.
  refine (proj1 (validateTaskConfigWithRange_clamps eager 10 0 2 1
                   ltac:(vm_compute; reflexivity) ltac:(vm_compute; discriminate)
                   ltac:(vm_compute; split; [discriminate|reflexivity]) _)).
  intros j Hj. assert (j = 0) as -> by lia. vm_compute. reflexivity.
Defined.


(* --------------------------------------------------------------------- *)
(** ** What the validators accept *)

(** A port has a name, and a dynamic port (value 0) has an environment
    name. *)
Definition portsOk (portConfigs : list PortConfig) : Prop :=
  Forall (λ port, PName port ≠ ""%string
                  ∧ (PValue port ≠ 0 ∨ PEnvName port ≠ ""%string))
         portConfigs.

(** An instance has a task config, its own or the default one, whose own
    ports are in order, and a command, its own or the default one. *)
Definition instanceOk (c : JobConfig) (i : N) : Prop :=
  (is_Some (InstanceConfig c !! i) ∨ is_Some (DefaultConfig c))
  ∧ portsOk (GetPorts (InstanceConfig c !! i))
  ∧ (is_Some (GetCommand (InstanceConfig c !! i))
     ∨ is_Some (GetCommand (DefaultConfig c))).

(** The running-instance bounds of the SLA fit the instance count; a
    maximum of 0 stands for the instance count. *)
Definition slaOk (c : JobConfig) : Prop :=
  if GetMaximumRunningInstances (SLA c) =? 0
  then GetMinimumRunningInstances (SLA c) <= InstanceCount c
  else GetMaximumRunningInstances (SLA c) <= InstanceCount c
       ∧ GetMinimumRunningInstances (SLA c)
         <= GetMaximumRunningInstances (SLA c).

Lemma length_zero_empty (s : string) : String.length s = 0%nat ↔ s = ""%string.
Proof. by destruct s. Qed.

Lemma validatePortConfig_None_iff portConfigs :
  validatePortConfig portConfigs = None ↔ portsOk portConfigs.
Proof.
  unfold portsOk. induction portConfigs as [|port rest IH]; simpl.
  { split; [by constructor|done]. }
  rewrite list.Forall_cons. rewrite <- IH. clear IH.
  case_bool_decide as Hn.
  { apply length_zero_empty in Hn. split; [done|]. by intros [[? _] _]. }
  rewrite length_zero_empty in Hn.
  destruct (bool_decide (PValue port = 0)
            && bool_decide (String.length (PEnvName port) = 0%nat)) eqn:Hv.
  - apply andb_true_iff in Hv as [Hv He].
    apply bool_decide_eq_true in Hv, He. apply length_zero_empty in He.
    split; [done|]. intros [[_ [?|?]] _]; done.
  - apply andb_false_iff in Hv. rewrite !bool_decide_eq_false in Hv.
    rewrite length_zero_empty in Hv. tauto.
Qed.

Lemma instanceError_None_iff c i :
  instanceError c i = None ↔ instanceOk c i.
Proof.
  unfold instanceOk. rewrite <- validatePortConfig_None_iff.
  unfold instanceError, validateInstance.
  destruct (InstanceConfig c !! i) as [t|] eqn:Hi;
    destruct (DefaultConfig c) as [d|] eqn:Hd; cbn [fst snd].
  4:{ split; [done|]. intros [[[? ?]|[? ?]] _]; done. }
  all: destruct (validatePortConfig _) as [e|];
    [split; [done|]; by intros (_ & ? & _)|].
  all: destruct (match GetCommand _ with Some _ => _ | None => _ end)
    as [cmd|] eqn:Hc; cbn [snd].
  all: split; try done.
  all: try (intros _; split; [eauto|]; split; [done|];
            destruct (GetCommand _) as [x|]; [left; eauto|right; eauto]).
  all: intros (_ & _ & [[x Hx]|[x Hx]]); rewrite ?Hx in Hc; try done.
  all: by destruct (GetCommand _).
Qed.

Lemma validateInstances_None_iff c l :
  (validateInstances c l).2 = None ↔ ∀ i, i ∈ l → instanceError c i = None.
Proof.
  revert c. induction l as [|k l IH]; intros c.
  { split; [|done]. intros _ i Hi. by apply elem_of_nil in Hi. }
  cbn [validateInstances]. rewrite validateInstance_split.
  destruct (instanceError c k) as [e|] eqn:Hk; cbn [snd].
  - split; [done|]. intros Hall.
    specialize (Hall k (list_elem_of_here _ _)). congruence.
  - rewrite IH. split.
    + intros Hall i Hi. apply elem_of_cons in Hi as [->|Hi]; [done|].
      rewrite <- (instanceError_clampPolicy c k). by apply Hall.
    + intros Hall i Hi. rewrite instanceError_clampPolicy.
      apply Hall. by apply list_elem_of_further.
Qed.

Lemma slaOk_iff c (c1 : JobConfig) :
  (if GetMaximumRunningInstances (SLA c) =? 0
   then if InstanceCount c <? GetMinimumRunningInstances (SLA c)
        then (c1, Some errMaxInstancesTooBig) else (c1, None)
   else if InstanceCount c <? GetMaximumRunningInstances (SLA c)
        then (c1, Some errMaxInstancesTooBig)
        else if GetMaximumRunningInstances (SLA c)
                <? GetMinimumRunningInstances (SLA c)
             then (c1, Some errMaxInstancesTooBig) else (c1, None)).2 = None
  ↔ slaOk c.
Proof.
  unfold slaOk.
  destruct (GetMaximumRunningInstances (SLA c) =? 0).
  - destruct (N.ltb_spec (InstanceCount c)
                (GetMinimumRunningInstances (SLA c))); cbn [snd];
      split; (done || lia).
  - destruct (N.ltb_spec (InstanceCount c)
                (GetMaximumRunningInstances (SLA c))); cbn [snd];
      [split; [done|lia]|].
    destruct (N.ltb_spec (GetMaximumRunningInstances (SLA c))
                (GetMinimumRunningInstances (SLA c))); cbn [snd];
      split; (done || lia).
Qed.

Lemma validateTaskConfigWithRange_None_iff c maxTasksPerJob from to :
  (validateTaskConfigWithRange c maxTasksPerJob from to).2 = None
  ↔ portsOk (GetPorts (DefaultConfig c))
    ∧ InstanceCount c <= maxTasksPerJob
    ∧ (∀ i, from <= i < to → instanceOk c i)
    ∧ slaOk c.
Proof.
  unfold validateTaskConfigWithRange.
  rewrite <- validatePortConfig_None_iff.
  destruct (validatePortConfig (GetPorts (DefaultConfig c))) as [e|].
  { split; [done|]. by intros [? _]. }
  destruct (N.ltb_spec maxTasksPerJob (InstanceCount c)).
  { split; [done|]. intros (_ & ? & _). lia. }
  pose proof (validateInstances_None_iff c (instanceRange from to)) as Hv.
  destruct (validateInstances c (instanceRange from to)) as [c1 [e|]];
    cbn [snd] in Hv.
  - split; [done|]. intros (_ & _ & Hall & _).
    assert (Some e = None) as Hbad; [|done].
    apply Hv. intros i Hi. apply instanceError_None_iff, Hall.
    by apply elem_of_instanceRange.
  - rewrite slaOk_iff. split.
    + intros Hsla. split; [done|]. split; [done|]. split; [|done].
      intros i Hi. apply instanceError_None_iff.
      apply Hv; [done|]. by apply elem_of_instanceRange.
    + by intros (_ & _ & _ & ?).
Qed.

(** X17. [ValidateTaskConfig] returns no error exactly for a
    configuration whose default ports are in order, whose instance count
    is within [maxTasksPerJob], whose every instance below the instance
    count has a task config (its own or the default one), ports in order
    and a command (its own or the default one), and whose SLA bounds fit
    the instance count. *)
Theorem ValidateTaskConfig_accepts_iff c maxTasksPerJob :
  (ValidateTaskConfig c maxTasksPerJob).2 = None
  ↔ portsOk (GetPorts (DefaultConfig c))
    ∧ InstanceCount c <= maxTasksPerJob
    ∧ (∀ i, i < InstanceCount c → instanceOk c i)
    ∧ slaOk c.
Proof.
  unfold ValidateTaskConfig. rewrite validateTaskConfigWithRange_None_iff.
  split; intros (H1 & H2 & H3 & H4);
    (split; [done|]; split; [done|]; split; [|done]);
    intros i Hi; apply H3; lia.
Qed.

(** ** Validating twice *)

Lemma clampPolicy_id c i :
  GetMaxFailures (effectivePolicy c i) <= _maxTaskRetries →
  clampPolicy c i = c.
Proof.
  unfold clampPolicy, clampDefault, effectivePolicy, _maxTaskRetries.
  destruct (InstanceConfig c !! i) as [t|] eqn:Hi; simpl.
  - destruct (TRestartPolicy t) as [r|] eqn:Hr; simpl.
    + intros Hle. by destruct (N.ltb_spec 100 (MaxFailures r)); [lia|].
    + destruct (DefaultConfig c) as [d|]; simpl; [|done].
      destruct (TRestartPolicy d) as [r|]; simpl; [|done].
      intros Hle. by destruct (N.ltb_spec 100 (MaxFailures r)); [lia|].
  - destruct (DefaultConfig c) as [d|]; simpl; [|done].
    destruct (TRestartPolicy d) as [r|]; simpl; [|done].
    intros Hle. by destruct (N.ltb_spec 100 (MaxFailures r)); [lia|].
Qed.

Lemma instanceError_validateInstances c l i :
  instanceError (validateInstances c l).1 i = instanceError c i.
Proof.
  destruct (validateInstances_withoutRetries c l) as [_ Hw].
  rewrite <- (instanceError_withoutRetries (validateInstances c l).1).
  by rewrite Hw, instanceError_withoutRetries.
Qed.

Lemma validateInstances_clamped c l i :
  GetMaxFailures (effectivePolicy c i) <= _maxTaskRetries →
  GetMaxFailures (effectivePolicy (validateInstances c l).1 i)
  <= _maxTaskRetries.
Proof.
  intros Hle.
  rewrite (validateInstances_keeps_clamped
             (GetMaxFailures (effectivePolicy c i)) i l c).
  - unfold _maxTaskRetries in *. lia.
  - unfold _maxTaskRetries in *. lia.
Qed.

Lemma validateInstances_cons c i l :
  validateInstances c (i :: l)
  = match instanceError c i with
    | Some e => (clampPolicy c i, Some e)
    | None => validateInstances (clampPolicy c i) l
    end.
Proof. cbn [validateInstances]. by rewrite validateInstance_split. Qed.

Lemma validateInstances_twice c l :
  validateInstances (validateInstances c l).1 l = validateInstances c l.
Proof.
  revert c. induction l as [|i l IH]; intros c; [done|].
  assert (GetMaxFailures (effectivePolicy (clampPolicy c i) i)
          <= _maxTaskRetries) as Hcl.
  { rewrite clampPolicy_self. unfold _maxTaskRetries. lia. }
  rewrite (validateInstances_cons c i l).
  destruct (instanceError c i) as [e|] eqn:He.
  - cbn [fst]. rewrite validateInstances_cons, instanceError_clampPolicy, He.
    by rewrite (clampPolicy_id _ _ Hcl).
  - rewrite validateInstances_cons.
    rewrite instanceError_validateInstances, instanceError_clampPolicy, He.
    rewrite clampPolicy_id by by apply validateInstances_clamped.
    apply IH.
Qed.

(** X18. Validating a configuration that [ValidateTaskConfig] has been
    through changes nothing any more: the second run returns the verdict
    of the first and leaves the configuration as the first left it. *)
Theorem ValidateTaskConfig_twice c maxTasksPerJob :
  ValidateTaskConfig (ValidateTaskConfig c maxTasksPerJob).1 maxTasksPerJob
  = ValidateTaskConfig c maxTasksPerJob.
Proof.
  destruct (validateTaskConfigWithRange_withoutRetries c maxTasksPerJob 0
              (InstanceCount c)) as [_ Hw].
  fold (ValidateTaskConfig c maxTasksPerJob) in Hw.
  assert (InstanceCount (ValidateTaskConfig c maxTasksPerJob).1
          = InstanceCount c
          ∧ GetPorts (DefaultConfig (ValidateTaskConfig c maxTasksPerJob).1)
            = GetPorts (DefaultConfig c)
          ∧ SLA (ValidateTaskConfig c maxTasksPerJob).1 = SLA c)
    as (Hn & Hp & Hs).
  { destruct (withoutRetries_fields (ValidateTaskConfig c maxTasksPerJob).1)
      as (<- & <- & <-).
    rewrite Hw. destruct (withoutRetries_fields c) as (-> & -> & ->). done. }
  unfold ValidateTaskConfig at 1. rewrite Hn.
  unfold validateTaskConfigWithRange at 1. rewrite Hp, Hn, Hs.
  unfold ValidateTaskConfig, validateTaskConfigWithRange.
  destruct (validatePortConfig (GetPorts (DefaultConfig c))); [done|].
  destruct (maxTasksPerJob <? InstanceCount c); [done|].
  pose proof (validateInstances_twice c (instanceRange 0 (InstanceCount c)))
    as Ht.
  destruct (validateInstances c (instanceRange 0 (InstanceCount c)))
    as [c1 e1]. cbn [fst] in Ht.
  assert ((let '(c2, e2) := (c1, e1) in
           match e2 with
           | Some e => (c2, Some e)
           | None =>
               if GetMaximumRunningInstances (SLA c) =? 0
               then if InstanceCount c <? GetMinimumRunningInstances (SLA c)
                    then (c2, Some errMaxInstancesTooBig) else (c2, None)
               else if InstanceCount c <? GetMaximumRunningInstances (SLA c)
                    then (c2, Some errMaxInstancesTooBig)
                    else if GetMaximumRunningInstances (SLA c)
                            <? GetMinimumRunningInstances (SLA c)
                         then (c2, Some errMaxInstancesTooBig)
                         else (c2, None)
           end).1 = c1) as Hfst.
  { destruct e1; [done|]. cbn iota. by repeat case_match. }
  cbn iota in Hfst. rewrite Hfst, Ht. done.
Qed.


(** ** What [ValidateUpdatedConfig] reports *)



(** The errors validation itself can return. *)
Definition validationError (e : Error) : Prop :=
  match e with
  | errUpdateNotSupported _ | errInstanceCountLess
  | errExistingInstanceUpdated => False
  | _ => True
  end.

Lemma validatePortConfig_error portConfigs e :
  validatePortConfig portConfigs = Some e → validationError e.
Proof.
  induction portConfigs as [|port rest IH]; simpl; [done|].
  case_bool_decide; [by intros [= <-]|].
  destruct (_ && _); [by intros [= <-]|done].
Qed.

Lemma validateInstances_error c l e :
  (validateInstances c l).2 = Some e → validationError e.
Proof.
  revert c. induction l as [|i l IH]; intros c; [done|].
  cbn [validateInstances]. rewrite validateInstance_split.
  destruct (instanceError c i) as [e'|] eqn:He; [|apply IH].
  cbn [snd]. intros [= <-]. unfold instanceError, validateInstance in He.
  destruct (InstanceConfig c !! i) as [t|];
    destruct (DefaultConfig c) as [d|]; cbn [snd] in He;
    try (by injection He as <-).
  all: destruct (validatePortConfig _) as [e1|] eqn:Hp; cbn [snd] in He;
    [injection He as <-; by apply validatePortConfig_error in Hp|].
  all: destruct (match GetCommand _ with Some _ => _ | None => _ end);
    cbn [snd] in He; [done|by injection He as <-].
Qed.

Lemma validateTaskConfigWithRange_error c maxTasksPerJob from to e :
  (validateTaskConfigWithRange c maxTasksPerJob from to).2 = Some e →
  validationError e.
Proof.
  unfold validateTaskConfigWithRange.
  destruct (validatePortConfig (GetPorts (DefaultConfig c))) as [e1|] eqn:Hp.
  { cbn [snd]. intros [= <-]. by apply validatePortConfig_error in Hp. }
  destruct (maxTasksPerJob <? InstanceCount c); [by intros [= <-]|].
  pose proof (validateInstances_error c (instanceRange from to)) as Hv.
  destruct (validateInstances c (instanceRange from to)) as [c1 [e1|]];
    cbn [snd] in *.
  { intros [= <-]. by apply Hv. }
  repeat case_match; cbn [snd]; (done || by intros [= <-]).
Qed.


(** X20. When a new instance fails validation, [ValidateUpdatedConfig]
    returns that one error and none of the errors it collected before:
    a changed name, label set, owning team, resource pool, type, LDAP
    group list or default config, a smaller instance count and a changed
    existing instance all go unreported. *)
Theorem ValidateUpdatedConfig_reports_validation_only
  oldConfig newConfig maxTasksPerJob e :
  (validateTaskConfigWithRange newConfig maxTasksPerJob
     (InstanceCount oldConfig) (InstanceCount newConfig)).2 = Some e →
  (ValidateUpdatedConfig oldConfig newConfig maxTasksPerJob).2 = [e]
  ∧ (∀ field, e ≠ errUpdateNotSupported field)
  ∧ e ≠ errInstanceCountLess
  ∧ e ≠ errExistingInstanceUpdated.
Proof.
  intros He. apply validateTaskConfigWithRange_error in He as Hk.
  unfold ValidateUpdatedConfig.
  destruct (validateTaskConfigWithRange newConfig maxTasksPerJob
              (InstanceCount oldConfig) (InstanceCount newConfig))
    as [c1 e1]. cbn [snd] in He. subst e1. cbn [snd].
  split; [done|]. by destruct e.
Qed.

(** The new config renames the job and adds an instance without a
    command. *)
Definition renamedAndBroken : JobConfig :=
  mkJobConfig "other" [] "team" None 0%nat [] None 3
              (<[0 := plainTask 3 None]>
                 (<[1 := plainTask 200 (Some "run"%string)]>
                    (<[2 := plainTask 3 None]> ∅))) None.

Lemma ValidateUpdatedConfig_reports_validation_only_witness :
  (ValidateUpdatedConfig brokenFirst renamedAndBroken 10).2
  = [errMissingCommand 2]
  ∧ (∀ field, errMissingCommand 2 ≠ errUpdateNotSupported field)
  ∧ errMissingCommand 2 ≠ errInstanceCountLess
  ∧ errMissingCommand 2 ≠ errExistingInstanceUpdated.
Proof.
  exact (ValidateUpdatedConfig_reports_validation_only brokenFirst
           renamedAndBroken 10 (errMissingCommand 2)
           ltac:(vm_compute; reflexivity)).
Defined.

Example ValidateUpdatedConfig_renamed :
  (ValidateUpdatedConfig eager
     (mkJobConfig "other" [] "team" None 0%nat []
                  (DefaultConfig eager) 2 (InstanceConfig eager) None) 10).2
  = [errUpdateNotSupported "Name"].
Proof. by vm_compute. Qed.


End JobConfig.

(* ===================================================================== *)
(** * Placement processor (jobmgr/task/placement/placement.go)            *)
(* ===================================================================== *)

Module Processor.

Import Tracker (TaskState(..)).

(** maxRetryCount is the maximum number of times a transient error from
    the DB will be retried. *)
Definition maxRetryCount : nat := 1000.

Arguments maxRetryCount : simpl never.

(** Errors are opaque to the processor, apart from being transient or
    not. *)
Definition Error := string.

(** The fields of [task.RuntimeInfo], [task.TaskInfo] and
    [resmgr.Placement] the processor reads or writes. *)
Record RuntimeInfo := mkRuntime {
  State : TaskState;
  GoalState : TaskState;
  MesosTaskId : option string;
  Host : string;
  AgentID : option string;
  Ports : gmap string N;
  Reason : string;
  Message : string
}.

Record TaskInfo := mkTaskInfo {
  JobId : string;
  InstanceId : N;
  Runtime : option RuntimeInfo
}.

Record Placement := mkPlacement {
  Tasks : list string;
  Hostname : string;
  AgentId : option string;
  PPorts : list N;
  PType : Tracker.TaskType
}.

Definition set_Runtime (r : option RuntimeInfo) (t : TaskInfo) : TaskInfo :=
  mkTaskInfo (JobId t) (InstanceId t) r.

Definition GetMesosTaskId (r : option RuntimeInfo) : option string :=
  r ≫= MesosTaskId.

(** The runtime [enqueueTasks] writes for a task that goes back to the
    resource manager: a regenerated mesos task id, the reason and message
    of the rejection, an empty agent id, no ports.  [regenerate] is
    [util.RegenerateMesosTaskID]. *)
Definition rejectedRuntime
  (regenerate : string → N → option string → RuntimeInfo) (t : TaskInfo)
  : RuntimeInfo :=
  let runtime :=
    regenerate (JobId t) (InstanceId t) (GetMesosTaskId (Runtime t)) in
  mkRuntime (State runtime) (GoalState runtime) (MesosTaskId runtime)
            (Host runtime) (Some ""%string) ∅
            "REASON_HOST_REJECT_OFFER" "Regenerate placement".

(** Calls of the processor on its collaborators: the task launcher, the
    job factory with its cached jobs and tasks, the goal-state driver. *)
Inductive Call :=
| CGetLaunchableTasks (p : Placement)
| CTryReturnOffers (p : Placement)
| CAddJob (jobID : string)
| CAddTask (jobID : string) (instanceID : N)
| CGetRunTime (jobID : string) (instanceID : N)
| CUpdateTasks (jobID : string) (instanceID : N)
               (runtime : option RuntimeInfo)
| CEnqueueTask (jobID : string) (instanceID : N)
| CEnqueueJob (jobID : string)
| CProcessPlacement (tasks : gmap string TaskInfo) (p : Placement).

(** The collaborators, over a state [W] of their own.  Each method gets
    the state it is called in and returns the state it leaves.
    [rangeOrder] is the order in which a [range] over a map of task infos
    visits it. *)
Record Env (W : Type) := mkEnv {
  GetLaunchableTasks : Placement → W → (Error + gmap string TaskInfo) * W;
  TryReturnOffers : Error → Placement → W → option Error * W;
  ParseTaskID : string → option (string * N);
  GetRunTime : string → N → W → (Error + RuntimeInfo) * W;
  UpdateTasks : string → N → option RuntimeInfo → W → option Error * W;
  IsTransientError : Error → bool;
  LauncherProcessPlacement :
    gmap string TaskInfo → Placement → W → option Error * W;
  EnqueueTask : string → N → W → W;
  EnqueueJobWithDefaultDelay : string → W → W;
  RegenerateMesosTaskID : string → N → option string → RuntimeInfo;
  rangeOrder : gmap string TaskInfo → list (string * TaskInfo)
}.

Arguments GetLaunchableTasks {W}.
Arguments TryReturnOffers {W}.
Arguments ParseTaskID {W}.
Arguments GetRunTime {W}.
Arguments UpdateTasks {W}.
Arguments IsTransientError {W}.
Arguments LauncherProcessPlacement {W}.
Arguments EnqueueTask {W}.
Arguments EnqueueJobWithDefaultDelay {W}.
Arguments RegenerateMesosTaskID {W}.
Arguments rangeOrder {W}.

(** A [range] visits every entry of the map once. *)
Definition range_ok {W} (env : Env W) : Prop :=
  ∀ m, rangeOrder env m ≡ₚ map_to_list m.

(** The processor's computations: the collaborators' state and the log of
    calls are threaded through. *)
Definition M (W A : Type) : Type := W * list Call → A * (W * list Call).

Global Instance M_ret {W} : MRet (M W) := λ A a s, (a, s).
Global Instance M_bind {W} : MBind (M W) :=
  λ A B f m s, let '(a, s') := m s in f a s'.

Definition call {W} (c : Call) : M W unit :=
  λ s, (tt, (s.1, s.2 ++ [c])).

Definition ask {W A} (c : Call) (f : W → A * W) : M W A :=
  λ s, let '(a, w) := f s.1 in (a, (w, s.2 ++ [c])).

Definition tell {W} (c : Call) (f : W → W) : M W unit :=
  λ s, (tt, (f s.1, s.2 ++ [c])).

Section WithEnv.

Context {W : Type} (env : Env W).

(** The retry loop of [enqueueTasks] for one task, [retry] turns left.
    It answers the last error and whether the function returns at once. *)
Fixpoint enqueueRetry (retry : nat) (t : TaskInfo) (runtime : RuntimeInfo)
  (err : option Error) : M W (option Error * bool) :=
  match retry with
  | O => mret (err, false)
  | S retry' =>
      _ ← call (CAddJob (JobId t));
      e ← ask (CUpdateTasks (JobId t) (InstanceId t) (Some runtime))
              (UpdateTasks env (JobId t) (InstanceId t) (Some runtime));
      match e with
      | None =>
          _ ← tell (CEnqueueTask (JobId t) (InstanceId t))
                   (EnqueueTask env (JobId t) (InstanceId t));
          _ ← tell (CEnqueueJob (JobId t))
                   (EnqueueJobWithDefaultDelay env (JobId t));
          mret (None, false)
      | Some x =>
          if IsTransientError env x
          then enqueueRetry retry' t runtime (Some x)
          else mret (Some x, true)
      end
  end.

Fixpoint enqueueEach (ts : list (string * TaskInfo)) (err : option Error)
  : M W (option Error) :=
  match ts with
  | [] => mret err
  | (_, t) :: rest =>
      '(err', returned) ←
        enqueueRetry maxRetryCount t
                     (rejectedRuntime (RegenerateMesosTaskID env) t) err;
      if returned : bool then mret err' else enqueueEach rest err'
  end.

(** enqueueTask enqueues given task to resmgr to launch again. *)
Definition enqueueTasks (tasks : gmap string TaskInfo)
  : M W (option Error) :=
  if decide (size tasks = 0) then mret None
  else enqueueEach (rangeOrder env tasks) None.

(** The retry loop of [ProcessPlacement] that writes the runtime of a task
    about to be launched; it answers the task infos it leaves. *)
Fixpoint updateRetry (retry : nat) (taskID id : string) (instanceID : N)
  (runtime : option RuntimeInfo) (taskInfos : gmap string TaskInfo)
  : M W (gmap string TaskInfo) :=
  match retry with
  | O => mret taskInfos
  | S retry' =>
      e ← ask (CUpdateTasks id instanceID runtime)
              (UpdateTasks env id instanceID runtime);
      match e with
      | None =>
          r ← ask (CGetRunTime id instanceID) (GetRunTime env id instanceID);
          mret (alter (set_Runtime (match r with
                                    | inr x => Some x
                                    | inl _ => None
                                    end)) taskID taskInfos)
      | Some x =>
          if IsTransientError env x
          then updateRetry retry' taskID id instanceID runtime taskInfos
          else mret (delete taskID taskInfos)
      end
  end.

(** One turn of the first loop of [ProcessPlacement]. *)
Definition processTask (taskID : string) (taskInfo : TaskInfo)
  (taskInfos : gmap string TaskInfo) : M W (gmap string TaskInfo) :=
  match ParseTaskID env taskID with
  | None => mret taskInfos
  | Some (id, instanceID) =>
      _ ← call (CAddJob id);
      _ ← call (CAddTask id instanceID);
      cached ← ask (CGetRunTime id instanceID) (GetRunTime env id instanceID);
      match cached with
      | inl _ => mret taskInfos
      | inr cachedRuntime =>
          if bool_decide (GoalState cachedRuntime = KILLED)
          then
            _ ← (if bool_decide (State cachedRuntime = KILLED) then mret tt
                 else tell (CEnqueueTask id instanceID)
                           (EnqueueTask env id instanceID));
            mret (delete taskID taskInfos)
          else
            updateRetry maxRetryCount taskID id instanceID
                        (Runtime taskInfo) taskInfos
      end
  end.

Fixpoint processTasks (ts : list (string * TaskInfo))
  (taskInfos : gmap string TaskInfo) : M W (gmap string TaskInfo) :=
  match ts with
  | [] => mret taskInfos
  | (taskID, taskInfo) :: rest =>
      taskInfos' ← processTask taskID taskInfo taskInfos;
      processTasks rest taskInfos'
  end.

(** The last loop of [ProcessPlacement]: the launched tasks go to the
    goal-state driver. *)
Fixpoint enqueueLaunched (ts : list (string * TaskInfo)) : M W unit :=
  match ts with
  | [] => mret tt
  | (id, _) :: rest =>
      _ ← match ParseTaskID env id with
          | None => mret tt
          | Some (jobID, instanceID) =>
              _ ← tell (CEnqueueTask jobID instanceID)
                       (EnqueueTask env jobID instanceID);
              _ ← call (CAddJob jobID);
              tell (CEnqueueJob jobID) (EnqueueJobWithDefaultDelay env jobID)
          end;
      enqueueLaunched rest
  end.

Definition ProcessPlacement (placement : Placement) : M W unit :=
  launchable ← ask (CGetLaunchableTasks placement)
                   (GetLaunchableTasks env placement);
  match launchable with
  | inl err =>
      _ ← ask (CTryReturnOffers placement)
              (TryReturnOffers env err placement);
      mret tt
  | inr taskInfos0 =>
      taskInfos ← processTasks (rangeOrder env taskInfos0) taskInfos0;
      if decide (size taskInfos = 0) then mret tt
      else
        err ← ask (CProcessPlacement taskInfos placement)
                  (LauncherProcessPlacement env taskInfos placement);
        match err with
        | Some _ => _ ← enqueueTasks taskInfos; mret tt
        | None => enqueueLaunched (rangeOrder env taskInfos)
        end
  end.

End WithEnv.

(** ** The processor against mocked collaborators *)

Definition killedGoal (st : TaskState) : RuntimeInfo :=
  mkRuntime st KILLED (Some "testjob-0-1"%string) "" None ∅ "" "".

Definition pendingTask : RuntimeInfo :=
  mkRuntime PENDING SUCCEEDED (Some "testjob-0-1"%string) "" None ∅ "" "".

Definition testTask (r : RuntimeInfo) : TaskInfo :=
  mkTaskInfo "testjob" 0 (Some r).

Definition testPlacement : Placement :=
  mkPlacement ["testjob-0"%string] "hostname-0" (Some "agent-0"%string)
              [100%N] Tracker.BATCH.

(** Mocks in the manner of the processor's tests: one task
    [testjob-0], the cached runtime [cached], the answers of the DB and
    of the launcher. *)
Definition testEnv (cached : RuntimeInfo) (dbErr launchErr : option Error)
  : Env unit :=
  mkEnv unit
    (λ _ w, (inr {[ "testjob-0"%string := testTask cached ]}, w))
    (λ _ _ w, (None, w))
    (λ id, if bool_decide (id = "testjob-0"%string)
           then Some ("testjob"%string, 0%N) else None)
    (λ _ _ w, (inr cached, w))
    (λ _ _ _ w, (dbErr, w))
    (λ _, false)
    (λ _ _ w, (launchErr, w))
    (λ _ _ w, w)
    (λ _ w, w)
    (λ _ _ _, mkRuntime INITIALIZED SUCCEEDED (Some "testjob-0-2"%string)
                        "" None ∅ "" "")
    map_to_list.

Definition runLog {W} (env : Env W) (p : Placement) (w : W) : list Call :=
  (ProcessPlacement env p (w, [])).2.2.

(** ** Replaying the tests of the processor *)

Example TestTaskPlacementKilledTask :
  runLog (testEnv (killedGoal KILLED) None None) testPlacement tt
  = [CGetLaunchableTasks testPlacement; CAddJob "testjob";
     CAddTask "testjob" 0; CGetRunTime "testjob" 0].
Proof. by vm_compute. Qed.

Example TestTaskPlacementKilledRunningTask :
  runLog (testEnv (killedGoal PENDING) None None) testPlacement tt
  = [CGetLaunchableTasks testPlacement; CAddJob "testjob";
     CAddTask "testjob" 0; CGetRunTime "testjob" 0;
     CEnqueueTask "testjob" 0].
Proof. by vm_compute. Qed.

Example TestTaskPlacementNoError :
  runLog (testEnv pendingTask None None) testPlacement tt
  = [CGetLaunchableTasks testPlacement; CAddJob "testjob";
     CAddTask "testjob" 0; CGetRunTime "testjob" 0;
     CUpdateTasks "testjob" 0 (Some pendingTask); CGetRunTime "testjob" 0;
     CProcessPlacement {[ "testjob-0"%string := testTask pendingTask ]}
                       testPlacement;
     CEnqueueTask "testjob" 0; CAddJob "testjob"; CEnqueueJob "testjob"].
Proof. by vm_compute. Qed.

Example TestTaskPlacementDBError :
  runLog (testEnv pendingTask (Some "fake db error"%string) None)
         testPlacement tt
  = [CGetLaunchableTasks testPlacement; CAddJob "testjob";
     CAddTask "testjob" 0; CGetRunTime "testjob" 0;
     CUpdateTasks "testjob" 0 (Some pendingTask)].
Proof. by vm_compute. Qed.


Example TestTaskPlacementError :
  runLog (testEnv pendingTask None (Some "fake launch error"%string))
         testPlacement tt
  = [CGetLaunchableTasks testPlacement; CAddJob "testjob";
     CAddTask "testjob" 0; CGetRunTime "testjob" 0;
     CUpdateTasks "testjob" 0 (Some pendingTask); CGetRunTime "testjob" 0;
     CProcessPlacement {[ "testjob-0"%string := testTask pendingTask ]}
                       testPlacement;
     CAddJob "testjob";
     CUpdateTasks "testjob" 0
       (Some (mkRuntime INITIALIZED SUCCEEDED (Some "testjob-0-2"%string) ""
                        (Some ""%string) ∅ "REASON_HOST_REJECT_OFFER"
                        "Regenerate placement"));
     CEnqueueTask "testjob" 0; CEnqueueJob "testjob"].
Proof. by vm_compute. Qed.

(** ** What a computation adds to the log *)

Section Properties.

Context {W : Type} (env : Env W).

(** [m] only appends to the log, and every call it appends satisfies
    [P]. *)
Definition emits {A} (P : Call → Prop) (m : M W A) : Prop :=
  ∀ s, ∃ l, (m s).2.2 = s.2 ++ l ∧ Forall P l.

Lemma emits_ret {A} P (a : A) : emits P (mret a).
Proof. intros s. exists []. by rewrite app_nil_r. Qed.

Lemma emits_bind {A B} P (m : M W A) (k : A → M W B) :
  emits P m → (∀ a, emits P (k a)) → emits P (m ≫= k).
Proof.
  intros Hm Hk s. unfold mbind, M_bind.
  destruct (Hm s) as (l1 & H1 & HP1). destruct (m s) as [a s1].
  destruct (Hk a s1) as (l2 & H2 & HP2).
  exists (l1 ++ l2). split.
  - rewrite H2. simpl in H1. by rewrite H1, app_assoc.
  - by apply Forall_app.
Qed.

Lemma emits_call P c : P c → emits P (call c).
Proof. intros Hc s. exists [c]. split; [done|]. by constructor. Qed.

Lemma emits_ask {A} P c (f : W → A * W) : P c → emits P (ask c f).
Proof.
  intros Hc s. exists [c]. unfold ask. destruct (f s.1).
  split; [done|]. by constructor.
Qed.

Lemma emits_tell P c (f : W → W) : P c → emits P (tell c f).
Proof. intros Hc s. exists [c]. split; [done|]. by constructor. Qed.

(** No call of the processor's loops is a launch. *)
Definition notLaunch (c : Call) : Prop :=
  match c with CProcessPlacement _ _ => False | _ => True end.

Lemma enqueueRetry_emits retry t runtime err :
  emits notLaunch (enqueueRetry env retry t runtime err).
Proof.
  revert err. induction retry as [|retry IH]; intros err; simpl.
  - apply emits_ret.
  - apply emits_bind; [by apply emits_call|]. intros _.
    apply emits_bind; [by apply emits_ask|]. intros [x|].
    + destruct (IsTransientError env x); [apply IH|apply emits_ret].
    + apply emits_bind; [by apply emits_tell|]. intros _.
      apply emits_bind; [by apply emits_tell|]. intros _. apply emits_ret.
Qed.

Lemma enqueueEach_emits ts err : emits notLaunch (enqueueEach env ts err).
Proof.
  revert err. induction ts as [|[k t] ts IH]; intros err;
    cbn [enqueueEach].
  - apply emits_ret.
  - apply emits_bind; [apply enqueueRetry_emits|]. intros [err' [|]].
    + apply emits_ret.
    + apply IH.
Qed.

Lemma enqueueTasks_emits tasks : emits notLaunch (enqueueTasks env tasks).
Proof.
  unfold enqueueTasks. case_decide; [apply emits_ret|apply enqueueEach_emits].
Qed.

Lemma enqueueLaunched_emits ts : emits notLaunch (enqueueLaunched env ts).
Proof.
  induction ts as [|[id t] ts IH]; simpl; [apply emits_ret|].
  apply emits_bind; [|by intros _].
  destruct (ParseTaskID env id) as [[jobID instanceID]|]; [|apply emits_ret].
  apply emits_bind; [by apply emits_tell|]. intros _.
  apply emits_bind; [by apply emits_call|]. intros _.
  by apply emits_tell.
Qed.

(** A computation over the task infos that never adds a task. *)
Definition shrinks (taskInfos : gmap string TaskInfo)
  (m : M W (gmap string TaskInfo)) : Prop :=
  ∀ s k, taskInfos !! k = None → (m s).1 !! k = None.

Lemma updateRetry_spec retry taskID id instanceID runtime taskInfos :
  emits notLaunch
    (updateRetry env retry taskID id instanceID runtime taskInfos)
  ∧ shrinks taskInfos
      (updateRetry env retry taskID id instanceID runtime taskInfos).
Proof.
  induction retry as [|retry [IHe IHs]]; simpl.
  - split; [apply emits_ret|]. by intros s k Hk.
  - split.
    + apply emits_bind; [by apply emits_ask|]. intros [x|].
      * destruct (IsTransientError env x); [apply IHe|apply emits_ret].
      * apply emits_bind; [by apply emits_ask|]. intros r. apply emits_ret.
    + intros s k Hk. unfold mbind, M_bind, ask.
      destruct (UpdateTasks env id instanceID runtime s.1) as [[x|] w1].
      * destruct (IsTransientError env x); [by apply IHs|].
        simpl. rewrite lookup_delete_None. by right.
      * destruct (GetRunTime env id instanceID _) as [r w2]. simpl.
        rewrite lookup_alter_None. done.
Qed.

Lemma processTask_spec taskID taskInfo taskInfos :
  emits notLaunch (processTask env taskID taskInfo taskInfos)
  ∧ shrinks taskInfos (processTask env taskID taskInfo taskInfos).
Proof.
  unfold processTask.
  destruct (ParseTaskID env taskID) as [[id instanceID]|].
  2:{ split; [apply emits_ret|]. by intros s k Hk. }
  destruct (updateRetry_spec maxRetryCount taskID id instanceID
              (Runtime taskInfo) taskInfos) as [Hue Hus].
  split.
  - apply emits_bind; [by apply emits_call|]. intros _.
    apply emits_bind; [by apply emits_call|]. intros _.
    apply emits_bind; [by apply emits_ask|]. intros [e|r].
    + apply emits_ret.
    + case_bool_decide; [|done].
      apply emits_bind; [|intros _; apply emits_ret].
      case_bool_decide; [apply emits_ret|by apply emits_tell].
  - intros s k Hk. unfold mbind, M_bind, call, ask, tell. cbn [fst snd].
    destruct (GetRunTime env id instanceID s.1) as [[e|r] w1]; [done|].
    case_bool_decide.
    + case_bool_decide; simpl; rewrite lookup_delete_None; by right.
    + by apply Hus.
Qed.

Lemma processTasks_spec ts taskInfos :
  emits notLaunch (processTasks env ts taskInfos)
  ∧ shrinks taskInfos (processTasks env ts taskInfos).
Proof.
  revert taskInfos. induction ts as [|[k t] ts IH]; intros taskInfos;
    cbn [processTasks].
  - split; [apply emits_ret|]. by intros s j Hj.
  - destruct (processTask_spec k t taskInfos) as [He Hs]. split.
    + apply emits_bind; [done|]. intros m. apply IH.
    + intros s j Hj. unfold mbind, M_bind.
      specialize (Hs s j Hj).
      destruct (processTask env k t taskInfos s) as [m s1].
      by apply IH.
Qed.

(** The turn of a task whose cached goal state is KILLED: the task leaves
    the launch set, and the kill is retried unless the task is KILLED
    already. *)
Lemma processTask_killed taskID taskInfo taskInfos id instanceID s :
  ParseTaskID env taskID = Some (id, instanceID) →
  (∀ w, ∃ r w', GetRunTime env id instanceID w = (inr r, w')
                ∧ GoalState r = KILLED) →
  let '(taskInfos', s') := processTask env taskID taskInfo taskInfos s in
  taskInfos' = delete taskID taskInfos
  ∧ ∃ l, s'.2 = s.2 ++ l ∧ Forall notLaunch l
    ∧ ((∀ w r w', GetRunTime env id instanceID w = (inr r, w') →
                  State r ≠ KILLED) →
       CEnqueueTask id instanceID ∈ l).
Proof.
  intros Hparse Hgoal. unfold processTask. rewrite Hparse.
  unfold mbind, M_bind, mret, M_ret, call, ask, tell. cbn [fst snd].
  destruct (Hgoal s.1) as (r & w' & Hrun & Hk). rewrite Hrun.
  rewrite (bool_decide_eq_true_2 _ Hk).
  case_bool_decide as Hst; cbn [fst snd].
  - split; [done|].
    exists [CAddJob id; CAddTask id instanceID; CGetRunTime id instanceID].
    split; [by rewrite <- !app_assoc|]. split; [by repeat constructor|].
    intros Hnot. by destruct (Hnot _ _ _ Hrun).
  - split; [done|].
    exists [CAddJob id; CAddTask id instanceID; CGetRunTime id instanceID;
            CEnqueueTask id instanceID].
    split; [by rewrite <- !app_assoc|]. split; [by repeat constructor|].
    intros _. rewrite !elem_of_cons. auto.
Qed.

Lemma processTasks_killed ts taskID taskInfo taskInfos id instanceID s :
  (taskID, taskInfo) ∈ ts →
  ParseTaskID env taskID = Some (id, instanceID) →
  (∀ w, ∃ r w', GetRunTime env id instanceID w = (inr r, w')
                ∧ GoalState r = KILLED) →
  let '(taskInfos', s') := processTasks env ts taskInfos s in
  taskInfos' !! taskID = None
  ∧ ∃ l, s'.2 = s.2 ++ l ∧ Forall notLaunch l
    ∧ ((∀ w r w', GetRunTime env id instanceID w = (inr r, w') →
                  State r ≠ KILLED) →
       CEnqueueTask id instanceID ∈ l).
Proof.
  intros Hin Hparse Hgoal. revert taskInfos s.
  induction ts as [|[k t] ts IH]; intros taskInfos s.
  { by apply elem_of_nil in Hin. }
  cbn [processTasks]. unfold mbind, M_bind.
  apply elem_of_cons in Hin as [Heq|Hin].
  - injection Heq as <- <-.
    pose proof (processTask_killed taskID taskInfo taskInfos id instanceID s
                  Hparse Hgoal) as Hk.
    destruct (processTask env taskID taskInfo taskInfos s) as [m1 s1].
    destruct Hk as (-> & l1 & Hl1 & HP1 & He1).
    destruct (processTasks_spec ts (delete taskID taskInfos)) as [He Hs].
    specialize (He s1) as (l2 & Hl2 & HP2).
    specialize (Hs s1 taskID (lookup_delete_eq _ _)).
    destruct (processTasks env ts (delete taskID taskInfos) s1) as [m2 s2].
    cbn [fst snd] in *. split; [done|].
    exists (l1 ++ l2). rewrite Hl2, Hl1, app_assoc.
    split; [done|]. split; [by apply Forall_app|].
    intros Hnot. apply elem_of_app. left. by apply He1.
  - destruct (processTask_spec k t taskInfos) as [He _].
    specialize (He s) as (l1 & Hl1 & HP1).
    destruct (processTask env k t taskInfos s) as [m1 s1].
    specialize (IH Hin m1 s1).
    destruct (processTasks env ts m1 s1) as [m2 s2].
    destruct IH as (Hnone & l2 & Hl2 & HP2 & He2).
    cbn [fst snd] in *. split; [done|].
    exists (l1 ++ l2). rewrite Hl2, Hl1, app_assoc.
    split; [done|]. split; [by apply Forall_app|].
    intros Hnot. apply elem_of_app. right. by apply He2.
Qed.

Lemma notLaunch_elem l tasks p :
  Forall notLaunch l → CProcessPlacement tasks p ∉ l.
Proof.
  intros Hall Hin. rewrite list.Forall_forall in Hall. by apply Hall in Hin.
Qed.

(** A task whose id parses and whose cached runtime is read with goal state
    KILLED leaves the launch set before the launcher is called, and goes
    to the goal-state driver when its cached state is not KILLED yet. *)
Lemma ProcessPlacement_killed_removed placement w taskInfos0 w1
  taskID taskInfo id instanceID :
  range_ok env →
  GetLaunchableTasks env placement w = (inr taskInfos0, w1) →
  taskInfos0 !! taskID = Some taskInfo →
  ParseTaskID env taskID = Some (id, instanceID) →
  (∀ w, ∃ r w', GetRunTime env id instanceID w = (inr r, w')
                ∧ GoalState r = KILLED) →
  (∀ tasks p, CProcessPlacement tasks p ∈ runLog env placement w →
              tasks !! taskID = None)
  ∧ ((∀ w r w', GetRunTime env id instanceID w = (inr r, w') →
                State r ≠ KILLED) →
     CEnqueueTask id instanceID ∈ runLog env placement w).
Proof.
  intros Hrange Hlaunch Hin Hparse Hgoal.
  assert ((taskID, taskInfo) ∈ rangeOrder env taskInfos0) as Hmem.
  { rewrite (Hrange taskInfos0). by apply elem_of_map_to_list. }
  remember (runLog env placement w) as L eqn:HL.
  assert (∃ taskInfos pre post,
            taskInfos !! taskID = None
            ∧ Forall notLaunch pre ∧ Forall notLaunch post
            ∧ ((∀ w r w', GetRunTime env id instanceID w = (inr r, w') →
                          State r ≠ KILLED) →
               CEnqueueTask id instanceID ∈ pre)
            ∧ (L = pre
               ∨ L = (pre ++ [CProcessPlacement taskInfos placement]) ++ post))
    as (taskInfos & pre & post & Hgone & Hpre & Hpost & Henq & Hlog).
  { unfold runLog, ProcessPlacement in HL.
    unfold mbind at 1, M_bind at 1, ask at 1 in HL. cbn [fst snd] in HL.
    rewrite Hlaunch in HL. unfold mbind at 1, M_bind at 1 in HL.
    pose proof (processTasks_killed (rangeOrder env taskInfos0) taskID
                  taskInfo taskInfos0 id instanceID
                  (w1, [] ++ [CGetLaunchableTasks placement])
                  Hmem Hparse Hgoal) as Hloop.
    destruct (processTasks env _ taskInfos0 _) as [taskInfos s1].
    destruct Hloop as (Hgone & l & Hl & Hno & Henq). simpl in Hl.
    exists taskInfos, s1.2.
    assert (Forall notLaunch s1.2) as Hno1.
    { rewrite Hl. by constructor. }
    assert ((∀ w r w', GetRunTime env id instanceID w = (inr r, w') →
                       State r ≠ KILLED) →
            CEnqueueTask id instanceID ∈ s1.2) as Henq1.
    { intros Hnot. rewrite Hl. apply list_elem_of_further. by apply Henq. }
    case_decide as Hsize.
    { exists []. repeat split; try done. by left. }
    unfold mbind, M_bind, ask in HL. cbn [fst snd] in HL.
    destruct (LauncherProcessPlacement env taskInfos placement s1.1)
      as [err w2].
    destruct err as [e|].
    - destruct (enqueueTasks_emits taskInfos
                  (w2, s1.2 ++ [CProcessPlacement taskInfos placement]))
        as (l3 & Hl3 & Hno3).
      destruct (enqueueTasks env taskInfos _) as [a s3].
      exists l3. repeat split; try done. right. by rewrite HL.
    - destruct (enqueueLaunched_emits (rangeOrder env taskInfos)
                  (w2, s1.2 ++ [CProcessPlacement taskInfos placement]))
        as (l3 & Hl3 & Hno3).
      exists l3. repeat split; try done. right. by rewrite HL. }
  split.
  - intros tasks p. destruct Hlog as [-> | ->].
    + intros Hp. by destruct (notLaunch_elem pre tasks p).
    + rewrite !elem_of_app, list_elem_of_singleton. intros [[Hp|Hp]|Hp].
      * by destruct (notLaunch_elem pre tasks p).
      * by injection Hp as -> ->.
      * by destruct (notLaunch_elem post tasks p).
  - intros Hnot. destruct Hlog as [-> | ->]; [by apply Henq|].
    rewrite !elem_of_app. left. left. by apply Henq.
Qed.


(** ** [enqueueTasks]: what goes back to the resource manager *)


Lemma rejectedRuntime_fields regenerate t :
  let r := rejectedRuntime regenerate t in
  MesosTaskId r
  = MesosTaskId (regenerate (JobId t) (InstanceId t)
                            (GetMesosTaskId (Runtime t)))
  ∧ Reason r = "REASON_HOST_REJECT_OFFER"%string
  ∧ AgentID r = Some ""%string
  ∧ Ports r = ∅.
Proof. done. Qed.






(** With a DB that accepts the write, every task of the failed launch is
    written back rejected and enqueued to the goal-state driver. *)
Lemma enqueueRetry_first_ok retry t runtime err s :
  (UpdateTasks env (JobId t) (InstanceId t) (Some runtime) s.1).1 = None →
  (enqueueRetry env (S retry) t runtime err s).1 = (None, false)
  ∧ (enqueueRetry env (S retry) t runtime err s).2.2
    = s.2 ++ [CAddJob (JobId t);
              CUpdateTasks (JobId t) (InstanceId t) (Some runtime);
              CEnqueueTask (JobId t) (InstanceId t);
              CEnqueueJob (JobId t)].
Proof.
  intros Hok. cbn [enqueueRetry].
  unfold mbind, M_bind, mret, M_ret, call, ask, tell. cbn [fst snd].
  destruct (UpdateTasks env (JobId t) (InstanceId t) (Some runtime) s.1)
    as [e w1]. simpl in Hok. subst e. cbn [fst snd].
  by rewrite <- !app_assoc.
Qed.

Lemma enqueueTasks_accepting_db tasks s :
  range_ok env →
  (∀ j i r w, (UpdateTasks env j i r w).1 = None) →
  (enqueueTasks env tasks s).2.2
  = s.2 ++ flat_map (λ kt : string * TaskInfo,
                       [CAddJob (JobId kt.2);
                        CUpdateTasks (JobId kt.2) (InstanceId kt.2)
                          (Some (rejectedRuntime (RegenerateMesosTaskID env)
                                                 kt.2));
                        CEnqueueTask (JobId kt.2) (InstanceId kt.2);
                        CEnqueueJob (JobId kt.2)])
                    (rangeOrder env tasks).
Proof.
  intros Hrange Hdb. unfold enqueueTasks. case_decide as Hsize.
  { apply map_size_empty_iff in Hsize. subst tasks.
    pose proof (Hrange ∅) as Hp. rewrite map_to_list_empty in Hp.
    apply Permutation_nil_r in Hp. rewrite Hp. simpl.
    by rewrite app_nil_r. }
  clear Hsize. generalize (rangeOrder env tasks) (@None Error).
  intros ts. revert s. induction ts as [|[k t] ts IH]; intros s err.
  { simpl. by rewrite app_nil_r. }
  cbn [enqueueEach flat_map]. unfold mbind, M_bind.
  change maxRetryCount with (S 999).
  destruct (enqueueRetry_first_ok 999 t
              (rejectedRuntime (RegenerateMesosTaskID env) t) err s
              (Hdb _ _ _ _)) as [Hres Hlog].
  destruct (enqueueRetry env (S 999) t _ err s) as [[err' returned] s1].
  cbn [fst snd] in Hres, Hlog. injection Hres as -> ->.
  rewrite IH, Hlog. by rewrite <- app_assoc.
Qed.


End Properties.




(* --------------------------------------------------------------------- *)
(** ** Retries, dropped tasks and what reaches the launcher *)

(** The writes to the DB among the calls of a log. *)
Definition isUpdate (c : Call) : Prop :=
  match c with CUpdateTasks _ _ _ => True | _ => False end.

Global Instance isUpdate_dec c : Decision (isUpdate c).
Proof. destruct c; simpl; apply _. Defined.

Definition updates (l : list Call) : nat := length (filter isUpdate l).

Lemma updates_app l1 l2 : updates (l1 ++ l2) = (updates l1 + updates l2)%nat.
Proof. unfold updates. by rewrite list.filter_app, length_app. Qed.

Section Retries.

Context {W : Type} (env : Env W).

Lemma enqueueRetry_updates retry t runtime err s :
  (updates (enqueueRetry env retry t runtime err s).2.2
   ≤ updates s.2 + retry)%nat.
Proof.
  revert err s. induction retry as [|retry IH]; intros err s.
  { simpl. lia. }
  cbn [enqueueRetry]. unfold mbind, M_bind, mret, M_ret, call, ask, tell.
  cbn [fst snd].
  destruct (UpdateTasks env (JobId t) (InstanceId t) (Some runtime) s.1)
    as [[x|] w1]; cbn [fst snd].
  - destruct (IsTransientError env x).
    + etrans; [apply IH|]. cbn [fst snd]. rewrite !updates_app.
      unfold updates at 2 3. simpl. lia.
    + cbn [fst snd]. rewrite !updates_app. unfold updates at 2 3. simpl. lia.
  - rewrite !updates_app. unfold updates at 2 3 4 5. simpl. lia.
Qed.

Lemma enqueueEach_updates ts err s :
  (updates (enqueueEach env ts err s).2.2
   ≤ updates s.2 + maxRetryCount * length ts)%nat.
Proof.
  revert err s. induction ts as [|[k t] ts IH]; intros err s.
  { simpl. lia. }
  cbn [enqueueEach]. unfold mbind, M_bind.
  pose proof (enqueueRetry_updates maxRetryCount t
                (rejectedRuntime (RegenerateMesosTaskID env) t) err s) as Hr.
  destruct (enqueueRetry env maxRetryCount t _ err s)
    as [[err' returned] s1]. cbn [fst snd] in Hr.
  destruct returned.
  - unfold mret, M_ret. cbn [fst snd length]. lia.
  - etrans; [apply IH|]. cbn [length]. lia.
Qed.

(** X21. [enqueueTasks] writes to the DB at most [maxRetryCount] times
    for each task it is given, whatever the DB answers. *)
Theorem enqueueTasks_bounded_retries tasks s :
  range_ok env →
  (updates (enqueueTasks env tasks s).2.2
   ≤ updates s.2 + maxRetryCount * size tasks)%nat.
Proof.
  intros Hrange. unfold enqueueTasks. case_decide as Hsize.
  { unfold mret, M_ret. cbn [fst snd]. lia. }
  etrans; [apply enqueueEach_updates|].
  by rewrite (Hrange tasks), length_map_to_list.
Qed.

(** X22. With a DB that accepts every write, [enqueueTasks] returns no
    error and makes, for each task in turn, exactly the calls [AddJob],
    [UpdateTasks] with the rejected runtime of the task, [EnqueueTask]
    and [EnqueueJobWithDefaultDelay]. *)
Theorem enqueueTasks_accepted tasks s :
  range_ok env →
  (∀ j i r w, (UpdateTasks env j i r w).1 = None) →
  (enqueueTasks env tasks s).1 = None
  ∧ (enqueueTasks env tasks s).2.2
    = s.2 ++ flat_map (λ kt : string * TaskInfo,
                         [CAddJob (JobId kt.2);
                          CUpdateTasks (JobId kt.2) (InstanceId kt.2)
                            (Some (rejectedRuntime
                                     (RegenerateMesosTaskID env) kt.2));
                          CEnqueueTask (JobId kt.2) (InstanceId kt.2);
                          CEnqueueJob (JobId kt.2)])
                      (rangeOrder env tasks).
Proof.
  intros Hrange Hdb. split; [|by apply enqueueTasks_accepting_db].
  unfold enqueueTasks. case_decide as Hsize; [done|]. clear Hsize.
  generalize (rangeOrder env tasks). intros ts.
  assert (∀ s, (enqueueEach env ts None s).1 = None) as Hall; [|apply Hall].
  induction ts as [|[k t] ts IH]; intros s0; [done|].
  cbn [enqueueEach]. unfold mbind, M_bind.
  change maxRetryCount with (S 999).
  destruct (enqueueRetry_first_ok env 999 t
              (rejectedRuntime (RegenerateMesosTaskID env) t) None s0
              (Hdb _ _ _ _)) as [Hres _].
  destruct (enqueueRetry env (S 999) t _ None s0) as [[err' returned] s1].
  cbn [fst] in Hres. injection Hres as -> ->. apply IH.
Qed.

(** *** The first loop of [ProcessPlacement] under a failing DB *)

Lemma processTask_dropped taskID taskInfo taskInfos id instanceID s :
  ParseTaskID env taskID = Some (id, instanceID) →
  (∀ w, ∃ r w', GetRunTime env id instanceID w = (inr r, w')
                ∧ GoalState r ≠ KILLED) →
  (∀ r w, ∃ x w', UpdateTasks env id instanceID r w = (Some x, w')
                  ∧ IsTransientError env x = false) →
  (processTask env taskID taskInfo taskInfos s).1 = delete taskID taskInfos.
Proof.
  intros Hparse Hlive Hdb. unfold processTask. rewrite Hparse.
  unfold mbind, M_bind, call, ask, tell. cbn [fst snd].
  destruct (Hlive s.1) as (r & w' & -> & Hg).
  rewrite bool_decide_eq_false_2 by done.
  change maxRetryCount with (S 999). cbn [updateRetry].
  unfold mbind, M_bind, ask. cbn [fst snd].
  destruct (Hdb (Runtime taskInfo) w') as (x & w2 & -> & Hx).
  by rewrite Hx.
Qed.

Lemma processTasks_dropped ts taskID taskInfo taskInfos id instanceID s :
  (taskID, taskInfo) ∈ ts →
  ParseTaskID env taskID = Some (id, instanceID) →
  (∀ w, ∃ r w', GetRunTime env id instanceID w = (inr r, w')
                ∧ GoalState r ≠ KILLED) →
  (∀ r w, ∃ x w', UpdateTasks env id instanceID r w = (Some x, w')
                  ∧ IsTransientError env x = false) →
  (processTasks env ts taskInfos s).1 !! taskID = None.
Proof.
  intros Hin Hparse Hlive Hdb. revert taskInfos s.
  induction ts as [|[k t] ts IH]; intros taskInfos s.
  { by apply elem_of_nil in Hin. }
  cbn [processTasks]. unfold mbind, M_bind.
  apply elem_of_cons in Hin as [Heq|Hin].
  - injection Heq as <- <-.
    pose proof (processTask_dropped taskID taskInfo taskInfos id instanceID s
                  Hparse Hlive Hdb) as Hd.
    destruct (processTask env taskID taskInfo taskInfos s) as [m1 s1].
    cbn [fst] in Hd. subst m1.
    destruct (processTasks_spec env ts (delete taskID taskInfos)) as [_ Hs].
    apply Hs. apply lookup_delete_eq.
  - destruct (processTask env k t taskInfos s) as [m1 s1]. by apply IH.
Qed.

(** The log of [ProcessPlacement] once the launcher has handed out the
    task infos: the calls of the first loop, then, unless no task is
    left, one call of the launcher with the tasks that are left, then
    calls that are no launch. *)
Lemma ProcessPlacement_log placement w taskInfos0 w1 :
  GetLaunchableTasks env placement w = (inr taskInfos0, w1) →
  let '(taskInfos, s1) :=
    processTasks env (rangeOrder env taskInfos0) taskInfos0
                 (w1, [CGetLaunchableTasks placement]) in
  Forall notLaunch s1.2
  ∧ ((size taskInfos = 0%nat ∧ runLog env placement w = s1.2)
     ∨ (size taskInfos ≠ 0%nat
        ∧ ∃ post, Forall notLaunch post
                  ∧ runLog env placement w
                    = (s1.2 ++ [CProcessPlacement taskInfos placement])
                      ++ post)).
Proof.
  intros Hlaunch.
  remember (runLog env placement w) as L eqn:HL.
  unfold runLog, ProcessPlacement in HL.
  unfold mbind at 1, M_bind at 1, ask at 1 in HL. cbn [fst snd] in HL.
  rewrite Hlaunch in HL. unfold mbind at 1, M_bind at 1 in HL.
  change ([] ++ [CGetLaunchableTasks placement])
    with [CGetLaunchableTasks placement] in HL.
  destruct (processTasks_spec env (rangeOrder env taskInfos0) taskInfos0)
    as [He _].
  specialize (He (w1, [CGetLaunchableTasks placement])) as (l & Hl & Hno).
  destruct (processTasks env (rangeOrder env taskInfos0) taskInfos0
              (w1, [CGetLaunchableTasks placement])) as [taskInfos s1].
  simpl in Hl.
  assert (Forall notLaunch s1.2) as Hno1.
  { rewrite Hl. by constructor. }
  split; [done|]. case_decide as Hsize.
  { left. split; [done|]. by rewrite HL. }
  right. split; [done|].
  unfold mbind, M_bind, ask in HL. cbn [fst snd] in HL.
  destruct (LauncherProcessPlacement env taskInfos placement s1.1)
    as [err w2].
  destruct err as [e|].
  - destruct (enqueueTasks_emits env taskInfos
                (w2, s1.2 ++ [CProcessPlacement taskInfos placement]))
      as (l3 & Hl3 & Hno3).
    destruct (enqueueTasks env taskInfos _) as [a s3].
    exists l3. split; [done|]. by rewrite HL.
  - destruct (enqueueLaunched_emits env (rangeOrder env taskInfos)
                (w2, s1.2 ++ [CProcessPlacement taskInfos placement]))
      as (l3 & Hl3 & Hno3).
    exists l3. split; [done|]. by rewrite HL.
Qed.

(** The calls of one turn of the first loop under a DB that refuses
    every write with a transient error, for a task that is not to be
    killed: the cached job and task are fetched, the runtime is read, and
    the runtime of the task is written [maxRetryCount] times.  A task
    whose id does not parse gets no call. *)
Definition transientTurn (kt : string * TaskInfo) : list Call :=
  match ParseTaskID env kt.1 with
  | Some (id, instanceID) =>
      [CAddJob id; CAddTask id instanceID; CGetRunTime id instanceID]
      ++ replicate maxRetryCount (CUpdateTasks id instanceID (Runtime kt.2))
  | None => []
  end.

Lemma updateRetry_transient_run retry taskID id instanceID runtime taskInfos s :
  (∀ j i r w, ∃ x w', UpdateTasks env j i r w = (Some x, w')
                      ∧ IsTransientError env x = true) →
  (updateRetry env retry taskID id instanceID runtime taskInfos s).1
  = taskInfos
  ∧ (updateRetry env retry taskID id instanceID runtime taskInfos s).2.2
    = s.2 ++ replicate retry (CUpdateTasks id instanceID runtime).
Proof.
  intros Hdb. revert s. induction retry as [|retry IH]; intros s.
  { split; [done|]. simpl. by rewrite app_nil_r. }
  cbn [updateRetry]. unfold mbind, M_bind, ask. cbn [fst snd].
  destruct (Hdb id instanceID runtime s.1) as (x & w' & -> & Ht).
  rewrite Ht. destruct (IH (w', s.2 ++ [CUpdateTasks id instanceID runtime]))
    as [IH1 IH2].
  split; [done|]. rewrite IH2. cbn [snd replicate].
  by rewrite <- app_assoc.
Qed.

Lemma processTasks_transient_run ts taskInfos s :
  (∀ j i r w, ∃ x w', UpdateTasks env j i r w = (Some x, w')
                      ∧ IsTransientError env x = true) →
  (∀ j i w, ∃ r w', GetRunTime env j i w = (inr r, w')
                    ∧ GoalState r ≠ KILLED) →
  (processTasks env ts taskInfos s).1 = taskInfos
  ∧ (processTasks env ts taskInfos s).2.2 = s.2 ++ flat_map transientTurn ts.
Proof.
  intros Hdb Hlive. revert s. induction ts as [|[k t] ts IH]; intros s.
  { split; [done|]. simpl. by rewrite app_nil_r. }
  cbn [processTasks flat_map]. unfold mbind, M_bind.
  assert ((processTask env k t taskInfos s).1 = taskInfos
          ∧ (processTask env k t taskInfos s).2.2
            = s.2 ++ transientTurn (k, t)) as [Hm Hl].
  { unfold processTask, transientTurn. cbn [fst snd].
    destruct (ParseTaskID env k) as [[id i]|].
    2:{ split; [done|]. unfold mret, M_ret. cbn [snd]. by rewrite app_nil_r. }
    unfold mbind, M_bind, call, ask, tell. cbn [fst snd].
    destruct (Hlive id i s.1) as (r & w' & -> & Hg).
    rewrite bool_decide_eq_false_2 by done.
    destruct (updateRetry_transient_run maxRetryCount k id i (Runtime t)
                taskInfos
                (w', ((s.2 ++ [CAddJob id]) ++ [CAddTask id i])
                     ++ [CGetRunTime id i]) Hdb) as [H1 H2].
    split; [done|]. rewrite H2. cbn [snd]. by rewrite <- !app_assoc. }
  destruct (processTask env k t taskInfos s) as [m1 s1].
  cbn [fst snd] in Hm, Hl. subst m1.
  destruct (IH s1) as [IH1 IH2]. split; [done|].
  rewrite IH2, Hl. by rewrite <- app_assoc.
Qed.

(** X23. Transient DB errors do not keep a task from the launcher.  When
    every write of a runtime fails with a transient error and every
    cached runtime is read with a goal state other than KILLED, the log
    of [ProcessPlacement] is: [GetLaunchableTasks]; then, for each task
    in turn whose id parses, [AddJob], [AddTask], [GetRunTime] and
    exactly [maxRetryCount] writes of the runtime the task came with;
    then one call of the launcher, with the task infos exactly as
    [GetLaunchableTasks] returned them; then calls that are no launch. *)
Theorem ProcessPlacement_launches_after_transient_errors
  placement w taskInfos0 w1 :
  GetLaunchableTasks env placement w = (inr taskInfos0, w1) →
  taskInfos0 ≠ ∅ →
  (∀ j i r w, ∃ x w', UpdateTasks env j i r w = (Some x, w')
                      ∧ IsTransientError env x = true) →
  (∀ j i w, ∃ r w', GetRunTime env j i w = (inr r, w')
                    ∧ GoalState r ≠ KILLED) →
  ∃ post,
    Forall notLaunch post
    ∧ runLog env placement w
      = ((CGetLaunchableTasks placement
          :: flat_map transientTurn (rangeOrder env taskInfos0))
         ++ [CProcessPlacement taskInfos0 placement])
        ++ post.
Proof.
  intros Hlaunch Hne Hdb Hlive.
  pose proof (ProcessPlacement_log placement w taskInfos0 w1 Hlaunch) as Hlog.
  destruct (processTasks_transient_run (rangeOrder env taskInfos0) taskInfos0
              (w1, [CGetLaunchableTasks placement]) Hdb Hlive)
    as [Hsame Hcalls].
  destruct (processTasks env _ taskInfos0 _) as [taskInfos s1].
  cbn [fst snd] in Hsame, Hcalls. subst taskInfos.
  destruct Hlog as [Hno [[Hsize _]|(_ & post & Hpost & ->)]].
  { by apply map_size_empty_iff in Hsize. }
  exists post. split; [done|]. by rewrite Hcalls.
Qed.

(** X24. A task whose runtime the DB refuses with an error that is not
    transient is taken out of the launch set at the first refusal: the
    launcher is never called with it. *)
Theorem ProcessPlacement_drops_on_db_error placement w taskInfos0 w1
  taskID taskInfo id instanceID :
  range_ok env →
  GetLaunchableTasks env placement w = (inr taskInfos0, w1) →
  taskInfos0 !! taskID = Some taskInfo →
  ParseTaskID env taskID = Some (id, instanceID) →
  (∀ w, ∃ r w', GetRunTime env id instanceID w = (inr r, w')
                ∧ GoalState r ≠ KILLED) →
  (∀ r w, ∃ x w', UpdateTasks env id instanceID r w = (Some x, w')
                  ∧ IsTransientError env x = false) →
  Forall (λ c, match c with
               | CProcessPlacement tasks _ => tasks !! taskID = None
               | _ => True
               end)
         (runLog env placement w).
Proof.
  intros Hrange Hlaunch Hin Hparse Hlive Hdb.
  assert (∀ tasks p, CProcessPlacement tasks p ∈ runLog env placement w →
                     tasks !! taskID = None) as Hall.
  2:{ apply list.Forall_forall. intros [] Hc; try done. by eapply Hall. }
  assert ((taskID, taskInfo) ∈ rangeOrder env taskInfos0) as Hmem.
  { rewrite (Hrange taskInfos0). by apply elem_of_map_to_list. }
  pose proof (ProcessPlacement_log placement w taskInfos0 w1 Hlaunch) as Hlog.
  pose proof (processTasks_dropped (rangeOrder env taskInfos0) taskID taskInfo
                taskInfos0 id instanceID
                (w1, [CGetLaunchableTasks placement])
                Hmem Hparse Hlive Hdb) as Hgone.
  destruct (processTasks env _ taskInfos0 _) as [taskInfos s1].
  cbn [fst] in Hgone.
  destruct Hlog as [Hno [[_ ->]|(_ & post & Hpost & ->)]]; intros tasks p.
  - intros Hp. by destruct (notLaunch_elem s1.2 tasks p).
  - rewrite !elem_of_app, list_elem_of_singleton. intros [[Hp|Hp]|Hp].
    + by destruct (notLaunch_elem s1.2 tasks p).
    + by injection Hp as -> ->.
    + by destruct (notLaunch_elem post tasks p).
Qed.

(** *** Tasks the first loop passes over *)

Lemma updateRetry_frame retry taskID id instanceID runtime taskInfos s j :
  j ≠ taskID →
  (updateRetry env retry taskID id instanceID runtime taskInfos s).1 !! j
  = taskInfos !! j.
Proof.
  intros Hj. revert s. induction retry as [|retry IH]; intros s; [done|].
  cbn [updateRetry]. unfold mbind, M_bind, ask. cbn [fst snd].
  destruct (UpdateTasks env id instanceID runtime s.1) as [[x|] w1];
    cbn [fst snd].
  - destruct (IsTransientError env x); [apply IH|].
    cbn [fst]. by apply lookup_delete_ne.
  - destruct (GetRunTime env id instanceID w1) as [r w2]. cbn [fst].
    by apply lookup_alter_ne.
Qed.

(** A turn of the first loop touches the entry of its own task only. *)
Lemma processTask_frame k t taskInfos s j :
  j ≠ k → (processTask env k t taskInfos s).1 !! j = taskInfos !! j.
Proof.
  intros Hj. unfold processTask.
  destruct (ParseTaskID env k) as [[id i]|]; [|done].
  unfold mbind, M_bind, call, ask, tell. cbn [fst snd].
  destruct (GetRunTime env id i s.1) as [[e|r] w1]; [done|].
  case_bool_decide.
  - case_bool_decide; cbn [fst]; by apply lookup_delete_ne.
  - by apply updateRetry_frame.
Qed.

(** The two [continue] paths of the first loop: the task id does not
    parse, or the cached runtime of the task cannot be read. *)
Definition passedOver (taskID : string) : Prop :=
  ParseTaskID env taskID = None
  ∨ ∃ id instanceID,
      ParseTaskID env taskID = Some (id, instanceID)
      ∧ ∀ w, ∃ e w', GetRunTime env id instanceID w = (inl e, w').

Lemma processTask_passedOver taskID t taskInfos s :
  passedOver taskID → (processTask env taskID t taskInfos s).1 = taskInfos.
Proof.
  intros [Hp|(id & i & Hp & Herr)]; unfold processTask; rewrite Hp; [done|].
  unfold mbind, M_bind, call, ask, tell. cbn [fst snd].
  by destruct (Herr s.1) as (e & w' & ->).
Qed.

Lemma processTasks_passedOver ts taskID taskInfos s :
  passedOver taskID →
  (processTasks env ts taskInfos s).1 !! taskID = taskInfos !! taskID.
Proof.
  intros Hover. revert taskInfos s.
  induction ts as [|[k t] ts IH]; intros taskInfos s; [done|].
  cbn [processTasks]. unfold mbind, M_bind.
  assert ((processTask env k t taskInfos s).1 !! taskID
          = taskInfos !! taskID) as Hone.
  { destruct (decide (taskID = k)) as [->|Hk].
    - by rewrite processTask_passedOver.
    - by apply processTask_frame. }
  destruct (processTask env k t taskInfos s) as [m1 s1]. cbn [fst] in Hone.
  by rewrite IH.
Qed.

(** C7, as the code has it.  For a task of a dequeued placement whose id
    parses and whose cached runtime is read with goal state KILLED,
    [ProcessPlacement] takes the task out of the launch set, so that the
    launcher is never called with it, and enqueues it to the goal-state
    driver when its cached state is not KILLED yet.  A task whose id does
    not parse, or whose cached runtime cannot be read, is passed over by
    this check: it stays in the launch set as it came, whatever its goal
    state, and the launcher is called with it. *)
Theorem ProcessPlacement_skips_killed placement w taskInfos0 w1
  taskID taskInfo :
  range_ok env →
  GetLaunchableTasks env placement w = (inr taskInfos0, w1) →
  taskInfos0 !! taskID = Some taskInfo →
  (∀ id instanceID,
     ParseTaskID env taskID = Some (id, instanceID) →
     (∀ w, ∃ r w', GetRunTime env id instanceID w = (inr r, w')
                   ∧ GoalState r = KILLED) →
     (∀ tasks p, CProcessPlacement tasks p ∈ runLog env placement w →
                 tasks !! taskID = None)
     ∧ ((∀ w r w', GetRunTime env id instanceID w = (inr r, w') →
                   State r ≠ KILLED) →
        CEnqueueTask id instanceID ∈ runLog env placement w))
  ∧ (passedOver taskID →
     ∃ tasks, CProcessPlacement tasks placement ∈ runLog env placement w
              ∧ tasks !! taskID = Some taskInfo).
Proof.
  intros Hrange Hlaunch Hin. split.
  - intros id instanceID Hparse Hgoal.
    by apply (ProcessPlacement_killed_removed env placement w taskInfos0 w1
                taskID taskInfo id instanceID).
  - intros Hover.
    pose proof (ProcessPlacement_log placement w taskInfos0 w1 Hlaunch)
      as Hlog.
    pose proof (processTasks_passedOver (rangeOrder env taskInfos0) taskID
                  taskInfos0 (w1, [CGetLaunchableTasks placement]) Hover)
      as Hkept.
    destruct (processTasks env _ taskInfos0 _) as [taskInfos s1].
    cbn [fst] in Hkept. rewrite Hin in Hkept.
    destruct Hlog as [Hno [[Hsize _]|(_ & post & Hpost & ->)]].
    { apply map_size_empty_iff in Hsize. subst taskInfos.
      by rewrite lookup_empty in Hkept. }
    exists taskInfos. split; [|done].
    rewrite !elem_of_app, list_elem_of_singleton. auto.
Qed.

(** *** A failed launch *)



End Retries.


(** ** The theorems against mocked collaborators *)

(** A DB that refuses every write with a transient error. *)
Definition flakyEnv : Env unit :=
  mkEnv unit
    (GetLaunchableTasks (testEnv pendingTask None None))
    (TryReturnOffers (testEnv pendingTask None None))
    (ParseTaskID (testEnv pendingTask None None))
    (GetRunTime (testEnv pendingTask None None))
    (λ _ _ _ w, (Some "timeout"%string, w))
    (λ _, true)
    (LauncherProcessPlacement (testEnv pendingTask None None))
    (EnqueueTask (testEnv pendingTask None None))
    (EnqueueJobWithDefaultDelay (testEnv pendingTask None None))
    (RegenerateMesosTaskID (testEnv pendingTask None None))
    map_to_list.

Lemma enqueueTasks_bounded_retries_witness :
  (updates (enqueueTasks flakyEnv
              {[ "testjob-0"%string := testTask pendingTask ]} (tt, [])).2.2
   ≤ updates [] + maxRetryCount
                  * size ({[ "testjob-0"%string := testTask pendingTask ]}
                          : gmap string TaskInfo))%nat.
Proof.
  exact (enqueueTasks_bounded_retries flakyEnv
           {[ "testjob-0"%string := testTask pendingTask ]} (tt, [])
           (λ m, reflexivity _)).
Defined.

Lemma enqueueTasks_accepted_witness :
  let env := testEnv pendingTask None None in
  let tasks : gmap string TaskInfo :=
    {[ "testjob-0"%string := testTask pendingTask ]} in
  (enqueueTasks env tasks (tt, [])).1 = None
  ∧ (enqueueTasks env tasks (tt, [])).2.2
    = [] ++ flat_map (λ kt : string * TaskInfo,
                        [CAddJob (JobId kt.2);
                         CUpdateTasks (JobId kt.2) (InstanceId kt.2)
                           (Some (rejectedRuntime
                                    (RegenerateMesosTaskID env) kt.2));
                         CEnqueueTask (JobId kt.2) (InstanceId kt.2);
                         CEnqueueJob (JobId kt.2)])
                     (rangeOrder env tasks).
Proof.
  intros env tasks.
  exact (enqueueTasks_accepted env tasks (tt, [])
           (λ m, reflexivity _) (λ j i r w, eq_refl)).
Defined.

Lemma ProcessPlacement_launches_after_transient_errors_witness :
  let taskInfos0 : gmap string TaskInfo :=
    {[ "testjob-0"%string := testTask pendingTask ]} in
  ∃ post,
    Forall notLaunch post
    ∧ runLog flakyEnv testPlacement tt
      = ((CGetLaunchableTasks testPlacement
          :: flat_map (transientTurn flakyEnv)
                      (rangeOrder flakyEnv taskInfos0))
         ++ [CProcessPlacement taskInfos0 testPlacement])
        ++ post.
Proof.
  intros taskInfos0.
  refine (ProcessPlacement_launches_after_transient_errors flakyEnv
            testPlacement tt taskInfos0 tt eq_refl _ _ _).
  - apply insert_non_empty.
  - intros j i r w. exists "timeout"%string, w. split; reflexivity.
  - intros j i w. exists pendingTask, w. split; [reflexivity|discriminate].
Defined.

Lemma ProcessPlacement_drops_on_db_error_witness :
  Forall (λ c, match c with
               | CProcessPlacement tasks _ =>
                   tasks !! "testjob-0"%string = None
               | _ => True
               end)
         (runLog (testEnv pendingTask (Some "fake db error"%string) None)
                 testPlacement tt).
Proof.
  refine (ProcessPlacement_drops_on_db_error
            (testEnv pendingTask (Some "fake db error"%string) None)
            testPlacement tt
            {[ "testjob-0"%string := testTask pendingTask ]} tt
            "testjob-0" (testTask pendingTask) "testjob" 0
            (λ m, reflexivity _) eq_refl ltac:(vm_compute; reflexivity)
            eq_refl _ _).
  - intros w. exists pendingTask, w. split; [reflexivity|discriminate].
  - intros r w. exists "fake db error"%string, w. split; reflexivity.
Defined.

(** Under the flaky DB the one task is written [maxRetryCount] times
    before the launcher gets it. *)
Example flaky_db_writes :
  updates (runLog flakyEnv testPlacement tt) = maxRetryCount.
Proof. by vm_compute. Qed.


(** ** A goal-KILLED task that reaches the launcher, and a failed launch *)

(** The cache cannot be read. *)
Definition unreadableEnv : Env unit :=
  mkEnv unit
    (GetLaunchableTasks (testEnv (killedGoal PENDING) None None))
    (TryReturnOffers (testEnv (killedGoal PENDING) None None))
    (ParseTaskID (testEnv (killedGoal PENDING) None None))
    (λ _ _ w, (inl "cache error"%string, w))
    (UpdateTasks (testEnv (killedGoal PENDING) None None))
    (IsTransientError (testEnv (killedGoal PENDING) None None))
    (LauncherProcessPlacement (testEnv (killedGoal PENDING) None None))
    (EnqueueTask (testEnv (killedGoal PENDING) None None))
    (EnqueueJobWithDefaultDelay (testEnv (killedGoal PENDING) None None))
    (RegenerateMesosTaskID (testEnv (killedGoal PENDING) None None))
    map_to_list.

(** No task id parses. *)
Definition unparsedEnv : Env unit :=
  mkEnv unit
    (GetLaunchableTasks (testEnv (killedGoal PENDING) None None))
    (TryReturnOffers (testEnv (killedGoal PENDING) None None))
    (λ _, None)
    (GetRunTime (testEnv (killedGoal PENDING) None None))
    (UpdateTasks (testEnv (killedGoal PENDING) None None))
    (IsTransientError (testEnv (killedGoal PENDING) None None))
    (LauncherProcessPlacement (testEnv (killedGoal PENDING) None None))
    (EnqueueTask (testEnv (killedGoal PENDING) None None))
    (EnqueueJobWithDefaultDelay (testEnv (killedGoal PENDING) None None))
    (RegenerateMesosTaskID (testEnv (killedGoal PENDING) None None))
    map_to_list.


(** C7 as stated fails: a task with goal state KILLED whose cached runtime
    cannot be read, or whose id does not parse, is handed to the
    launcher. *)
Lemma ProcessPlacement_launches_unread_killed_task :
  GoalState (killedGoal PENDING) = KILLED
  ∧ runLog unreadableEnv testPlacement tt
    = [CGetLaunchableTasks testPlacement; CAddJob "testjob";
       CAddTask "testjob" 0; CGetRunTime "testjob" 0;
       CProcessPlacement
         {[ "testjob-0"%string := testTask (killedGoal PENDING) ]}
         testPlacement;
       CEnqueueTask "testjob" 0; CAddJob "testjob"; CEnqueueJob "testjob"]
  ∧ runLog unparsedEnv testPlacement tt
    = [CGetLaunchableTasks testPlacement;
       CProcessPlacement
         {[ "testjob-0"%string := testTask (killedGoal PENDING) ]}
         testPlacement].
Proof. by vm_compute. Qed.


Lemma ProcessPlacement_skips_killed_witness :
  let env := testEnv (killedGoal PENDING) None None in
  let taskInfo := testTask (killedGoal PENDING) in
  ((∀ tasks p, CProcessPlacement tasks p ∈ runLog env testPlacement tt →
               tasks !! "testjob-0"%string = None)
   ∧ CEnqueueTask "testjob" 0 ∈ runLog env testPlacement tt)
  ∧ ∃ tasks, CProcessPlacement tasks testPlacement
             ∈ runLog unreadableEnv testPlacement tt
             ∧ tasks !! "testjob-0"%string = Some taskInfo.
Proof.
  intros env taskInfo. split.
  - destruct (ProcessPlacement_skips_killed env testPlacement tt
                {[ "testjob-0"%string := taskInfo ]} tt "testjob-0" taskInfo
                (λ m, reflexivity _) eq_refl
                ltac:(vm_compute; reflexivity)) as [Hkilled _].
    destruct (Hkilled "testjob"%string 0%N eq_refl) as [Hout Henq].
    { intros w. exists (killedGoal PENDING), w. split; reflexivity. }
    split; [exact Hout|]. apply Henq.
    intros w r w' [= <-]. discriminate.
  - refine (proj2 (ProcessPlacement_skips_killed unreadableEnv testPlacement
                     tt {[ "testjob-0"%string := taskInfo ]} tt "testjob-0"
                     taskInfo (λ m, reflexivity _) eq_refl
                     ltac:(vm_compute; reflexivity)) _).
    right. exists "testjob"%string, 0%N. split; [reflexivity|].
    intros w. exists "cache error"%string, w. reflexivity.
Defined.


End Processor.

(* ===================================================================== *)
(** * Task launcher (section 4.4; jobmgr/task/launcher is known from its
      tests only)                                                         *)
(* ===================================================================== *)

Module Launcher.

Import Tracker (TaskState(..)).
Import Processor (RuntimeInfo(..), TaskInfo(..), Placement(..),
                  State, GoalState, MesosTaskId, Host, AgentID, Ports,
                  Reason, Message, JobId, InstanceId, Runtime,
                  Tasks, Hostname, AgentId, PPorts, PType).

(** Modelled from the spec: the answers of the cluster manager to a launch
    (launcher.go is missing; section 4.4 "On CM error" and section 7,
    kind [CMReject]). *)
Inductive CMResponse := Launched | InvalidOffers | InvalidArgument | LaunchFailed.

(** Modelled from the spec: the operations of an [OfferOperations] request
    (the generated hostsvc package is missing; section 4.4 "RESERVE →
    CREATE → LAUNCH"). *)
Inductive Operation := RESERVE | CREATE | LAUNCH.

(** Modelled from the spec: a persistent volume is in CREATED state or is
    not (the generated volume package is missing; section 4.4). *)
Inductive VolumeState := VOLUME_INITIALIZED | VOLUME_CREATED.

(** A task as the launcher reloads it from the store, with what it needs
    of the task config: whether there is a persistent-volume spec. *)
Record Launchable := mkLaunchable {
  LID : string;
  LInfo : TaskInfo;
  HasVolume : bool
}.

(** Calls of the launcher on the task store, the volume store and the host
    manager, in the vocabulary of the mocks of the launcher's tests. *)
Inductive Call :=
| GetTaskByID (id : string)
| UpdateTaskRuntime (jobID : string) (instanceID : N) (r : RuntimeInfo)
| GetPersistentVolume (id : string)
| LaunchTasks (hostname : string) (ids : list string)
| OfferOperations (hostname : string) (ops : list Operation)
| ReleaseHostOffers (hostname : string).

Section WithHelpers.

(** The assignment of the placement's ports to the named ports of a task
    is outside the launcher. *)
Context (portsOf : Placement → Launchable → gmap string N).

(** Modelled from the spec: the runtime written before a launch
    (launcher.go is missing; section 4.4 "rewrites the runtime (host,
    agent id, ports, state=LAUNCHED, reason=UPDATE_OFFER, message=Add
    hostname and ports)"). *)
Definition launchedRuntime (p : Placement) (t : Launchable) : RuntimeInfo :=
  let old := Runtime (LInfo t) in
  mkRuntime LAUNCHED
            (from_option GoalState INITIALIZED old)
            (old ≫= MesosTaskId) (Hostname p) (AgentId p) (portsOf p t)
            "REASON_UPDATE_OFFER" "Add hostname and ports".

(** Modelled from the spec: reloading and persisting the tasks of a
    placement (launcher.go is missing; section 4.4 "reloads the task from
    Store (getTaskById) ... and persists via updateTaskRuntime").  The
    store answers without error here; the retry and drop policy on store
    errors is not part of this model. *)
Definition prepare (p : Placement) (ts : list Launchable) : list Call :=
  flat_map (λ t, [GetTaskByID (LID t);
                  UpdateTaskRuntime (JobId (LInfo t)) (InstanceId (LInfo t))
                                    (launchedRuntime p t)]) ts.

(** Modelled from the spec: the operations of a stateful launch
    (launcher.go is missing; section 4.4 "the ordered sequence: RESERVE →
    CREATE → LAUNCH, unless the volume is already in CREATED state (then
    LAUNCH alone)"). *)
Definition statefulOperations (v : VolumeState) : list Operation :=
  match v with
  | VOLUME_CREATED => [LAUNCH]
  | VOLUME_INITIALIZED => [RESERVE; CREATE; LAUNCH]
  end.

(** Modelled from the spec: the request that launches the tasks on the
    host of the placement (launcher.go is missing; section 4.4 "Two
    paths").  A stateful placement of a task with a persistent-volume spec
    reads the volume and sends [OfferOperations]; anything else sends
    [LaunchTasks]. *)
Definition launchRequest (p : Placement) (ts : list Launchable)
  (volume : VolumeState) : list Call :=
  match ts with
  | t :: _ =>
      if bool_decide (PType p = Tracker.STATEFUL) && HasVolume t
      then [GetPersistentVolume (LID t);
            OfferOperations (Hostname p) (statefulOperations volume)]
      else [LaunchTasks (Hostname p) (map LID ts)]
  | [] => [LaunchTasks (Hostname p) []]
  end.

(** Modelled from the spec: launching with retries (launcher.go is
    missing; section 4.4 "On CM error": "InvalidArgument → retry up to
    maxAttempts, then release offers", "LaunchFailed → same as
    InvalidArgument", and after [InvalidOffers] no retry).  [left] attempts
    are left, [cm n] is the answer to attempt [n], [retries] is the counter
    [launch_tasks.retry].  The result is the calls made, the counter, and
    the answer of the cluster manager that ended a failed launch: the
    launcher's [ProcessPlacement] returns an error to the placement
    processor (placement.go, line 210), and sending the tasks back is the
    processor's [enqueueTasks], modelled as [Processor.enqueueTasks].  The
    hosts that section 4.4 has released after [InvalidOffers] are the
    matched hosts that remain beside the one whose offers are invalid; a
    placement names one host, so none remains, and the launcher's test
    expects no [ReleaseHostOffers] there. *)
Fixpoint launchWithRetry (left : nat) (cm : nat → CMResponse)
  (attempt : nat) (p : Placement) (ts : list Launchable)
  (volume : VolumeState) (retries : nat)
  : list Call * (nat * option CMResponse) :=
  match left with
  | O => ([], (retries, None))
  | S left' =>
      match cm attempt with
      | Launched => (launchRequest p ts volume, (retries, None))
      | InvalidOffers =>
          (launchRequest p ts volume, (retries, Some InvalidOffers))
      | (InvalidArgument | LaunchFailed) as failure =>
          match left' with
          | O =>
              (launchRequest p ts volume ++ [ReleaseHostOffers (Hostname p)],
               (retries, Some failure))
          | S _ =>
              let '(calls, result) :=
                launchWithRetry left' cm (S attempt) p ts volume
                                (S retries) in
              (launchRequest p ts volume ++ calls, result)
          end
      end
  end.

(** Modelled from the spec: one placement through the launcher
    (launcher.go is missing; section 4.4, last paragraph: "If a placement
    arrives with zero tasks ..., the launcher must still release the
    offers"). *)
Definition ProcessPlacement (maxAttempts : nat) (cm : nat → CMResponse)
  (p : Placement) (ts : list Launchable) (volume : VolumeState)
  (retries : nat) : list Call * (nat * option CMResponse) :=
  match ts with
  | [] => ([ReleaseHostOffers (Hostname p)], (retries, None))
  | _ =>
      let '(calls, result) :=
        launchWithRetry maxAttempts cm 0 p ts volume retries in
      (prepare p ts ++ calls, result)
  end.

(** Modelled from the spec: launch of a task that is already bound to an
    agent with reserved resources (launcher.go is missing; section 4.4
    "unless the task already has an agent-id binding for reserved
    resources (then LAUNCH on the reserved offer directly)"). *)
Definition LaunchTaskWithReservedResource (t : Launchable) : list Call :=
  let host := from_option Host ""%string (Runtime (LInfo t)) in
  [GetTaskByID (LID t);
   UpdateTaskRuntime (JobId (LInfo t)) (InstanceId (LInfo t))
     (launchedRuntime
        (mkPlacement [LID t] host
                     (Runtime (LInfo t) ≫= AgentID) []
                     Tracker.STATEFUL) t);
   OfferOperations host [LAUNCH]].

End WithHelpers.

(** ** The launcher on the task of its tests *)

Definition onePort (p : Placement) (t : Launchable) : gmap string N :=
  {[ "port"%string := 100%N ]}.

Definition task0 (volume : bool) : Launchable :=
  mkLaunchable "testjob-0"
    (mkTaskInfo "testjob" 0
       (Some (mkRuntime INITIALIZED SUCCEEDED (Some "testjob-0-1"%string)
                        "" None ∅ "" "")))
    volume.

Definition placement0 (ty : Tracker.TaskType) : Placement :=
  mkPlacement ["testjob-0"%string] "hostname-0" (Some "agent-0"%string)
              [100%N] ty.

Definition launched0 (ty : Tracker.TaskType) (volume : bool) : RuntimeInfo :=
  launchedRuntime onePort (placement0 ty) (task0 volume).

(** ** Replaying the tests of the launcher *)

Example TestMultipleTasksPlaced :
  ProcessPlacement onePort 5 (λ _, Launched) (placement0 Tracker.BATCH)
                   [task0 false] VOLUME_INITIALIZED 0
  = ([GetTaskByID "testjob-0";
      UpdateTaskRuntime "testjob" 0 (launched0 Tracker.BATCH false);
      LaunchTasks "hostname-0" ["testjob-0"%string]], (0%nat, None)).
Proof. reflexivity. Qed.

(** [TestLaunchTasksWithInvalidOfferResponse] up to the answer of the host
    manager: one [LaunchTasks], no release of the offers, the retry counter
    at 0.  The launcher of that test goes on to send the gang back itself
    ([UpdateTaskRuntime], [GetJobConfig], [EnqueueGangs]); with the
    processor of placement.go the tasks go back in
    [Processor.enqueueTasks]. *)
Example InvalidOffers_not_retried :
  ProcessPlacement onePort 5 (λ _, InvalidOffers)
                   (placement0 Tracker.BATCH) [task0 false]
                   VOLUME_INITIALIZED 0
  = ([GetTaskByID "testjob-0";
      UpdateTaskRuntime "testjob" 0 (launched0 Tracker.BATCH false);
      LaunchTasks "hostname-0" ["testjob-0"%string]],
     (0%nat, Some InvalidOffers)).
Proof. reflexivity. Qed.

(** [TestLaunchTasksRetryWithError] up to the release of the offers: five
    [LaunchTasks], then [ReleaseHostOffers], the retry counter at 4. *)
Example InvalidArgument_retried_then_released :
  ProcessPlacement onePort 5 (λ _, InvalidArgument)
                   (placement0 Tracker.BATCH) [task0 false]
                   VOLUME_INITIALIZED 0
  = ([GetTaskByID "testjob-0";
      UpdateTaskRuntime "testjob" 0 (launched0 Tracker.BATCH false)]
     ++ replicate 5 (LaunchTasks "hostname-0" ["testjob-0"%string])
     ++ [ReleaseHostOffers "hostname-0"],
     (4%nat, Some InvalidArgument)).
Proof. reflexivity. Qed.

Example TestLaunchStatefulTask :
  ProcessPlacement onePort 5 (λ _, Launched)
                   (placement0 Tracker.STATEFUL) [task0 true]
                   VOLUME_INITIALIZED 0
  = ([GetTaskByID "testjob-0";
      UpdateTaskRuntime "testjob" 0 (launched0 Tracker.STATEFUL true);
      GetPersistentVolume "testjob-0";
      OfferOperations "hostname-0" [RESERVE; CREATE; LAUNCH]],
     (0%nat, None)).
Proof. reflexivity. Qed.

Example TestLaunchStatefulTaskLaunchWithVolume :
  ProcessPlacement onePort 5 (λ _, Launched)
                   (placement0 Tracker.STATEFUL) [task0 true]
                   VOLUME_CREATED 0
  = ([GetTaskByID "testjob-0";
      UpdateTaskRuntime "testjob" 0 (launched0 Tracker.STATEFUL true);
      GetPersistentVolume "testjob-0";
      OfferOperations "hostname-0" [LAUNCH]], (0%nat, None)).
Proof. reflexivity. Qed.

Example TestProcessPlacementsWithNoTasksReleasesOffers :
  ProcessPlacement onePort 5 (λ _, Launched)
                   (placement0 Tracker.BATCH) [] VOLUME_INITIALIZED 0
  = ([ReleaseHostOffers "hostname-0"], (0%nat, None)).
Proof. reflexivity. Qed.

Example TestLaunchStatefulTaskLaunchWithReservedResourceDirectly :
  ∃ r, LaunchTaskWithReservedResource onePort
         (mkLaunchable "testjob-0"
            (mkTaskInfo "testjob" 0
               (Some (mkRuntime INITIALIZED SUCCEEDED
                                (Some "testjob-0-1"%string) "hostname-0"
                                None ∅ "" ""))) true)
       = [GetTaskByID "testjob-0"; UpdateTaskRuntime "testjob" 0 r;
          OfferOperations "hostname-0" [LAUNCH]].
Proof. eexists. reflexivity. Qed.

Section Properties.

Context (portsOf : Placement → Launchable → gmap string N).


End Properties.



End Launcher.
